(** * wordle-tool: guess scoring, constraint tracking and the board loop

    A shallow embedding of the [wordle-tool] program (the TypeScript source
    that plays several boards at once; the single-board sources that precede
    it share its functions and are noted where they differ) and the
    properties its specification states about it.

    Conventions of the embedding.
    - A JavaScript string is a [list ascii]; [s !! i] is [s[i]], with [None]
      standing for [undefined] (an index past the end).  The result glyphs of
      [guessResult], which are not ASCII, are kept as their UTF-8 bytes; that
      text is only appended to and printed.
    - Words are meant to be over the alphabet a-z.  The two places where the
      program turns text into a regular expression ([countOccurrences] and the
      [fixed] pattern of [filterWords]) are modelled for the atoms the program
      builds there: a letter, which matches itself, and ".", which matches
      every character but a line terminator.
    - Every JavaScript number is an IEEE 754 binary64 value.  Counts and
      indices stay far below 2^53 and are kept in [nat] or [Z]; word scores,
      which are multiplied by 1.1, are computed in [spec_float] with the
      binary64 parameters. *)

From Stdlib Require Import ZArith Ascii String List Lia.
From Stdlib Require Import Floats.SpecFloat.
From stdpp Require Import gmap strings list fin_maps.

#[local] Open Scope nat_scope.

(** ** Strings *)

Abbreviation text := (list ascii).

(** A string literal as a word. *)
Definition w (s : string) : text := list_ascii_of_string s.

(** [range(5)] *)
Definition range (n : nat) : list nat := seq 0 n.

(** ** Feedback evaluator: [makeGuess(guess, solution)]

    The first single-board source calls this function [testGuess] and the
    results GREEN, YELLOW and GRAY; the two loops are the same. *)

Inductive LetterResult := PERFECT | CLOSE | WRONG.

#[global] Instance LetterResult_eq_dec : EqDecision LetterResult.
Proof. solve_decision. Defined.

(** Keys of [letterOccurrences].  The key is [solution[i]] or [guess[i]]; an
    index past the end gives [undefined], which JavaScript turns into the
    property name "undefined" -- a key no single character can equal.  It is
    [None] here. *)
Abbreviation okey := (option ascii).

(** First loop: count the letters of the solution the guess does not hit. *)
Definition countUnclaimed (guess solution : text)
    (letterOccurrences : gmap okey nat) (i : nat) : gmap okey nat :=
  let nextLetter := solution !! i in
  if decide (guess !! i ≠ nextLetter)
  then <[nextLetter := default 0 (letterOccurrences !! nextLetter) + 1]> letterOccurrences
  else letterOccurrences.

Definition firstPass (guess solution : text) (idxs : list nat) : gmap okey nat :=
  foldl (countUnclaimed guess solution) ∅ idxs.

(** Second loop: one result per index, pushed in order.  A counter is truthy
    when it is present and not 0. *)
Fixpoint secondPass (guess solution : text) (letterOccurrences : gmap okey nat)
    (idxs : list nat) : list LetterResult :=
  match idxs with
  | [] => []
  | i :: idxs' =>
      let nextLetter := guess !! i in
      if decide (nextLetter = solution !! i)
      then PERFECT :: secondPass guess solution letterOccurrences idxs'
      else match letterOccurrences !! nextLetter with
           | Some (S n) =>
               CLOSE :: secondPass guess solution (<[nextLetter := n]> letterOccurrences) idxs'
           | _ => WRONG :: secondPass guess solution letterOccurrences idxs'
           end
  end.

Definition makeGuess (guess solution : text) : list LetterResult :=
  secondPass guess solution (firstPass guess solution (range 5)) (range 5).

(** Number of times [L] occurs in a word. *)
Definition occurrences (L : ascii) (s : text) : nat :=
  length (filter (λ c, c = L) s).

(** Number of positions of the guess that hold [L] and were answered
    PERFECT or CLOSE. *)
Definition credited (L : ascii) (guess : text) (result : list LetterResult) : nat :=
  length (filter (λ gr : ascii * LetterResult, gr.1 = L ∧ gr.2 ≠ WRONG) (zip guess result)).

(** ** Regular expressions built from text

    [new RegExp(text)] for a text over a-z and ".": one atom per character. *)

Definition isLineTerminator (c : ascii) : bool :=
  bool_decide (c = "010"%char) || bool_decide (c = "013"%char).

Definition atomMatches (p c : ascii) : bool :=
  if decide (p = "."%char) then negb (isLineTerminator c) else bool_decide (p = c).

(** The pattern matches at the start of the subject. *)
Fixpoint matchesPrefix (pattern str : text) : bool :=
  match pattern, str with
  | [], _ => true
  | p :: ps, c :: cs => atomMatches p c && matchesPrefix ps cs
  | _ :: _, [] => false
  end.

(** [regex.test(str)], no flags: a match starting anywhere. *)
Fixpoint regexTest (pattern str : text) : bool :=
  matchesPrefix pattern str ||
  match str with
  | [] => false
  | _ :: cs => regexTest pattern cs
  end.

(** [str.match(regex)] with the [g] flag: the matches found left to right,
    each search resuming where the previous match ended ([skip] characters
    are still covered by the last match); an empty match advances by one. *)
Fixpoint countMatchesFrom (skip : nat) (pattern str : text) : nat :=
  match skip with
  | S k =>
      match str with
      | [] => 0
      | _ :: cs => countMatchesFrom k pattern cs
      end
  | 0 =>
      if matchesPrefix pattern str
      then S (match str with
              | [] => 0
              | _ :: cs => countMatchesFrom (length pattern - 1) pattern cs
              end)
      else match str with
           | [] => 0
           | _ :: cs => countMatchesFrom 0 pattern cs
           end
  end.

(** [countOccurrences(string, character)] *)
Definition countOccurrences (str character : text) : nat :=
  countMatchesFrom 0 character str.

(** ** Property keys

    A value read from a string by index is a one-character string or
    [undefined]; used as a property name or appended to a string it becomes
    the text below. *)
Definition undefinedText : text := w "undefined".

Definition toText (v : option ascii) : text :=
  match v with
  | Some c => [c]
  | None => undefinedText
  end.

(** ** Letter scorer *)

(** [countLetters(word)]: the entries of the [counts] object in insertion
    order, which for letter keys is the order [Object.entries] lists them. *)
Fixpoint bumpCount (letter : ascii) (counts : list (ascii * nat)) : list (ascii * nat) :=
  match counts with
  | [] => [(letter, 1)]
  | (l, n) :: rest =>
      if decide (l = letter) then (l, n + 1) :: rest
      else (l, n) :: bumpCount letter rest
  end.

Definition countLetters (word : text) : list (ascii * nat) :=
  foldl (λ counts letter, bumpCount letter counts) [] word.

(** [LetterScores]: letter to its row of scores. *)
Abbreviation LetterScores := (gmap ascii (list nat)).

(** The inner loop of [scoreLetters] on one row: [row[i] ??= 0] and
    [if (i < occurrences) row[i] += 1] for [i] in [range(4)].  A row starts
    as [[]] and only these four indices are ever written. *)
Definition tally (occurrences : nat) (row : list nat) : list nat :=
  map (λ i, default 0 (row !! i) + (if decide (i < occurrences) then 1 else 0)) (range 4).

Definition scoreLettersWord (letters : LetterScores) (word : text) : LetterScores :=
  foldl (λ (letters : LetterScores) entry,
           <[entry.1 := tally entry.2 (default [] (letters !! entry.1))]> letters)
        letters (countLetters word).

(** [if (score > effectiveCount / 2) scores[i] = effectiveCount - score] *)
Definition foldAtHalf (effectiveCount score : nat) : nat :=
  if decide (effectiveCount < 2 * score) then effectiveCount - score else score.

Definition scoreLetters (words : list text) : LetterScores :=
  let effectiveCount := length words in
  map (foldAtHalf effectiveCount) <$> foldl scoreLettersWord ∅ words.

(** ** Word ranker

    Scores are binary64 numbers. *)
Definition prec : Z := 53.
Definition emax : Z := 1024.

Definition num (n : nat) : spec_float := binary_normalize prec emax (Z.of_nat n) 0 false.
Definition fadd : spec_float → spec_float → spec_float := SFadd prec emax.
Definition fmul : spec_float → spec_float → spec_float := SFmul prec emax.
(** [x > y] *)
Definition fgt (x y : spec_float) : bool := SFltb y x.

(** The literal [1.1]: 0x1.199999999999Ap0. *)
Definition f1_1 : spec_float := S754_finite false 4953959590107546 (-52).

(** [letters[letter]?.[count - 1] ?? 0] *)
Definition letterValue (letters : LetterScores) (entry : ascii * nat) : spec_float :=
  match letters !! entry.1 with
  | Some row =>
      match entry.2 with
      | 0 => num 0
      | S k => num (default 0 (row !! k))
      end
  | None => num 0
  end.

(** [Object.entries(countLetters(word)).map(...).reduce((a, b) => a + b, 0)] *)
Definition baseScore (word : text) (letters : LetterScores) : spec_float :=
  foldl fadd (num 0) (map (letterValue letters) (countLetters word)).

Definition scoreWord (word : text) (letters : LetterScores) (validWords : list text)
    : spec_float :=
  if decide (word ∈ validWords)
  then fadd (fmul (baseScore word letters) f1_1) (num 1)
  else baseScore word letters.

(** [scoreWords]: [threadLetterScores] has one table per entry of
    [threadWords] (it is [threadWords.map(scoreLetters)]). *)
Definition scoreWords (word : text) (threadLetterScores : list LetterScores)
    (threadWords : list (list text)) : spec_float :=
  foldl fadd (num 0)
    (zip_with (λ words letters, scoreWord word letters words) threadWords threadLetterScores).

(** [array.reduce(f)] without an initial value; an empty array throws a
    TypeError, [None] here. *)
Definition reduce1 {A} (f : A → A → A) (l : list A) : option A :=
  match l with
  | [] => None
  | x :: xs => Some (foldl f x xs)
  end.

Definition chooseWord (threadWords : list (list text)) (guessPool : list text)
    : option text :=
  let threadLetterScores := map scoreLetters threadWords in
  reduce1 (λ best next : text,
             if fgt (scoreWords best threadLetterScores threadWords)
                    (scoreWords next threadLetterScores threadWords)
             then best else next)
          guessPool.

(** [chooseWord(words, guessPool)] of the first single-board source (the
    JavaScript one), which scores a word with [score], the [scoreWord] of
    this file, on the one list.  The second single-board source (the
    TypeScript one) has the same text, but its [range] never advances
    ([i += 0]), so its [scoreLetters], and with it its [chooseWord], does
    not return on a list that holds a non-empty word; it is not modelled. *)
Definition chooseWordSingle (words guessPool : list text) : option text :=
  let letterScores := scoreLetters words in
  reduce1 (λ best next : text,
             if fgt (scoreWord best letterScores words) (scoreWord next letterScores words)
             then best else next)
          guessPool.

(** ** Constraint tracker *)

Record Known := {
  fixed : text;
  good : gmap text nat;
  bad : gmap text nat;
  badPositions : gmap text (gset nat);
  guessResult : text;
  solved : bool;
}.

Definition nothingKnown : Known :=
  {| fixed := w "....."; good := ∅; bad := ∅; badPositions := ∅;
     guessResult := []; solved := false |}.

(** The variables the loop of [updateKnown] assigns. *)
Record Pass := {
  knownFixed : text;
  newGood : gmap text nat;
  newBad : gset text;
  passGuessResult : text;
  passBadPositions : gmap text (gset nat);
}.

(** One iteration of [for (const [i, letterResult] of response.entries())]. *)
Definition noteResult (guess oldFixed : text) (st : Pass) (entry : nat * LetterResult)
    : Pass :=
  let i := entry.1 in
  let nextLetter := toText (guess !! i) in
  match entry.2 with
  | PERFECT =>
      {| knownFixed := knownFixed st ++ nextLetter;
         newGood := <[nextLetter := default 0 (newGood st !! nextLetter) + 1]> (newGood st);
         newBad := newBad st;
         passGuessResult := passGuessResult st ++ w "🟩";
         passBadPositions := passBadPositions st |}
  | CLOSE =>
      {| knownFixed := knownFixed st ++ toText (oldFixed !! i);
         newGood := <[nextLetter := default 0 (newGood st !! nextLetter) + 1]> (newGood st);
         newBad := newBad st;
         passGuessResult := passGuessResult st ++ w "🟨";
         passBadPositions :=
           <[nextLetter := {[i]} ∪ default ∅ (passBadPositions st !! nextLetter)]>
             (passBadPositions st) |}
  | WRONG =>
      {| knownFixed := knownFixed st ++ toText (oldFixed !! i);
         newGood := newGood st;
         newBad := {[nextLetter]} ∪ newBad st;
         passGuessResult := passGuessResult st ++ w "🟥";
         passBadPositions := passBadPositions st |}
  end.

(** [response.entries()] *)
Definition entries {A} (l : list A) : list (nat * A) := zip (seq 0 (length l)) l.

(** [goodLetters]: a key for every key of either object, with the larger of
    the two counts ([?? 0] for a missing one). *)
Definition mergeGood (oldGood newGood : gmap text nat) : gmap text nat :=
  merge (λ o n, match o, n with
                | None, None => None
                | _, _ => Some (Nat.max (default 0 o) (default 0 n))
                end) oldGood newGood.

(** [badLetters]: the old bounds, overridden for this round's bad letters. *)
Definition mergeBad (oldBad : gmap text nat) (newBad : gset text)
    (goodLetters : gmap text nat) : gmap text nat :=
  set_to_map (λ letter, (letter, default 0 (goodLetters !! letter) + 1)) newBad ∪ oldBad.

Definition updateKnown (guess : text) (response : list LetterResult) (known : Known)
    : Known :=
  let st := foldl (noteResult guess (fixed known))
              {| knownFixed := []; newGood := ∅; newBad := ∅;
                 passGuessResult := guessResult known;
                 passBadPositions := badPositions known |}
              (entries response) in
  let goodLetters := mergeGood (good known) (newGood st) in
  {| fixed := knownFixed st;
     good := goodLetters;
     bad := mergeBad (bad known) (newBad st) goodLetters;
     badPositions := passBadPositions st;
     guessResult := passGuessResult st ++ " "%char :: guess ++ ["010"%char];
     solved := forallb (λ position, bool_decide (position = PERFECT)) response |}.

(** ** Candidate filter *)

(** [word[position]] as a value: a one-character string or [undefined]. *)
Definition charAt (s : text) (position : nat) : option text :=
  (λ c, [c]) <$> s !! position.

(** The predicate handed to [words.filter]. *)
Definition keeps (known : Known) (word : text) : bool :=
  regexTest (fixed known) word
  && bool_decide (map_Forall (λ letter count, count ≤ countOccurrences word letter)
                    (good known))
  && bool_decide (map_Forall (λ letter count, countOccurrences word letter < count)
                    (bad known))
  && bool_decide (map_Forall (λ letter (positions : gset nat),
                      set_Forall (λ position, charAt word position ≠ Some letter) positions)
                    (badPositions known)).

Definition filterWords (words : list text) (known : Known) : list text :=
  filter (λ word, keeps known word) words.

(** ** Board coordinator: [gameModes[GameModeName.NORMAL].run]

    The flags that only change what is printed ([--quiet], [--verbose]) are
    left out.  What the program reads from outside while it runs is given by
    a [Player]: the guess typed in free mode (the empty string lets the
    program choose), the results typed for a thread, and the random draws. *)

Record Config := {
  hardMode : bool;
  freeMode : bool;
  randomMode : bool;
  threadCount : nat;
  roundCount : Z;
}.

(** [requestGuess] returns the empty string or a word of the dictionary made
    of five letters a-z, [requestResult] five results: both ask again until
    the input has that form. *)
Record Player := {
  requestGuess : nat → text;                       (* by round *)
  requestResult : nat → nat → list LetterResult;   (* by round and thread *)
  randomIndex : nat → nat;                         (* by thread *)
}.

(** How the process ends. *)
Inductive Exit :=
  | Usage                                        (* printUsage(), exit 1 *)
  | UnknownWord (solution : text)                (* exit 1 *)
  | TypeError                                    (* uncaught exception *)
  | WordNotKnown (thread : nat) (known : Known)  (* exit 1 *)
  | Score                                        (* exit 0 *)
  | YouLost.                                     (* exit 1 *)

(** [threadKnown.filter((known) => !known.solved).length] *)
Definition wordsToGuess (threadKnown : list Known) : nat :=
  length (filter (λ known, solved known = false) threadKnown).

Definition guessPool (cfg : Config) (allWords : list text) (roundNumber : nat)
    (threadKnown : list Known) (threadWords : list (list text)) : list text :=
  if hardMode cfg
     || bool_decide (roundCount cfg - Z.of_nat (wordsToGuess threadKnown) ≤ Z.of_nat roundNumber)%Z
  then concat threadWords
  else allWords.

(** The guess of a round, with the pool it was chosen from when the program
    chose it. *)
Definition pickGuess (cfg : Config) (allWords : list text) (player : Player)
    (roundNumber : nat) (threadKnown : list Known) (threadWords : list (list text))
    : option (list text) * option text :=
  let guess := if freeMode cfg then requestGuess player roundNumber else [] in
  if decide (guess ≠ []) then (None, Some guess)
  else
    let pool := guessPool cfg allWords roundNumber threadKnown threadWords in
    (Some pool, chooseWord threadWords pool).

(** The callback of [mapAsyncSequentially(threadKnown, ...)].  [solutions]
    has one entry per thread whenever [hasSolutions] holds. *)
Definition answerThread (hasSolutions : bool) (solutions : list text) (player : Player)
    (roundNumber : nat) (guess : text) (i : nat) (known : Known) : Known :=
  if solved known then known
  else
    let response :=
      if hasSolutions then makeGuess guess (default [] (solutions !! i))
      else requestResult player roundNumber i in
    updateKnown guess response known.

(** [threadWords.map((words, i) => ...)], leaving the process at the first
    thread whose remaining words are empty. *)
Fixpoint narrow (i : nat) (newKnown : list Known) (threadWords : list (list text))
    : Exit + list (list text) :=
  match threadWords with
  | [] => inr []
  | words :: rest =>
      match newKnown !! i with
      | None => inl TypeError
      | Some known =>
          if solved known
          then match narrow (S i) newKnown rest with
               | inl e => inl e
               | inr rest' => inr ([] :: rest')
               end
          else
            let remainingWords := filterWords words known in
            if decide (length remainingWords = 0) then inl (WordNotKnown i known)
            else match narrow (S i) newKnown rest with
                 | inl e => inl e
                 | inr rest' => inr (remainingWords :: rest')
                 end
      end
  end.

(** What one pass through the body of the round loop leads to. *)
Inductive Step :=
  | Continue (threadKnown : list Known) (threadWords : list (list text))
  | Break (threadKnown : list Known)
  | Abort (e : Exit).

(** A round as it was played. *)
Record Round := {
  roundNumber : nat;
  knownBefore : list Known;
  wordsBefore : list (list text);
  poolUsed : option (list text);
  guessMade : option text;
  outcome : Step;
}.

Definition playRound (cfg : Config) (allWords : list text) (hasSolutions : bool)
    (solutions : list text) (player : Player) (roundNumber : nat)
    (threadKnown : list Known) (threadWords : list (list text)) : Round :=
  let picked := pickGuess cfg allWords player roundNumber threadKnown threadWords in
  {| roundNumber := roundNumber;
     knownBefore := threadKnown;
     wordsBefore := threadWords;
     poolUsed := picked.1;
     guessMade := picked.2;
     outcome :=
       match picked.2 with
       | None => Abort TypeError
       | Some guess =>
           let newKnown :=
             imap (answerThread hasSolutions solutions player roundNumber guess)
                  threadKnown in
           if forallb solved newKnown then Break newKnown
           else match narrow 0 newKnown threadWords with
                | inl e => Abort e
                | inr threadWords' => Continue newKnown threadWords'
                end
       end |}.

(** After the loop.  The results of the boards are first put side by side
    by [juxtapose], which reads the first of its outputs and throws a
    TypeError when there is none. *)
Definition finish (threadKnown : list Known) : Exit :=
  match threadKnown with
  | [] => TypeError
  | _ :: _ => if forallb solved threadKnown then Score else YouLost
  end.

Fixpoint playRounds (cfg : Config) (allWords : list text) (hasSolutions : bool)
    (solutions : list text) (player : Player) (roundNumbers : list nat)
    (threadKnown : list Known) (threadWords : list (list text)) : list Round * Exit :=
  match roundNumbers with
  | [] => ([], finish threadKnown)
  | roundNumber :: later =>
      let round :=
        playRound cfg allWords hasSolutions solutions player roundNumber
                  threadKnown threadWords in
      match outcome round with
      | Continue threadKnown' threadWords' =>
          let rest :=
            playRounds cfg allWords hasSolutions solutions player later
                       threadKnown' threadWords' in
          (round :: rest.1, rest.2)
      | Break threadKnown' => ([round], finish threadKnown')
      | Abort e => ([round], e)
      end
  end.

(** [run(solutions)] with the dictionary [loadAllWords()] returned: the rounds
    played and the way the process ended.  The round budget is taken to be a
    whole number.  The check of the solutions is the one of the single-board
    sources, [solution && !allWords.includes(solution)], in a loop. *)
Definition run (cfg : Config) (allWords : list text) (player : Player)
    (args : list text) : list Round * Exit :=
  let hasSolutions := bool_decide (args ≠ []) in
  if hasSolutions && bool_decide (length args ≠ threadCount cfg) then ([], Usage)
  else if randomMode cfg && hasSolutions then ([], Usage)
  else
    let solutions :=
      if randomMode cfg
      then args ++ map (λ i, default [] (allWords !! randomIndex player i))
                       (range (threadCount cfg))
      else args in
    let hasSolutions := hasSolutions || randomMode cfg in
    match List.find (λ solution, bool_decide (solution ≠ [] ∧ solution ∉ allWords))
                    solutions with
    | Some solution => ([], UnknownWord solution)
    | None =>
        playRounds cfg allWords hasSolutions solutions player
                   (range (Z.to_nat (roundCount cfg)))
                   (replicate (threadCount cfg) nothingKnown)
                   (replicate (threadCount cfg) allWords)
    end.

(** ** The two loops of [makeGuess] on the letters they read

    [lettersAt s idxs] lists what the loop over [idxs] reads from [s]; the two
    functions below are the loops of [makeGuess] run on these lists.  They are
    used to reason about [makeGuess] only. *)

Definition lettersAt (s : text) (idxs : list nat) : list okey :=
  map (λ i, s !! i) idxs.

Definition tallyUnclaimed (occ : gmap okey nat) (pairs : list (okey * okey))
    : gmap okey nat :=
  foldl (λ (occ : gmap okey nat) gs,
           if decide (gs.1 ≠ gs.2) then <[gs.2 := default 0 (occ !! gs.2) + 1]> occ else occ)
        occ pairs.

Fixpoint classify (occ : gmap okey nat) (gs ss : list okey) : list LetterResult :=
  match gs, ss with
  | g :: gs', s :: ss' =>
      if decide (g = s) then PERFECT :: classify occ gs' ss'
      else match occ !! g with
           | Some (S n) => CLOSE :: classify (<[g := n]> occ) gs' ss'
           | _ => WRONG :: classify occ gs' ss'
           end
  | _, _ => []
  end.

(** ** The inputs the specification speaks of

    Letters are a-z; a word has five of them; the [fixed] pattern has five
    characters, each a letter or the wildcard "."; the keys of [good], [bad]
    and [badPositions] are letters. *)

Definition isLetter (c : ascii) : bool :=
  (97 <=? nat_of_ascii c) && (nat_of_ascii c <=? 122).

Definition isWord5 (word : text) : bool :=
  (length word =? 5) && forallb isLetter word.

Definition isPattern5 (pattern : text) : bool :=
  (length pattern =? 5) && forallb (λ c, isLetter c || bool_decide (c = "."%char)) pattern.

Definition isLetterKey (key : text) : bool :=
  match key with
  | [c] => isLetter c
  | _ => false
  end.

Definition letterKeys {V} (m : gmap text V) : bool :=
  bool_decide (map_Forall (λ key _, isLetterKey key = true) m).

Definition wellFormed (known : Known) : bool :=
  isPattern5 (fixed known) && letterKeys (good known) && letterKeys (bad known)
  && letterKeys (badPositions known).

(** The word agrees with the pattern at every position that is not a
    wildcard. *)
Definition matchesFixed (pattern word : text) : Prop :=
  ∀ i c, pattern !! i = Some c → c = "."%char ∨ word !! i = Some c.

(** The state after guessing "eerie" against the solution "crane": one "e"
    is PERFECT and two are WRONG, so [bad] bounds "e" by 2. *)
Definition knownEerie : Known :=
  updateKnown (w "eerie") (makeGuess (w "eerie") (w "crane")) nothingKnown.

(** ** The constraint states of a board

    A board starts from [nothingKnown()] and is updated with 5-letter guesses
    and their 5 results. *)
Inductive reachable : Known → Prop :=
  | reach_nothing : reachable nothingKnown
  | reach_update (guess : text) (response : list LetterResult) (known : Known) :
      reachable known → isWord5 guess = true → length response = 5 →
      reachable (updateKnown guess response known).

(** Every bound of [bad] is at most one more than the count of [good]. *)
Definition boundsOk (known : Known) : bool :=
  bool_decide (map_Forall (λ key bound, bound ≤ default 0 (good known !! key) + 1)
                 (bad known)).

Definition consistent (known : Known) : bool := wellFormed known && boundsOk known.

(** The [fixed] pattern after an update, position by position. *)
Definition nextFixed (guess oldFixed : text) (response : list LetterResult) : text :=
  zip_with (λ (letterResult : LetterResult) (gf : ascii * ascii),
              if decide (letterResult = PERFECT) then gf.1 else gf.2)
           response (zip guess oldFixed).

(** What the loop of [updateKnown] keeps true of its variables. *)
Definition PassOk (st : Pass) : Prop :=
  map_Forall (λ key _, isLetterKey key = true) (newGood st)
  ∧ set_Forall (λ key, isLetterKey key = true) (newBad st)
  ∧ map_Forall (λ key _, isLetterKey key = true) (passBadPositions st).

(** ** Scores as numbers

    The scores the ranker compares are never NaN and never negative. *)
Definition nonneg (x : spec_float) : Prop :=
  match x with
  | S754_zero false | S754_infinity false | S754_finite false _ _ => True
  | _ => False
  end.

(** The position of a number that is not NaN in the order of [<]: zeros,
    then the finite numbers by exponent and mantissa, then infinity. *)
Definition rank (x : spec_float) : Z * Z * Z :=
  match x with
  | S754_zero _ => (0, 0, 0)%Z
  | S754_finite _ m e => (1, e, Zpos m)%Z
  | S754_infinity _ => (2, 0, 0)%Z
  | S754_nan => (3, 0, 0)%Z
  end.

Definition rankLt (a b : Z * Z * Z) : Prop :=
  (a.1.1 < b.1.1 ∨ (a.1.1 = b.1.1 ∧ (a.1.2 < b.1.2 ∨ (a.1.2 = b.1.2 ∧ a.2 < b.2))))%Z.

(** The callback of the [reduce] in [chooseWord], for the score it uses. *)
Definition keepBest (score : text → spec_float) (best next : text) : text :=
  if fgt (score best) (score next) then best else next.

(** The score [chooseWord] gives a word. *)
Definition poolScore (threadWords : list (list text)) (word : text) : spec_float :=
  scoreWords word (map scoreLetters threadWords) threadWords.

(** The word returned stands at a place of the pool before which every word
    scores strictly lower and after which no word scores higher: the earliest
    of the best words. *)
Definition returnsEarliestBest (threadWords : list (list text)) (guessPool : list text)
    : Prop :=
  ∃ pre best post,
    guessPool = pre ++ best :: post
    ∧ chooseWord threadWords guessPool = Some best
    ∧ (∀ word, word ∈ pre →
         fgt (poolScore threadWords best) (poolScore threadWords word) = true)
    ∧ (∀ word, word ∈ post →
         fgt (poolScore threadWords word) (poolScore threadWords best) = false).

(** The word returned stands at a place of the pool before which no word
    scores higher and after which every word scores strictly lower: the
    latest of the best words. *)
Definition returnsLatestBest (threadWords : list (list text)) (guessPool : list text)
    : Prop :=
  ∃ pre best post,
    guessPool = pre ++ best :: post
    ∧ chooseWord threadWords guessPool = Some best
    ∧ (∀ word, word ∈ pre →
         fgt (poolScore threadWords word) (poolScore threadWords best) = false)
    ∧ (∀ word, word ∈ post →
         fgt (poolScore threadWords best) (poolScore threadWords word) = true).

(** ** The clamp the specification describes

    The per-letter value with the occurrence count clamped to the four slots
    of a row, as the specification words it; [scoreWord] is compared with it
    below. *)
Definition letterValueClamped (letters : LetterScores) (entry : ascii * nat) : spec_float :=
  match letters !! entry.1 with
  | Some row => num (default 0 (row !! (Nat.min entry.2 4 - 1)))
  | None => num 0
  end.

Definition baseScoreClamped (word : text) (letters : LetterScores) : spec_float :=
  foldl fadd (num 0) (map (letterValueClamped letters) (countLetters word)).

(** The count an entry list records for a letter. *)
Definition tallyOf (L : ascii) (counts : list (ascii * nat)) : nat :=
  foldr (λ (e : ascii * nat) acc, if decide (e.1 = L) then e.2 + acc else acc) 0 counts.

(** The first round of the run on the dictionary [dict5] with the solution
    "spine" and the default settings, and the settings and the player of such
    a run. *)
Definition dict5 : list text := [w "crane"; w "slate"; w "shine"; w "spine"; w "swine"].

Definition cfg1 : Config :=
  {| hardMode := false; freeMode := false; randomMode := false;
     threadCount := 1; roundCount := 6 |}.

Definition nobody : Player :=
  {| requestGuess := λ _, []; requestResult := λ _ _, []; randomIndex := λ _, 0 |}.

Definition firstRound : Round :=
  playRound cfg1 dict5 true [w "spine"] nobody 0 [nothingKnown] [dict5].

(** A run on two boards: the first guess, "swine", solves the first board,
    and the second round finds it solved. *)
Definition cfg2 : Config :=
  {| hardMode := false; freeMode := false; randomMode := false;
     threadCount := 2; roundCount := 7 |}.

Definition secondRound : Round :=
  default firstRound ((run cfg2 dict5 nobody [w "swine"; w "crane"]).1 !! 1).

Definition solvedSwine : Known :=
  updateKnown (w "swine") (makeGuess (w "swine") (w "swine")) nothingKnown.

(** ** [updateKnown] on objects

    The objects a constraint state is made of live in a store; a state holds
    the addresses of its [good], [bad] and [badPositions] objects, and
    [badPositions] holds the addresses of its sets.  [updateKnownH] is
    [updateKnown] with every object creation, read and write of the source
    written out.  A new object gets the next free address. *)

Abbreviation addr := nat.

Inductive Obj :=
  | OCounts (entries : gmap text nat)             (* a LetterCount *)
  | OTexts (members : gset text)                  (* a Set<string> *)
  | ONums (members : gset nat)                    (* a Set<number> *)
  | OPositions (entries : gmap text addr)         (* a Record<string, Set<number>> *)
  | OKnown (fixed : text) (good bad badPositions : addr) (guessResult : text)
           (solved : bool).                       (* a Known *)

Abbreviation Heap := (list Obj).

(** A computation on the store; [None] when an address does not hold what
    the types of the source say it holds. *)
Definition M (A : Type) : Type := Heap → option (A * Heap).

#[global] Instance M_ret : MRet M := λ A x h, Some (x, h).

#[global] Instance M_bind : MBind M :=
  λ A B f m h, match m h with
               | Some (x, h') => f x h'
               | None => None
               end.

Definition fail {A} : M A := λ _, None.

Definition alloc (o : Obj) : M addr := λ h, Some (length h, h ++ [o]).

Definition load (a : addr) : M Obj :=
  λ h, match h !! a with
       | Some o => Some (o, h)
       | None => None
       end.

Definition store (a : addr) (o : Obj) : M unit :=
  λ h, if decide (a < length h) then Some (tt, <[a := o]> h) else None.

Definition loadCounts (a : addr) : M (gmap text nat) :=
  o ← load a; match o with OCounts m => mret m | _ => fail end.

Definition loadTexts (a : addr) : M (gset text) :=
  o ← load a; match o with OTexts s => mret s | _ => fail end.

Definition loadNums (a : addr) : M (gset nat) :=
  o ← load a; match o with ONums s => mret s | _ => fail end.

Definition loadPositions (a : addr) : M (gmap text addr) :=
  o ← load a; match o with OPositions m => mret m | _ => fail end.

(** [newGood[nextLetter] = (newGood[nextLetter] ?? 0) + 1] *)
Definition bumpGood (newGood : addr) (nextLetter : text) : M unit :=
  m ← loadCounts newGood;
  store newGood (OCounts (<[nextLetter := default 0 (m !! nextLetter) + 1]> m)).

(** [newBad.add(nextLetter)] *)
Definition addBad (newBad : addr) (nextLetter : text) : M unit :=
  s ← loadTexts newBad;
  store newBad (OTexts ({[nextLetter]} ∪ s)).

(** [{ ...badPositions, [nextLetter]: new Set(badPositions[nextLetter]).add(i) }]:
    a new object with the properties of the old one, a new set with the
    members of the old one (none when there is none), [i] added to the new
    set, and the new set put into the new object. *)
Definition copyWithPosition (badPositions : addr) (nextLetter : text) (i : nat) : M addr :=
  m ← loadPositions badPositions;
  fresh ← alloc (OPositions m);
  old ← match m !! nextLetter with
        | Some set => loadNums set
        | None => mret ∅
        end;
  set ← alloc (ONums old);
  members ← loadNums set;
  store set (ONums ({[i]} ∪ members));;
  copied ← loadPositions fresh;
  store fresh (OPositions (<[nextLetter := set]> copied));;
  mret fresh.

Record PassH := {
  knownFixedH : text;
  newGoodH : addr;
  newBadH : addr;
  guessResultH : text;
  badPositionsH : addr;
}.

Definition noteResultH (guess oldFixed : text) (st : PassH) (entry : nat * LetterResult)
    : M PassH :=
  let i := entry.1 in
  let nextLetter := toText (guess !! i) in
  match entry.2 with
  | PERFECT =>
      bumpGood (newGoodH st) nextLetter;;
      mret {| knownFixedH := knownFixedH st ++ nextLetter;
             newGoodH := newGoodH st; newBadH := newBadH st;
             guessResultH := guessResultH st ++ w "🟩";
             badPositionsH := badPositionsH st |}
  | CLOSE =>
      bumpGood (newGoodH st) nextLetter;;
      badPositions ← copyWithPosition (badPositionsH st) nextLetter i;
      mret {| knownFixedH := knownFixedH st ++ toText (oldFixed !! i);
             newGoodH := newGoodH st; newBadH := newBadH st;
             guessResultH := guessResultH st ++ w "🟨";
             badPositionsH := badPositions |}
  | WRONG =>
      addBad (newBadH st) nextLetter;;
      mret {| knownFixedH := knownFixedH st ++ toText (oldFixed !! i);
             newGoodH := newGoodH st; newBadH := newBadH st;
             guessResultH := guessResultH st ++ w "🟥";
             badPositionsH := badPositionsH st |}
  end.

Fixpoint forEach {A S} (body : S → A → M S) (st : S) (l : list A) : M S :=
  match l with
  | [] => mret st
  | x :: rest => st' ← body st x; forEach body st' rest
  end.

Definition updateKnownH (guess : text) (response : list LetterResult) (known : addr)
    : M addr :=
  o ← load known;
  match o with
  | OKnown oldFixed oldGood oldBad oldBadPositions oldGuessResult _ =>
      newGood ← alloc (OCounts ∅);
      newBad ← alloc (OTexts ∅);
      st ← forEach (noteResultH guess oldFixed)
             {| knownFixedH := []; newGoodH := newGood; newBadH := newBad;
                guessResultH := oldGuessResult; badPositionsH := oldBadPositions |}
             (entries response);
      old ← loadCounts oldGood;
      new ← loadCounts (newGoodH st);
      goodLetters ← alloc (OCounts (mergeGood old new));
      oldBounds ← loadCounts oldBad;
      newBounds ← loadTexts (newBadH st);
      good ← loadCounts goodLetters;
      badLetters ← alloc (OCounts (mergeBad oldBounds newBounds good));
      alloc (OKnown (knownFixedH st) goodLetters badLetters (badPositionsH st)
               (guessResultH st ++ " "%char :: guess ++ ["010"%char])
               (forallb (λ position, bool_decide (position = PERFECT)) response))
  | _ => fail
  end.

(** What the store holds at an address, read as a value. *)
Definition repPositions (h : Heap) (a : addr) (positions : gmap text (gset nat)) : Prop :=
  ∃ m, h !! a = Some (OPositions m)
       ∧ ∀ letter,
           match m !! letter, positions !! letter with
           | Some set, Some members => h !! set = Some (ONums members)
           | None, None => True
           | _, _ => False
           end.

Definition repKnown (h : Heap) (a : addr) (known : Known) : Prop :=
  ∃ g b p,
    h !! a = Some (OKnown (fixed known) g b p (guessResult known) (solved known))
    ∧ h !! g = Some (OCounts (good known))
    ∧ h !! b = Some (OCounts (bad known))
    ∧ repPositions h p (badPositions known).

(** The store that holds [knownEerie] and nothing else. *)
Definition heapEerie : Heap :=
  [OCounts (good knownEerie); OCounts (bad knownEerie); ONums {[2]};
   OPositions {[w "r" := 2]};
   OKnown (fixed knownEerie) 0 1 3 (guessResult knownEerie) (solved knownEerie)].

(** What the loop of [updateKnownH] keeps true, against the store [h0] the
    call started in and the variables of the loop of [updateKnown]: the old
    store is a prefix of the current one, the two objects the loop writes to
    were created by the call, and the variables hold the same values. *)
Definition passRep (h0 h : Heap) (stH : PassH) (st : Pass) : Prop :=
  h0 `prefix_of` h
  ∧ knownFixedH stH = knownFixed st
  ∧ guessResultH stH = passGuessResult st
  ∧ length h0 ≤ newGoodH stH
  ∧ h !! newGoodH stH = Some (OCounts (newGood st))
  ∧ length h0 ≤ newBadH stH
  ∧ h !! newBadH stH = Some (OTexts (newBad st))
  ∧ repPositions h (badPositionsH stH) (passBadPositions st).

(** An object that is neither a [badPositions] object nor one of its sets. *)
Definition isScratch (o : Obj) : Prop :=
  match o with
  | OCounts _ | OTexts _ => True
  | _ => False
  end.

(** ** What an update keeps

    The constraints of [known] are all found again, as strict or stricter,
    after the update: a letter at every position of [fixed] that held one,
    every key of [good] with a count at least as large, and every key of
    [bad] with a bound at least as large. *)
Definition keepsConstraints (known : Known) (guess : text) (response : list LetterResult)
    : Prop :=
  (∀ i c, fixed known !! i = Some c → isLetter c = true →
     ∃ c', fixed (updateKnown guess response known) !! i = Some c' ∧ isLetter c' = true)
  ∧ (∀ key n, good known !! key = Some n →
       ∃ n', good (updateKnown guess response known) !! key = Some n' ∧ n ≤ n')
  ∧ (∀ key b, bad known !! key = Some b →
       ∃ b', bad (updateKnown guess response known) !! key = Some b' ∧ b ≤ b').

(** A state no board reaches: "a" is bounded by 3 with no count of [good]
    behind the bound. *)
Definition strayKnown : Known :=
  {| fixed := w "....."; good := ∅; bad := {[w "a" := 3]}; badPositions := ∅;
     guessResult := []; solved := false |}.

(** ** Boards played against known solutions

    What the board loop keeps true of a board whose results come from
    [makeGuess(guess, solution)]: the state is one of [consistent], the
    solution passes the filter of the state, the candidates are 5-letter
    words, and the solution is among them until the board is solved. *)
Definition boardOk (solution : text) (known : Known) (words : list text) : Prop :=
  consistent known = true
  ∧ keeps known solution = true
  ∧ forallb isWord5 words = true
  ∧ (solved known = false → solution ∈ words).

Definition boardsOk (solutions : list text) (threadKnown : list Known)
    (threadWords : list (list text)) : Prop :=
  length threadKnown = length solutions
  ∧ length threadWords = length solutions
  ∧ ∀ i solution known words,
      solutions !! i = Some solution → threadKnown !! i = Some known →
      threadWords !! i = Some words → boardOk solution known words.

(** Some board is still to be guessed. *)
Definition someUnsolved (threadKnown : list Known) : Prop :=
  ∃ i known, threadKnown !! i = Some known ∧ solved known = false.

(** A round that did not end the process with an error. *)
Definition roundCompleted (round : Round) : Prop :=
  match outcome round with
  | Abort _ => False
  | _ => True
  end.

(** ** Counting words by letter

    The number of words that hold the letter more than [i] times. *)
Definition wordsWith (L : ascii) (i : nat) (words : list text) : nat :=
  length (filter (λ word, i < occurrences L word) words).

(** ** The "Remaining" line of [showKnown]

    [[..."abcdefghijklmnopqrstuvwxyz"].filter((letter) =>
       !(letter in known.good || letter in known.bad))]; a one-letter name is
    in an object when the object has it as a key. *)
Definition alphabet : text := w "abcdefghijklmnopqrstuvwxyz".

Definition remainingLetters (known : Known) : text :=
  filter (λ letter, ¬ (is_Some (good known !! [letter]) ∨ is_Some (bad known !! [letter])))
         alphabet.

(** The line feed, "\n". *)
Definition newline : ascii := "010"%char.

(** ** Test mode: [gameModes[GameModeName.TEST].run]

    [testRounds] is the loop [for (const _ of range(10))] of one game, with
    the number of passes left and the variables [known] and [words];
    [chooseWord] throws on an empty pool, [None] here.  [testScore] is the
    score the game is filed under, and [testMode] the table
    [frequencyOfScores] after the loop over the dictionary, when the run is
    not interrupted. *)
Fixpoint testRounds (hardMode : bool) (allWords : list text) (solution : text)
    (rounds : nat) (known : Known) (words : list text) : option Known :=
  match rounds with
  | 0 => Some known
  | S later =>
      let guessPool := if hardMode then words else allWords in
      match chooseWord [words] guessPool with
      | None => None
      | Some guess =>
          let response := makeGuess guess solution in
          let known := updateKnown guess response known in
          if bool_decide ("."%char ∈ fixed known)
          then testRounds hardMode allWords solution later known (filterWords words known)
          else Some known
      end
  end.

Definition testScore (hardMode : bool) (allWords : list text) (solution : text)
    : option nat :=
  match testRounds hardMode allWords solution 10 nothingKnown allWords with
  | Some known => Some (countOccurrences (guessResult known) [newline] + 1)
  | None => None
  end.

Definition testMode (hardMode : bool) (allWords : list text) : option (gmap nat nat) :=
  foldl (λ (frequencyOfScores : option (gmap nat nat)) solution,
           match frequencyOfScores, testScore hardMode allWords solution with
           | Some frequencies, Some score =>
               Some (<[score := default 0 (frequencies !! score) + 1]> frequencies)
           | _, _ => None
           end)
        (Some ∅) allWords.

(** The [badPositions] field of the state object at an address. *)
Definition badPositionsOf (h : Heap) (a : addr) : option addr :=
  match h !! a with
  | Some (OKnown _ _ _ badPositions _ _) => Some badPositions
  | _ => None
  end.

(** The number of games a table of scores records. *)
Definition totalGames (frequencyOfScores : gmap nat nat) : nat :=
  map_fold (λ _ count total, count + total) 0 frequencyOfScores.

(** ** Candidates left on the boards

    The number of candidates over all boards, and what the board loop keeps
    true besides [boardsOk]: a solved board has no candidates. *)
Definition candidatesLeft (threadWords : list (list text)) : nat :=
  sum_list (map length threadWords).

Definition solvedAreEmpty (threadKnown : list Known) (threadWords : list (list text))
    : Prop :=
  ∀ i known words,
    threadKnown !! i = Some known → threadWords !! i = Some words →
    solved known = true → words = [].

(** The settings of a run in hard mode on one board. *)
Definition cfgHard : Config :=
  {| hardMode := true; freeMode := false; randomMode := false;
     threadCount := 1; roundCount := 6 |}.

(** ** What the user types: [requestResult], [requestGuess]

    Both functions read lines until one is accepted.  [answers] are the
    lines typed, in order; [None] stands for a program still waiting when
    they run out. *)

(** [/^[012]{5}$/.test(response)] *)
Definition isResultLine (response : text) : bool :=
  (length response =? 5) && forallb (λ char, bool_decide (char ∈ w "012")) response.

(** [+char] for a text of one character: the digit, 0 for white space (the
    text is blank), and NaN, [None] here, for the rest. *)
Definition toNumber (char : ascii) : option nat :=
  let code := nat_of_ascii char in
  if (48 <=? code) && (code <=? 57) then Some (code - 48)
  else if bool_decide (code ∈ [9; 10; 11; 12; 13; 32]) then Some 0
  else None.

(** [[LetterResult.WRONG, LetterResult.CLOSE, LetterResult.PERFECT][+char]];
    [None] is [undefined]. *)
Definition resultOfDigit (char : ascii) : option LetterResult :=
  match toNumber char with
  | Some n => [WRONG; CLOSE; PERFECT] !! n
  | None => None
  end.

Fixpoint askResult (answers : list text) : option (list (option LetterResult)) :=
  match answers with
  | [] => None
  | response :: later =>
      if isResultLine response then Some (map resultOfDigit response)
      else askResult later
  end.

(** The digit a result is typed as: "0 = not in word, 1 = wrong position,
    2 = right position". *)
Definition digitOf (letterResult : LetterResult) : ascii :=
  match letterResult with
  | WRONG => "0"%char
  | CLOSE => "1"%char
  | PERFECT => "2"%char
  end.

(** [/^[a-z]{5}$/.test(response)] is [isWord5 response]. *)
Fixpoint askGuess (allWords : list text) (answers : list text) : option text :=
  match answers with
  | [] => None
  | response :: later =>
      if decide (response = []) then Some response
      else if negb (isWord5 response) then askGuess allWords later
      else if bool_decide (response ∉ allWords) then askGuess allWords later
      else Some response
  end.

(** The state after the guess "crane" was answered WRONG five times. *)
Definition knownAllWrong : Known :=
  updateKnown (w "crane") [WRONG; WRONG; WRONG; WRONG; WRONG] nothingKnown.

(** ** Flags of the single-board sources

    [defineFlag] and [defineFlagWithArgument] search the array [args] and
    shorten it; the functions below return what the source returns together
    with the array as the call leaves it. *)

(** [args.indexOf(flag)]; [None] is -1. *)
Definition indexOf (flag : text) (args : list text) : option nat :=
  fst <$> list_find (λ arg, arg = flag) args.

Definition defineFlag (flag : text) (args : list text) : bool * list text :=
  match indexOf flag args with
  | Some position => (true, delete position args)
  | None => (false, args)
  end.

(** What a call of [defineFlagWithArgument] leads to: [printUsage()], which
    leaves the process, or a value ([None] is [undefined]). *)
Inductive FlagArgument :=
  | FlagUsage
  | FlagValue (arg : option text) (args : list text).

Definition defineFlagWithArgument (flag : text) (args : list text) : FlagArgument :=
  match indexOf flag args with
  | Some position =>
      if decide (position = length args - 1) then FlagUsage
      else FlagValue (args !! (position + 1)) (take position args ++ drop (position + 2) args)
  | None =>
      match list_find (λ arg, (flag ++ ["="%char]) `prefix_of` arg) args with
      | Some (position, arg) =>
          FlagValue (Some (drop (length flag + 1) arg)) (delete position args)
      | None => FlagValue None args
      end
  end.

(** ** Score mode: [gameModes[GameModeName.SCORE].run]

    The state handed to [printKnown]: [updateKnown] is called without a
    state and takes [nothingKnown()]. *)
Definition scoreMode (scoreGuess solution : text) : Known :=
  updateKnown scoreGuess (makeGuess scoreGuess solution) nothingKnown.

(** The settings of a run on one board with a solution drawn at random. *)
Definition cfgRandom : Config :=
  {| hardMode := false; freeMode := false; randomMode := true;
     threadCount := 1; roundCount := 6 |}.

(** * Properties *)

(** ** The model on examples *)

Example makeGuess_speed_erase :
  makeGuess (w "speed") (w "erase") = [CLOSE; WRONG; CLOSE; CLOSE; WRONG].
Proof. vm_compute. reflexivity. Qed.

Example makeGuess_geese_elate :
  makeGuess (w "geese") (w "elate") = [WRONG; CLOSE; WRONG; WRONG; PERFECT].
Proof. vm_compute. reflexivity. Qed.

Example scoreLetters_small :
  scoreLetters [w "aaaaa"; w "bbbbb"; w "ccccc"] !! "a"%char = Some [1; 1; 1; 1].
Proof. vm_compute. reflexivity. Qed.

Example scoreWord_aaaaa :
  let ws := [w "aaaaa"; w "bbbbb"; w "ccccc"] in
  scoreWord (w "aaaaa") (scoreLetters ws) ws = num 1.
Proof. vm_compute. reflexivity. Qed.

Example float_3 :
  fmul (num 3) f1_1 = S754_finite false 7430939385161319 (-51)
  /\ valid_binary prec emax f1_1 = true
  /\ fadd (fmul (num 10) f1_1) (num 1) = num 12.
Proof. vm_compute. auto. Qed.

Example updateKnown_speed :
  let k := updateKnown (w "speed") (makeGuess (w "speed") (w "erase")) nothingKnown in
  fixed k = w "....." /\ good k !! w "e" = Some 2 /\ bad k !! w "p" = Some 1
  /\ bad k !! w "d" = Some 1 /\ badPositions k !! w "e" = Some {[2; 3]} /\ solved k = false
  /\ filterWords [w "erase"; w "crane"; w "eerie"; w "geese"] k = [w "erase"].
Proof. vm_compute. repeat split; reflexivity. Qed.

Example run_spine :
  (run cfg1 dict5 nobody [w "spine"]).2 = Score
  /\ map guessMade (run cfg1 dict5 nobody [w "spine"]).1 = [Some (w "swine"); Some (w "spine")].
Proof. vm_compute. auto. Qed.


(** Two boards with the solutions "crane" and "slate" and a budget of six
    rounds: the same guess goes to both boards each round, and the run ends
    with both solved. *)
Example run_crane_slate :
  let cfg := {| hardMode := false; freeMode := false; randomMode := false;
                threadCount := 2; roundCount := 6 |} in
  (run cfg dict5 nobody [w "crane"; w "slate"]).2 = Score
  ∧ map guessMade (run cfg dict5 nobody [w "crane"; w "slate"]).1
    = [Some (w "swine"); Some (w "slate"); Some (w "crane")].
Proof. vm_compute. auto. Qed.

(** ** Feedback evaluator *)

Section MakeGuess.
Variables guess solution : text.

Lemma firstPass_lettersAt (idxs : list nat) (occ : gmap okey nat) :
  foldl (countUnclaimed guess solution) occ idxs
  = tallyUnclaimed occ (zip (lettersAt guess idxs) (lettersAt solution idxs)).
Proof.
  revert occ. induction idxs as [|i idxs IH]; intros occ; [reflexivity|].
  simpl. rewrite IH. reflexivity.
Qed.

Lemma secondPass_lettersAt (idxs : list nat) (occ : gmap okey nat) :
  secondPass guess solution occ idxs
  = classify occ (lettersAt guess idxs) (lettersAt solution idxs).
Proof.
  revert occ. induction idxs as [|i idxs IH]; intros occ; [reflexivity|].
  simpl. case_decide; [by rewrite IH|].
  destruct (occ !! (guess !! i)) as [[|n]|]; by rewrite IH.
Qed.
End MakeGuess.

Lemma tallyUnclaimed_lookup (k : okey) (pairs : list (okey * okey)) (occ : gmap okey nat) :
  default 0 (tallyUnclaimed occ pairs !! k)
  = default 0 (occ !! k)
    + length (filter (λ gs : okey * okey, gs.2 = k ∧ gs.1 ≠ k) pairs).
Proof.
  revert occ. induction pairs as [|[g s] pairs IH]; intros occ; simpl.
  - lia.
  - unfold tallyUnclaimed in *. simpl. rewrite IH. rewrite filter_cons. simpl.
    destruct (decide (g ≠ s)) as [Hne|Heq];
      destruct (decide (s = k ∧ g ≠ k)) as [[-> Hk]|Hn]; simpl.
    + rewrite lookup_insert_eq. simpl. lia.
    + rewrite lookup_insert_ne; [lia|]. intros ->. apply Hn. split; [done|]. by intros ->.
    + apply dec_stable in Heq. by subst.
    + reflexivity.
Qed.

Lemma classify_length (gs ss : list okey) (occ : gmap okey nat) :
  length (classify occ gs ss) = Nat.min (length gs) (length ss).
Proof.
  revert ss occ. induction gs as [|g gs IH]; intros [|s ss] occ; simpl; try done.
  case_decide; [by simpl; rewrite IH|].
  destruct (occ !! g) as [[|n]|]; by simpl; rewrite IH.
Qed.

(** The positions credited for a key are paid for by its counter or are
    PERFECT. *)
Lemma classify_credit (k : okey) (gs ss : list okey) (occ : gmap okey nat) :
  length (filter (λ gr : okey * LetterResult, gr.1 = k ∧ gr.2 ≠ WRONG)
            (zip gs (classify occ gs ss)))
  ≤ default 0 (occ !! k)
    + length (filter (λ gs : okey * okey, gs.1 = k ∧ gs.2 = k) (zip gs ss)).
Proof.
  revert ss occ. induction gs as [|g gs IH]; intros [|s ss] occ; simpl; try lia.
  case_decide as Hgs.
  - subst s. simpl. rewrite !filter_cons. simpl. specialize (IH ss occ).
    repeat case_decide; simpl in *; try lia; exfalso; intuition congruence.
  - rewrite (filter_cons _ (g, s)). simpl.
    rewrite decide_False by (simpl; intuition congruence).
    destruct (occ !! g) as [[|n]|] eqn:Hg; simpl; rewrite filter_cons; simpl.
    + rewrite decide_False by (simpl; intuition congruence). apply IH.
    + specialize (IH ss (<[g:=n]> occ)).
      case_decide as Hk.
      * destruct Hk as [-> _]. rewrite lookup_insert_eq in IH. rewrite Hg. simpl in *. lia.
      * rewrite lookup_insert_ne in IH by (simpl; intuition congruence). apply IH.
    + rewrite decide_False by (simpl; intuition congruence). apply IH.
Qed.

(** A key whose counter is absent or 0 is never answered CLOSE. *)
Lemma classify_spent (k : okey) (gs ss : list okey) (occ : gmap okey nat) (j : nat) :
  default 0 (occ !! k) = 0 →
  gs !! j = Some k →
  classify occ gs ss !! j ≠ Some CLOSE.
Proof.
  revert ss occ j. induction gs as [|g gs IH]; intros [|s ss] occ j Hk Hj; simpl; try done.
  destruct j as [|j]; simpl in *.
  - simplify_eq. case_decide; [done|].
    destruct (occ !! k) as [[|n]|]; simpl in *; done.
  - case_decide; [by apply IH|].
    destruct (occ !! g) as [[|n]|] eqn:Hg; simpl; try by apply IH.
    apply IH; [|done].
    destruct (decide (g = k)) as [->|]; [by rewrite Hg in Hk|].
    by rewrite lookup_insert_ne.
Qed.

Lemma classify_leftmost (k : okey) (gs ss : list okey) (occ : gmap okey nat) (i j : nat) :
  i < j →
  gs !! i = Some k → gs !! j = Some k →
  classify occ gs ss !! i ≠ Some PERFECT →
  classify occ gs ss !! j = Some CLOSE →
  classify occ gs ss !! i = Some CLOSE.
Proof.
  revert ss occ i j. induction gs as [|g gs IH]; intros [|s ss] occ i j Hij Hi Hj; simpl; try done.
  destruct j as [|j]; [lia|]. destruct i as [|i]; simpl in *.
  - simplify_eq. case_decide; [done|].
    destruct (occ !! k) as [[|n]|] eqn:Hk; simpl; try done.
    + intros _ HC. exfalso. eapply classify_spent; [| exact Hj | exact HC]. by rewrite Hk.
    + intros _ HC. exfalso. eapply classify_spent; [| exact Hj | exact HC]. by rewrite Hk.
  - case_decide; [apply IH with (j := j); (lia || done)|].
    destruct (occ !! g) as [[|n]|]; simpl; apply IH with (j := j); (lia || done).
Qed.

Lemma lettersAt_range5 (s : text) :
  length s = 5 → lettersAt s (range 5) = map Some s.
Proof.
  intros Hlen. do 5 (destruct s as [|? s]; [done|]). destruct s; [reflexivity|done].
Qed.

Lemma filter_zip_snd_le {A B} (P : B → Prop) `{!∀ b, Decision (P b)} (xs : list A) (ys : list B) :
  length (filter (λ xy : A * B, P xy.2) (zip xs ys)) ≤ length (filter P ys).
Proof.
  revert ys. induction xs as [|x xs IH]; intros [|y ys]; simpl; try lia.
  rewrite !filter_cons. simpl. specialize (IH ys). case_decide; simpl; lia.
Qed.

Lemma filter_split_length {A} (P Q R : A → Prop)
    `{!∀ a, Decision (P a)} `{!∀ a, Decision (Q a)} `{!∀ a, Decision (R a)} (l : list A) :
  (∀ a, P a → ¬ Q a) → (∀ a, P a → R a) → (∀ a, Q a → R a) →
  length (filter P l) + length (filter Q l) ≤ length (filter R l).
Proof.
  intros HPQ HPR HQR. induction l as [|a l IH]; [done|].
  rewrite !filter_cons. repeat case_decide; simpl; (lia || naive_solver).
Qed.

Lemma credited_lettersAt (L : ascii) (guess : text) (result : list LetterResult) :
  credited L guess result
  = length (filter (λ gr : okey * LetterResult, gr.1 = Some L ∧ gr.2 ≠ WRONG)
              (zip (map Some guess) result)).
Proof.
  unfold credited. revert result.
  induction guess as [|g guess IH]; intros [|r result]; simpl; try done.
  rewrite !filter_cons. simpl. specialize (IH result).
  case_decide as Hl; case_decide as Hr; simpl in *.
  - by rewrite IH.
  - exfalso. destruct Hl as [-> ?]. by apply Hr.
  - exfalso. destruct Hr as [[= ->] ?]. by apply Hl.
  - exact IH.
Qed.

Lemma occurrences_lettersAt (L : ascii) (s : text) :
  length (filter (λ k : okey, k = Some L) (map Some s)) = occurrences L s.
Proof.
  unfold occurrences. induction s as [|c s IH]; [done|].
  simpl. rewrite !filter_cons. repeat case_decide; simpl; naive_solver.
Qed.

(** C2.  For 5-letter [guess] and [solution] and every letter [L],
    [makeGuess] returns 5 results; the positions of the guess that hold [L]
    and are answered PERFECT or CLOSE are at most as many as the occurrences
    of [L] in the solution; and of two positions holding the same letter, when
    the right one is answered CLOSE the left one, unless PERFECT, is answered
    CLOSE too. *)
Theorem makeGuess_duplicate_safe (guess solution : text) (L : ascii) :
  length guess = 5 → length solution = 5 →
  length (makeGuess guess solution) = 5
  ∧ credited L guess (makeGuess guess solution) ≤ occurrences L solution
  ∧ ∀ i j, i < j →
      guess !! i = Some L → guess !! j = Some L →
      makeGuess guess solution !! i ≠ Some PERFECT →
      makeGuess guess solution !! j = Some CLOSE →
      makeGuess guess solution !! i = Some CLOSE.
Proof.
  intros Hg Hs. unfold makeGuess, firstPass.
  rewrite secondPass_lettersAt, firstPass_lettersAt, !lettersAt_range5 by done.
  split; [|split].
  - rewrite classify_length, !length_map. lia.
  - rewrite credited_lettersAt.
    etrans; [apply classify_credit|].
    rewrite tallyUnclaimed_lookup, lookup_empty. simpl.
    rewrite <- occurrences_lettersAt.
    etrans; [|apply (filter_zip_snd_le (λ k : okey, k = Some L) (map Some guess))].
    apply (filter_split_length
             (λ gs : okey * okey, gs.2 = Some L ∧ gs.1 ≠ Some L)
             (λ gs : okey * okey, gs.1 = Some L ∧ gs.2 = Some L)
             (λ gs : okey * okey, gs.2 = Some L)); simpl; intuition congruence.
  - intros i j Hij Hi Hj. apply classify_leftmost with (k := Some L); [done| |].
    + by rewrite list_lookup_fmap, Hi.
    + by rewrite list_lookup_fmap, Hj.
Qed.

(** The guess "geese" against "elate", for the letter "e". *)
Lemma makeGuess_duplicate_safe_witness :
  length (makeGuess (w "geese") (w "elate")) = 5
  ∧ credited "e" (w "geese") (makeGuess (w "geese") (w "elate")) ≤ occurrences "e" (w "elate")
  ∧ ∀ i j, i < j →
      w "geese" !! i = Some "e"%char → w "geese" !! j = Some "e"%char →
      makeGuess (w "geese") (w "elate") !! i ≠ Some PERFECT →
      makeGuess (w "geese") (w "elate") !! j = Some CLOSE →
      makeGuess (w "geese") (w "elate") !! i = Some CLOSE.
Proof. apply (makeGuess_duplicate_safe (w "geese") (w "elate") "e"); reflexivity. Defined.

(** ** Candidate filter *)

Lemma isLetter_plain (c : ascii) :
  isLetter c = true → c ≠ "."%char ∧ isLineTerminator c = false.
Proof. destruct c as [[] [] [] [] [] [] [] []]; done. Qed.

Lemma atomMatches_letter (L c : ascii) :
  isLetter L = true → atomMatches L c = bool_decide (L = c).
Proof.
  intros [HL _]%isLetter_plain. unfold atomMatches. by rewrite decide_False.
Qed.

Lemma atomMatches_dot (c : ascii) :
  isLetter c = true → atomMatches "." c = true.
Proof.
  intros [_ Hc]%isLetter_plain. unfold atomMatches. simpl. by rewrite Hc.
Qed.

Lemma countOccurrences_letter (L : ascii) (s : text) :
  isLetter L = true → countOccurrences s [L] = occurrences L s.
Proof.
  intros HL. unfold countOccurrences, occurrences.
  induction s as [|c s IH]; [done|].
  simpl. rewrite atomMatches_letter by done. rewrite filter_cons.
  case_bool_decide; subst; simpl.
  - rewrite decide_True by done. simpl. by rewrite IH.
  - rewrite decide_False by done. done.
Qed.

Lemma matchesPrefix_short (pattern str : text) :
  length str < length pattern → matchesPrefix pattern str = false.
Proof.
  revert str. induction pattern as [|p pattern IH]; intros [|c str] Hlen; simpl in *;
    try lia; try done.
  rewrite IH by lia. apply andb_false_r.
Qed.

Lemma regexTest_short (pattern str : text) :
  length str < length pattern → regexTest pattern str = false.
Proof.
  induction str as [|c str IH]; intros Hlen; simpl.
  - rewrite matchesPrefix_short by done. done.
  - rewrite matchesPrefix_short by done. simpl in *. apply IH. lia.
Qed.

(** On a subject as long as the pattern the search can only match at the
    start. *)
Lemma regexTest_same_length (pattern str : text) :
  length pattern = length str → regexTest pattern str = matchesPrefix pattern str.
Proof.
  intros Hlen. destruct str as [|c str]; simpl.
  - apply orb_false_r.
  - rewrite regexTest_short; [apply orb_false_r|]. simpl in Hlen. lia.
Qed.

Lemma matchesPrefix_positional (pattern word : text) :
  length pattern = length word →
  forallb (λ c, isLetter c || bool_decide (c = "."%char)) pattern = true →
  forallb isLetter word = true →
  matchesPrefix pattern word = true ↔ matchesFixed pattern word.
Proof.
  unfold matchesFixed. revert word.
  induction pattern as [|p pattern IH]; intros [|c word] Hlen Hp Hw; simpl in *; try done.
  apply andb_prop in Hp as [Hp Hps]. apply andb_prop in Hw as [Hc Hcs].
  rewrite andb_true_iff, IH by (done || lia). split.
  - intros [Hpc Hrest] [|i] d Hd; simpl in *; [|by apply Hrest].
    simplify_eq. destruct (decide (d = "."%char)) as [|Hne]; [by left|right].
    unfold atomMatches in Hpc. rewrite decide_False in Hpc by done.
    by apply bool_decide_eq_true in Hpc as ->.
  - intros Hall. split; [|intros i d Hd; by apply (Hall (S i))].
    destruct (Hall 0 p eq_refl) as [->|Heq]; [by apply atomMatches_dot|].
    simpl in Heq. simplify_eq. rewrite atomMatches_letter by done.
    by apply bool_decide_eq_true.
Qed.

Lemma letterKeys_lookup {V} (m : gmap text V) (key : text) (v : V) :
  letterKeys m = true → m !! key = Some v → ∃ L, key = [L] ∧ isLetter L = true.
Proof.
  unfold letterKeys. intros Hm%bool_decide_eq_true Hk.
  specialize (Hm key v Hk). simpl in Hm.
  destruct key as [|L [|? ?]]; try done. by exists L.
Qed.

Lemma charAt_ne (word : text) (position : nat) (L : ascii) :
  charAt word position ≠ Some [L] ↔ word !! position ≠ Some L.
Proof.
  unfold charAt. destruct (word !! position); simpl; naive_solver.
Qed.

(** C3.  With a well-formed constraint state, a 5-letter word is in the
    filtered list iff it is in the list, agrees with [fixed] at every
    position that is not a wildcard, has at least [good[L]] and fewer than
    [bad[L]] occurrences of each letter [L] recorded there, and does not hold
    [L] at any position of [badPositions[L]].  In particular a bound
    [bad[L] = 2] rejects a word with two [L], and a word with a single [L]
    survives whenever it meets the other conditions. *)
Theorem filterWords_survives (words : list text) (known : Known) (word : text) :
  wellFormed known = true → isWord5 word = true →
  (word ∈ filterWords words known ↔
     word ∈ words
     ∧ matchesFixed (fixed known) word
     ∧ (∀ L n, good known !! [L] = Some n → n ≤ occurrences L word)
     ∧ (∀ L n, bad known !! [L] = Some n → occurrences L word < n)
     ∧ (∀ L positions position,
          badPositions known !! [L] = Some positions → position ∈ positions →
          word !! position ≠ Some L))
  ∧ (∀ L, bad known !! [L] = Some 2 → occurrences L word = 2 →
       word ∉ filterWords words known)
  ∧ (∀ L, bad known !! [L] = Some 2 → occurrences L word = 1 →
       (word ∈ filterWords words known ↔
          word ∈ words
          ∧ matchesFixed (fixed known) word
          ∧ (∀ L' n, good known !! [L'] = Some n → n ≤ occurrences L' word)
          ∧ (∀ L' n, L' ≠ L → bad known !! [L'] = Some n → occurrences L' word < n)
          ∧ (∀ L' positions position,
               badPositions known !! [L'] = Some positions → position ∈ positions →
               word !! position ≠ Some L'))).
Proof.
  intros Hwf Hword. unfold wellFormed, isPattern5, isWord5 in *.
  repeat (apply andb_prop in Hwf as [Hwf ?]). apply andb_prop in Hword as [Hlen Hletters].
  apply Nat.eqb_eq in Hwf, Hlen.
  assert (Hiff : word ∈ filterWords words known ↔
     word ∈ words
     ∧ matchesFixed (fixed known) word
     ∧ (∀ L n, good known !! [L] = Some n → n ≤ occurrences L word)
     ∧ (∀ L n, bad known !! [L] = Some n → occurrences L word < n)
     ∧ (∀ L positions position,
          badPositions known !! [L] = Some positions → position ∈ positions →
          word !! position ≠ Some L)).
  { unfold filterWords, keeps. rewrite list_elem_of_filter.
    rewrite !andb_True, !bool_decide_spec, Is_true_true.
    rewrite regexTest_same_length, matchesPrefix_positional by (done || lia).
    split.
    - intros [[[[Hfix Hgood] Hbad] Hpos] Hin]. repeat split; try done.
      + intros L n HL. destruct (letterKeys_lookup _ _ _ H1 HL) as (L' & ? & HL'); simplify_eq.
        rewrite <- (countOccurrences_letter L') by done. by apply (Hgood _ _ HL).
      + intros L n HL. destruct (letterKeys_lookup _ _ _ H0 HL) as (L' & ? & HL'); simplify_eq.
        rewrite <- (countOccurrences_letter L') by done. by apply (Hbad _ _ HL).
      + intros L positions position HL Hp. apply charAt_ne. by apply (Hpos _ _ HL).
    - intros (Hin & Hfix & Hgood & Hbad & Hpos). repeat split; try done.
      + intros key n Hk. destruct (letterKeys_lookup _ _ _ H1 Hk) as (L & -> & HL).
        simpl. rewrite countOccurrences_letter by done. by apply Hgood.
      + intros key n Hk. destruct (letterKeys_lookup _ _ _ H0 Hk) as (L & -> & HL).
        simpl. rewrite countOccurrences_letter by done. by apply Hbad.
      + intros key positions Hk position Hp.
        destruct (letterKeys_lookup _ _ _ H Hk) as (L & -> & HL).
        apply charAt_ne. by eapply Hpos. }
  split; [exact Hiff|split].
  - intros L HL Hocc [_ (_ & _ & Hbad & _)]%Hiff. specialize (Hbad L 2 HL). lia.
  - intros L HL Hocc. rewrite Hiff. split.
    + intros (Hin & Hfix & Hgood & Hbad & Hpos). split_and!; try done.
      intros L' n _. apply Hbad.
    + intros (Hin & Hfix & Hgood & Hbad & Hpos). split_and!; try done.
      intros L' n HL'. destruct (decide (L' = L)) as [->|Hne]; [|by apply Hbad].
      rewrite HL in HL'. injection HL' as <-. lia.
Qed.

(** The word "crane" against the state [knownEerie]. *)
Lemma filterWords_survives_witness :
  wellFormed knownEerie = true ∧ isWord5 (w "crane") = true
  ∧ (w "crane" ∈ filterWords [w "crane"; w "erase"; w "grape"] knownEerie ↔
       w "crane" ∈ [w "crane"; w "erase"; w "grape"]
       ∧ matchesFixed (fixed knownEerie) (w "crane")
       ∧ (∀ L n, good knownEerie !! [L] = Some n → n ≤ occurrences L (w "crane"))
       ∧ (∀ L n, bad knownEerie !! [L] = Some n → occurrences L (w "crane") < n)
       ∧ (∀ L positions position,
            badPositions knownEerie !! [L] = Some positions → position ∈ positions →
            w "crane" !! position ≠ Some L)).
Proof.
  split; [reflexivity|split; [reflexivity|]].
  apply (filterWords_survives [w "crane"; w "erase"; w "grape"] knownEerie (w "crane"));
    reflexivity.
Defined.

Example knownEerie_bound :
  fixed knownEerie = w "....e" ∧ bad knownEerie !! w "e" = Some 2
  ∧ good knownEerie !! w "e" = Some 1
  ∧ filterWords [w "crane"; w "erase"; w "grape"; w "geese"] knownEerie
    = [w "crane"; w "grape"].
Proof. vm_compute. auto. Qed.

(** C6.  Filtering twice with the same constraint state gives what filtering
    once gives, and the result lists words of the input in the input's
    order. *)
Theorem filterWords_idempotent (words : list text) (known : Known) :
  filterWords (filterWords words known) known = filterWords words known
  ∧ filterWords words known `sublist_of` words.
Proof.
  unfold filterWords. split; [|apply sublist_filter].
  rewrite list_filter_filter. apply list_filter_iff. tauto.
Qed.

(** ** Constraint tracker *)

Lemma updateKnown_fixed (guess : text) (response : list LetterResult) (known : Known) :
  length guess = 5 → length response = 5 → length (fixed known) = 5 →
  fixed (updateKnown guess response known) = nextFixed guess (fixed known) response.
Proof.
  intros Hg Hr Hf. unfold updateKnown. simpl. destruct (fixed known) as [|f0 old]; [done|].
  do 4 (destruct old as [|? old]; [done|]). destruct old; [|done].
  do 5 (destruct guess as [|? guess]; [done|]). destruct guess; [|done].
  do 5 (destruct response as [|[] response]; [done| | |]).
  all: destruct response; [reflexivity|done].
Qed.

Lemma isWord5_lookup (word : text) (i : nat) :
  isWord5 word = true → i < 5 → ∃ c, word !! i = Some c ∧ isLetter c = true.
Proof.
  unfold isWord5. intros [Hlen Hall]%andb_prop Hi. apply Nat.eqb_eq in Hlen.
  destruct (lookup_lt_is_Some_2 word i) as [c Hc]; [lia|]. exists c. split; [done|].
  rewrite forallb_forall in Hall. apply Hall. apply list_elem_of_In.
  by eapply list_elem_of_lookup_2.
Qed.

Lemma entries_index {A} (l : list A) (e : nat * A) :
  e ∈ entries l → e.1 < length l.
Proof.
  unfold entries. intros [i He]%list_elem_of_lookup_1.
  apply lookup_zip_with_Some in He as (j & a & -> & Hj & _). simpl.
  apply lookup_seq in Hj. lia.
Qed.

Lemma noteResult_ok (guess oldFixed : text) (st : Pass) (e : nat * LetterResult) :
  (∃ c, guess !! e.1 = Some c ∧ isLetter c = true) →
  PassOk st → PassOk (noteResult guess oldFixed st e).
Proof.
  intros (c & Hc & Hletter) (Hgood & Hbad & Hpos). unfold noteResult, PassOk.
  rewrite Hc. simpl. destruct e.2; simpl; repeat split; try done.
  - by apply map_Forall_insert_2.
  - by apply map_Forall_insert_2.
  - by apply map_Forall_insert_2.
  - apply set_Forall_union; [|done]. by apply set_Forall_singleton.
Qed.

Lemma foldl_noteResult_ok (guess oldFixed : text) (es : list (nat * LetterResult)) (st : Pass) :
  (∀ e, e ∈ es → ∃ c, guess !! e.1 = Some c ∧ isLetter c = true) →
  PassOk st → PassOk (foldl (noteResult guess oldFixed) st es).
Proof.
  revert st. induction es as [|e es IH]; intros st Hes Hst; [done|].
  simpl. apply IH.
  - intros e' He'. apply Hes. by right.
  - apply noteResult_ok; [|done]. apply Hes. by left.
Qed.

Lemma mergeGood_lookup (oldGood newGood : gmap text nat) (key : text) :
  mergeGood oldGood newGood !! key
  = match oldGood !! key, newGood !! key with
    | None, None => None
    | o, n => Some (Nat.max (default 0 o) (default 0 n))
    end.
Proof.
  unfold mergeGood. rewrite lookup_merge.
  by destruct (oldGood !! key), (newGood !! key).
Qed.

Lemma mergeGood_grows (oldGood newGood : gmap text nat) (key : text) :
  default 0 (oldGood !! key) ≤ default 0 (mergeGood oldGood newGood !! key).
Proof.
  rewrite mergeGood_lookup.
  destruct (oldGood !! key), (newGood !! key); simpl; lia.
Qed.

Lemma mergeBad_lookup (oldBad : gmap text nat) (newBad : gset text)
    (goodLetters : gmap text nat) (key : text) :
  mergeBad oldBad newBad goodLetters !! key
  = if decide (key ∈ newBad) then Some (default 0 (goodLetters !! key) + 1)
    else oldBad !! key.
Proof.
  unfold mergeBad.
  assert (Hinj : ∀ y y' : text, y ∈ newBad → y' ∈ newBad →
            (y, default 0 (goodLetters !! y) + 1).1 = (y', default 0 (goodLetters !! y') + 1).1 →
            y = y') by (intros ?? _ _ ?; done).
  case_decide as Hin.
  - apply lookup_union_Some_l. apply lookup_set_to_map; [done|]. by exists key.
  - rewrite lookup_union_r; [done|].
    apply eq_None_not_Some. intros [x Hx].
    apply lookup_set_to_map in Hx as (y & Hy & ?); [|done]. by simplify_eq.
Qed.

Lemma consistent_inv (known : Known) :
  consistent known = true →
  length (fixed known) = 5
  ∧ forallb (λ c, isLetter c || bool_decide (c = "."%char)) (fixed known) = true
  ∧ map_Forall (λ key _, isLetterKey key = true) (good known)
  ∧ map_Forall (λ key _, isLetterKey key = true) (bad known)
  ∧ map_Forall (λ key _, isLetterKey key = true) (badPositions known)
  ∧ map_Forall (λ key bound, bound ≤ default 0 (good known !! key) + 1) (bad known).
Proof.
  unfold consistent, wellFormed, boundsOk, letterKeys, isPattern5.
  rewrite !andb_true_iff, !bool_decide_eq_true, Nat.eqb_eq. tauto.
Qed.

(** Every state a board can be in is well formed and has consistent
    bounds. *)
Lemma updateKnown_consistent (guess : text) (response : list LetterResult) (known : Known) :
  consistent known = true → isWord5 guess = true → length response = 5 →
  consistent (updateKnown guess response known) = true.
Proof.
  intros (Hflen & Hfall & Hkgood & Hkbad & Hkpos & Hbound)%consistent_inv Hguess Hresp.
  pose proof Hguess as Hguess'. unfold isWord5 in Hguess'.
  apply andb_prop in Hguess' as [Hlen Hletters]. apply Nat.eqb_eq in Hlen.
  assert (Hpass : PassOk (foldl (noteResult guess (fixed known))
              {| knownFixed := []; newGood := ∅; newBad := ∅;
                 passGuessResult := guessResult known;
                 passBadPositions := badPositions known |}
              (entries response))).
  { apply foldl_noteResult_ok.
    - intros e He%entries_index. apply isWord5_lookup; [done|lia].
    - repeat split; simpl; [apply map_Forall_empty|apply set_Forall_empty|done]. }
  destruct Hpass as (Hgood & Hbad & Hpos).
  unfold consistent, wellFormed, boundsOk, letterKeys, isPattern5.
  rewrite !andb_true_iff, !bool_decide_eq_true, Nat.eqb_eq.
  rewrite updateKnown_fixed by done. unfold nextFixed. split_and!.
  - rewrite length_zip_with, length_zip. lia.
  - apply forallb_forall. intros c [i Hc]%list_elem_of_In%list_elem_of_lookup_1.
    apply lookup_zip_with_Some in Hc as (r & [g f] & -> & Hr & Hgf).
    apply lookup_zip_with_Some in Hgf as (? & ? & ? & Hg & Hf). simplify_eq. simpl.
    rewrite forallb_forall in Hfall, Hletters. case_decide.
    + rewrite Hletters; [done|]. apply list_elem_of_In. by eapply list_elem_of_lookup_2.
    + apply Hfall. apply list_elem_of_In. by eapply list_elem_of_lookup_2.
  - intros key n. simpl. rewrite mergeGood_lookup.
    destruct (good known !! key) as [o|] eqn:Ho; [intros _; by eapply Hkgood|].
    destruct (newGood _ !! key) as [m|] eqn:Hm; [intros _; by eapply Hgood|done].
  - intros key n. simpl. rewrite mergeBad_lookup. case_decide as Hin.
    + intros _. by apply Hbad.
    + intros Hb. by eapply Hkbad.
  - done.
  - intros key b. simpl. rewrite mergeBad_lookup. case_decide as Hin.
    + intros [= <-]. lia.
    + intros Hb. etrans; [by eapply Hbound|].
      pose proof (mergeGood_grows (good known)
        (newGood (foldl (noteResult guess (fixed known))
              {| knownFixed := []; newGood := ∅; newBad := ∅;
                 passGuessResult := guessResult known;
                 passBadPositions := badPositions known |}
              (entries response))) key). lia.
Qed.

Lemma reachable_consistent (known : Known) :
  reachable known → consistent known = true.
Proof.
  induction 1 as [|guess response known _ IH Hguess Hresp]; [reflexivity|].
  by apply updateKnown_consistent.
Qed.

(** The states of a board have a [fixed] of five characters and bounds of
    [bad] that are at most one more than the count of [good]. *)
Lemma reachable_bounds (known : Known) :
  reachable known → length (fixed known) = 5 ∧ boundsOk known = true.
Proof.
  intros Hcons%reachable_consistent.
  pose proof (consistent_inv _ Hcons) as (Hlen & _).
  unfold consistent in Hcons. by apply andb_prop in Hcons as [_ ?].
Qed.

(** C4.  Updating a constraint state whose [fixed] has five characters and
    whose bounds of [bad] are at most one more than the count of [good] for
    the same letter (the states of a board are such states) with a 5-letter
    guess and its 5 results keeps a letter at every position of [fixed] that
    held one, keeps every key of [good] with a count at least as large, and
    keeps every key of [bad] with a bound at least as large. *)
Theorem updateKnown_monotone (guess : text) (response : list LetterResult) (known : Known) :
  length (fixed known) = 5 → boundsOk known = true →
  isWord5 guess = true → length response = 5 →
  keepsConstraints known guess response.
Proof.
  intros Hflen Hbounds Hguess Hresp.
  unfold boundsOk in Hbounds. apply bool_decide_eq_true in Hbounds.
  pose proof Hguess as Hguess'. unfold isWord5 in Hguess'.
  apply andb_prop in Hguess' as [Hlen Hletters]. apply Nat.eqb_eq in Hlen.
  split; [|split].
  - intros i c Hc Hletter. rewrite updateKnown_fixed by done. unfold nextFixed.
    assert (Hi : i < 5) by (apply lookup_lt_Some in Hc; lia).
    destruct (isWord5_lookup guess i Hguess Hi) as (g & Hg & Hgl).
    destruct (lookup_lt_is_Some_2 response i) as [r Hr]; [lia|].
    exists (if decide (r = PERFECT) then g else c). split; [|by case_decide].
    apply lookup_zip_with_Some. exists r, (g, c). split; [done|split; [done|]].
    apply lookup_zip_with_Some. by exists g, c.
  - intros key n Hn. simpl. rewrite mergeGood_lookup, Hn.
    destruct (newGood _ !! key) as [m|]; eexists; (split; [done|]); simpl; lia.
  - intros key b Hb. simpl. rewrite mergeBad_lookup. case_decide as Hin.
    + eexists. split; [done|]. etrans; [by eapply Hbounds|].
      pose proof (mergeGood_grows (good known)
        (newGood (foldl (noteResult guess (fixed known))
              {| knownFixed := []; newGood := ∅; newBad := ∅;
                 passGuessResult := guessResult known;
                 passBadPositions := badPositions known |}
              (entries response))) key). lia.
    + by exists b.
Qed.

(** [knownEerie] updated with the guess "grape". *)
Lemma updateKnown_monotone_witness :
  length (fixed knownEerie) = 5 ∧ boundsOk knownEerie = true
  ∧ isWord5 (w "grape") = true
  ∧ length (makeGuess (w "grape") (w "crane")) = 5
  ∧ keepsConstraints knownEerie (w "grape") (makeGuess (w "grape") (w "crane")).
Proof.
  assert (Hbounds : boundsOk knownEerie = true) by (vm_compute; reflexivity).
  split; [reflexivity|split; [exact Hbounds|split; [reflexivity|split; [reflexivity|]]]].
  exact (updateKnown_monotone (w "grape") (makeGuess (w "grape") (w "crane")) knownEerie
           eq_refl Hbounds eq_refl eq_refl).
Defined.

(** C4, as stated for every state, fails: updating [strayKnown] with the
    guess "abbey" answered WRONG five times sets the bound of "a" to the
    count of [good], 0, plus 1, below the bound 3 it had. *)
Lemma updateKnown_bound_can_drop :
  isWord5 (w "abbey") = true
  ∧ length [WRONG; WRONG; WRONG; WRONG; WRONG] = 5
  ∧ ¬ keepsConstraints strayKnown (w "abbey") [WRONG; WRONG; WRONG; WRONG; WRONG].
Proof.
  split; [reflexivity|split; [reflexivity|]].
  intros (_ & _ & Hbad).
  destruct (Hbad (w "a") 3 eq_refl) as (b' & Hb' & Hle).
  assert (Hone : bad (updateKnown (w "abbey") [WRONG; WRONG; WRONG; WRONG; WRONG] strayKnown)
                   !! w "a" = Some 1) by (vm_compute; reflexivity).
  rewrite Hone in Hb'. injection Hb' as <-. lia.
Qed.

(** Outside the states of a board the bound of [bad] can drop: a record with
    a bound and no count behind it. *)
Example updateKnown_bound_of_stray_record :
  let stray := {| fixed := w "....."; good := ∅; bad := {[w "a" := 3]}; badPositions := ∅;
                  guessResult := []; solved := false |} in
  consistent stray = false
  ∧ bad (updateKnown (w "abbey") [WRONG; WRONG; WRONG; WRONG; WRONG] stray) !! w "a" = Some 1.
Proof. vm_compute. auto. Qed.

(** ** Numbers *)

Section Floats.
#[local] Open Scope Z_scope.

Lemma shr_1_nonneg (mrs : shr_record) : 0 ≤ shr_m mrs → 0 ≤ shr_m (shr_1 mrs).
Proof. destruct mrs as [[|[p|p|]|p] r s]; simpl; lia. Qed.

Lemma iter_shr_1_nonneg (p : positive) (mrs : shr_record) :
  0 ≤ shr_m mrs → 0 ≤ shr_m (SpecFloat.iter_pos shr_1 p mrs).
Proof.
  revert mrs. induction p as [p IH|p IH|]; intros mrs Hm; simpl.
  - apply IH, IH. by apply shr_1_nonneg.
  - by apply IH, IH.
  - by apply shr_1_nonneg.
Qed.

Lemma shr_fexp_nonneg (m e : Z) (l : location) :
  0 ≤ m → 0 ≤ shr_m (shr_fexp prec emax m e l).1.
Proof.
  intros Hm. unfold shr_fexp, shr.
  assert (Hrec : 0 ≤ shr_m (shr_record_of_loc m l)) by (by destruct l as [|[]]).
  destruct (fexp prec emax (Zdigits2 m + e) - e); simpl; try done.
  by apply iter_shr_1_nonneg.
Qed.

Lemma round_nearest_even_nonneg (m : Z) (l : location) :
  0 ≤ m → 0 ≤ round_nearest_even m l.
Proof. intros Hm. destruct l as [|[]]; simpl; try lia. destruct (Z.even m); lia. Qed.

Lemma binary_round_aux_nonneg (mx ex : Z) (lx : location) :
  0 ≤ mx → nonneg (binary_round_aux prec emax false mx ex lx).
Proof.
  intros Hm. unfold binary_round_aux.
  pose proof (shr_fexp_nonneg mx ex lx Hm) as H1.
  destruct (shr_fexp prec emax mx ex lx) as [mrs' e']. simpl in H1.
  pose proof (shr_fexp_nonneg _ e' loc_Exact
                (round_nearest_even_nonneg _ (loc_of_shr_record mrs') H1)) as H2.
  destruct (shr_fexp prec emax _ e' loc_Exact) as [mrs'' e'']. simpl in H2.
  destruct (shr_m mrs'') as [|m|m]; simpl; [done| |lia].
  by destruct (e'' <=? emax - prec).
Qed.

Lemma binary_round_nonneg (m : positive) (e : Z) :
  nonneg (binary_round prec emax false m e).
Proof.
  unfold binary_round. destruct (shl_align m e _) as [mz ez].
  by apply binary_round_aux_nonneg.
Qed.

Lemma num_nonneg (n : nat) : nonneg (num n).
Proof.
  unfold num, binary_normalize. destruct (Z.of_nat n) eqn:Hn; [done| |lia].
  apply binary_round_nonneg.
Qed.

Lemma fadd_nonneg (x y : spec_float) : nonneg x → nonneg y → nonneg (fadd x y).
Proof.
  destruct x as [[]|[]| |[] mx ex], y as [[]|[]| |[] my ey]; simpl; try done.
  intros _ _. unfold binary_normalize. simpl. apply binary_round_nonneg.
Qed.

Lemma fmul_f1_1_nonneg (x : spec_float) : nonneg x → nonneg (fmul x f1_1).
Proof.
  destruct x as [[]|[]| |[] mx ex]; simpl; try done.
  intros _. by apply binary_round_aux_nonneg.
Qed.

Lemma fadd_zero_r (x : spec_float) : nonneg x → fadd x (num 0) = x.
Proof. by destruct x as [[]|[]| |[] mx ex]. Qed.

Lemma foldl_fadd_nonneg (xs : list spec_float) (acc : spec_float) :
  nonneg acc → Forall nonneg xs → nonneg (foldl fadd acc xs).
Proof.
  revert acc. induction xs as [|x xs IH]; intros acc Hacc Hxs; [done|].
  apply Forall_cons in Hxs as [Hx Hxs]. simpl. apply IH; [|done]. by apply fadd_nonneg.
Qed.

Lemma SFltb_rank (x y : spec_float) :
  nonneg x → nonneg y → SFltb x y = true ↔ rankLt (rank x) (rank y).
Proof.
  unfold rankLt.
  destruct x as [[]|[]| |[] mx ex], y as [[]|[]| |[] my ey]; simpl; try done;
    intros _ _; unfold SFltb, SFcompare; simpl; try (split; [intros; lia|done]);
    try (split; [done|intros; lia]).
  change (Pos.compare_cont Eq mx my) with (Pos.compare mx my).
  destruct (Z.compare_spec ex ey); destruct (Pos.compare_spec mx my);
    split; intros; try done; lia.
Qed.

(** [>] on scores: of two scores at most one is above the other, and "not
    above" chains. *)
Lemma fgt_asym (x y : spec_float) :
  nonneg x → nonneg y → fgt x y = true → fgt y x = false.
Proof.
  unfold fgt. intros Hx Hy Hxy%SFltb_rank; [|done..].
  apply not_true_is_false. intros Hyx%SFltb_rank; [|done..].
  unfold rankLt in *. lia.
Qed.

Lemma fgt_not_trans (x y z : spec_float) :
  nonneg x → nonneg y → nonneg z →
  fgt x y = false → fgt y z = false → fgt x z = false.
Proof.
  unfold fgt. intros Hx Hy Hz Hxy Hyz.
  apply not_true_is_false. intros Hxz%SFltb_rank; [|done..].
  apply not_true_iff_false in Hxy, Hyz.
  rewrite SFltb_rank in Hxy, Hyz by done.
  unfold rankLt in *. lia.
Qed.

End Floats.

(** ** Word ranker *)

Lemma letterValue_nonneg (letters : LetterScores) (entry : ascii * nat) :
  nonneg (letterValue letters entry).
Proof.
  unfold letterValue. destruct (letters !! entry.1); [|apply num_nonneg].
  destruct entry.2; apply num_nonneg.
Qed.

Lemma baseScore_nonneg (word : text) (letters : LetterScores) :
  nonneg (baseScore word letters).
Proof.
  unfold baseScore. apply foldl_fadd_nonneg; [apply num_nonneg|].
  apply Forall_fmap, Forall_forall. intros entry _. apply letterValue_nonneg.
Qed.

Lemma scoreWord_nonneg (word : text) (letters : LetterScores) (validWords : list text) :
  nonneg (scoreWord word letters validWords).
Proof.
  unfold scoreWord. case_decide; [|apply baseScore_nonneg].
  apply fadd_nonneg; [|apply num_nonneg]. apply fmul_f1_1_nonneg, baseScore_nonneg.
Qed.

Lemma scoreWords_nonneg (word : text) (threadLetterScores : list LetterScores)
    (threadWords : list (list text)) :
  nonneg (scoreWords word threadLetterScores threadWords).
Proof.
  unfold scoreWords. apply foldl_fadd_nonneg; [apply num_nonneg|].
  apply Forall_forall. intros x [i Hx]%list_elem_of_lookup_1.
  apply lookup_zip_with_Some in Hx as (words & letters & -> & _ & _).
  apply scoreWord_nonneg.
Qed.

Section Reduce.
Variable score : text → spec_float.
Hypothesis score_nonneg : ∀ word, nonneg (score word).

Lemma foldl_keepBest_latest (pool : list text) (first : text) :
  ∃ pre post,
    first :: pool = pre ++ foldl (keepBest score) first pool :: post
    ∧ (∀ word, word ∈ pre → fgt (score word) (score (foldl (keepBest score) first pool)) = false)
    ∧ (∀ word, word ∈ post → fgt (score (foldl (keepBest score) first pool)) (score word) = true).
Proof.
  revert first. induction pool as [|next pool IH]; intros first.
  - exists [], []. simpl. split; [done|]. split; intros word Hin; by apply elem_of_nil in Hin.
  - simpl. unfold keepBest at 2 4 6.
    destruct (fgt (score first) (score next)) eqn:Hcmp.
    + destruct (IH first) as (pre & post & Hsplit & Hpre & Hpost).
      destruct pre as [|p pre]; simpl in Hsplit; injection Hsplit as Hfirst Hrest.
      * subst post. exists [], (next :: pool). rewrite <- Hfirst in *. split; [done|].
        split; [intros word Hin; by apply elem_of_nil in Hin|].
        intros word [->|Hin]%elem_of_cons; [done|by apply Hpost].
      * subst p. exists (first :: next :: pre), post. split; [simpl; by rewrite <- Hrest|].
        split; [|done].
        intros word [->|[->|Hin]%elem_of_cons]%elem_of_cons.
        -- apply Hpre. by left.
        -- apply fgt_not_trans with (y := score first); try done.
           ++ by apply fgt_asym.
           ++ apply Hpre. by left.
        -- apply Hpre. by right.
    + destruct (IH next) as (pre & post & Hsplit & Hpre & Hpost).
      exists (first :: pre), post. split; [by rewrite Hsplit|]. split; [|done].
      intros word [->|Hin]%elem_of_cons; [|by apply Hpre].
      destruct pre as [|p pre]; simpl in Hsplit; injection Hsplit as Hnext Hrest.
      * by rewrite <- Hnext.
      * subst p. apply fgt_not_trans with (y := score next); try done.
        apply Hpre. by left.
Qed.

End Reduce.

(** C1, as the code has it.  From a pool that is not empty [chooseWord]
    returns a word of the pool; the [reduce] keeps the current best only when
    it scores strictly higher than the next word, so no word before the
    returned one scores higher and every word after it scores strictly lower:
    of the words with the highest score the latest in the pool is returned. *)
Theorem chooseWord_latest_best (threadWords : list (list text)) (guessPool : list text) :
  guessPool ≠ [] → returnsLatestBest threadWords guessPool.
Proof.
  intros Hpool. destruct guessPool as [|first pool]; [done|].
  destruct (foldl_keepBest_latest (poolScore threadWords)
              (λ word, scoreWords_nonneg word _ _) pool first)
    as (pre & post & Hsplit & Hpre & Hpost).
  exists pre, (foldl (keepBest (poolScore threadWords)) first pool), post.
  split; [done|]. split; [reflexivity|]. split; assumption.
Qed.

(** The pool "crane", "slate" against the same two candidates. *)
Lemma chooseWord_latest_best_witness :
  [w "crane"; w "slate"] ≠ []
  ∧ returnsLatestBest [[w "crane"; w "slate"]] [w "crane"; w "slate"].
Proof.
  split; [discriminate|].
  apply (chooseWord_latest_best [[w "crane"; w "slate"]] [w "crane"; w "slate"]).
  discriminate.
Defined.

(** C1, as stated, fails: "crane" and "slate" score the same against the
    candidates "crane" and "slate", and the later one is returned. *)
Lemma chooseWord_not_earliest_best :
  ¬ returnsEarliestBest [[w "crane"; w "slate"]] [w "crane"; w "slate"].
Proof.
  intros (pre & best & post & Hsplit & Hbest & Hpre & _).
  assert (Hslate : chooseWord [[w "crane"; w "slate"]] [w "crane"; w "slate"]
                   = Some (w "slate")) by (vm_compute; reflexivity).
  rewrite Hslate in Hbest. clear Hslate. injection Hbest as <-.
  destruct pre as [|p pre]; [discriminate Hsplit|].
  injection Hsplit as <- _.
  specialize (Hpre (w "crane") ltac:(by left)). vm_compute in Hpre. discriminate Hpre.
Qed.

Example chooseWord_tie :
  poolScore [[w "crane"; w "slate"]] (w "crane") = poolScore [[w "crane"; w "slate"]] (w "slate")
  ∧ chooseWord [[w "crane"; w "slate"]] [w "crane"; w "slate"] = Some (w "slate")
  ∧ chooseWord [[w "crane"; w "slate"]] [w "slate"; w "crane"] = Some (w "crane").
Proof. vm_compute. auto. Qed.

Lemma fadd_zero_l (x : spec_float) : nonneg x → fadd (num 0) x = x.
Proof. by destruct x as [[]|[]| |[] mx ex]. Qed.

Lemma scoreWords_single (word : text) (letters : LetterScores) (words : list text) :
  scoreWords word [letters] [words] = scoreWord word letters words.
Proof.
  unfold scoreWords. cbn [zip_with foldl]. apply fadd_zero_l, scoreWord_nonneg.
Qed.

Lemma foldl_same {A B} (f g : A → B → A) (l : list B) (a : A) :
  (∀ x y, f x y = g x y) → foldl f a l = foldl g a l.
Proof.
  intros Hfg. revert a. induction l as [|y l IH]; intros a; [done|].
  simpl. by rewrite Hfg, IH.
Qed.

(** On one board the ranker of the multi-board source is the ranker of the
    first single-board source. *)
Lemma chooseWordSingle_chooseWord (words guessPool : list text) :
  chooseWordSingle words guessPool = chooseWord [words] guessPool.
Proof.
  unfold chooseWordSingle, chooseWord, reduce1.
  destruct guessPool as [|first pool]; [done|]. f_equal.
  apply foldl_same. intros best next. cbn [map].
  by rewrite !scoreWords_single.
Qed.

(** *** The value of a letter *)

Lemma bumpCount_tallyOf (L c : ascii) (counts : list (ascii * nat)) :
  tallyOf L (bumpCount c counts) = tallyOf L counts + (if decide (c = L) then 1 else 0).
Proof.
  induction counts as [|[l n] counts IH]; simpl.
  - case_decide; lia.
  - destruct (decide (l = c)) as [->|Hne]; simpl.
    + case_decide; lia.
    + rewrite IH. repeat case_decide; lia.
Qed.

Lemma bumpCount_keys (c : ascii) (counts : list (ascii * nat)) :
  (bumpCount c counts).*1 = if decide (c ∈ counts.*1) then counts.*1 else counts.*1 ++ [c].
Proof.
  induction counts as [|[l n] counts IH].
  - destruct (decide (c ∈ ([] : list (ascii * nat)).*1)) as [Hin|_]; [|done].
    by apply elem_of_nil in Hin.
  - change (((l, n) :: counts).*1) with (l :: counts.*1). simpl bumpCount.
    destruct (decide (l = c)) as [->|Hne].
    + destruct (decide (c ∈ c :: counts.*1)) as [_|Hnin]; [done|].
      exfalso. apply Hnin. by left.
    + change ((l, n) :: bumpCount c counts).*1 with (l :: (bumpCount c counts).*1).
      rewrite IH. destruct (decide (c ∈ counts.*1)) as [Hin|Hnin].
      * destruct (decide (c ∈ l :: counts.*1)) as [_|Hnin]; [done|].
        exfalso. apply Hnin. by right.
      * destruct (decide (c ∈ l :: counts.*1)) as [Hin|_]; [|done].
        apply elem_of_cons in Hin as [?|?]; by simplify_eq.
Qed.

Lemma bumpCount_NoDup (c : ascii) (counts : list (ascii * nat)) :
  NoDup counts.*1 → NoDup (bumpCount c counts).*1.
Proof.
  intros Hnd. rewrite bumpCount_keys. case_decide as Hin; [done|].
  apply NoDup_app. split; [done|]. split; [|apply NoDup_singleton].
  intros x Hx ->%list_elem_of_singleton. done.
Qed.

Lemma bumpCount_filter (L c : ascii) (counts : list (ascii * nat)) :
  filter (λ e : ascii * nat, e.1 ≠ L) (bumpCount c counts)
  = if decide (c = L) then filter (λ e : ascii * nat, e.1 ≠ L) counts
    else bumpCount c (filter (λ e : ascii * nat, e.1 ≠ L) counts).
Proof.
  induction counts as [|[l n] counts IH]; simpl.
  - rewrite filter_cons, filter_nil. simpl. repeat case_decide; naive_solver.
  - destruct (decide (l = c)) as [->|Hne]; simpl.
    + rewrite !filter_cons. simpl. destruct (decide (c = L)) as [->|HcL].
      * by rewrite !decide_False by naive_solver.
      * rewrite !decide_True by done. simpl. by rewrite decide_True.
    + rewrite !filter_cons, IH. simpl. destruct (decide (c = L)) as [->|HcL].
      * done.
      * destruct (decide (l ≠ L)); [|done]. simpl. by rewrite decide_False.
Qed.

Lemma countLetters_from_tallyOf (L : ascii) (word : text) (counts : list (ascii * nat)) :
  tallyOf L (foldl (λ counts letter, bumpCount letter counts) counts word)
  = tallyOf L counts + occurrences L word.
Proof.
  unfold occurrences. revert counts. induction word as [|c word IH]; intros counts; simpl.
  - lia.
  - rewrite IH, bumpCount_tallyOf, filter_cons. repeat case_decide; simpl; lia.
Qed.

Lemma countLetters_from_NoDup (word : text) (counts : list (ascii * nat)) :
  NoDup counts.*1 →
  NoDup (foldl (λ counts letter, bumpCount letter counts) counts word).*1.
Proof.
  revert counts. induction word as [|c word IH]; intros counts Hnd; [done|].
  simpl. by apply IH, bumpCount_NoDup.
Qed.

Lemma countLetters_from_filter (L : ascii) (word : text) (counts : list (ascii * nat)) :
  filter (λ e : ascii * nat, e.1 ≠ L)
    (foldl (λ counts letter, bumpCount letter counts) counts word)
  = foldl (λ counts letter, bumpCount letter counts)
      (filter (λ e : ascii * nat, e.1 ≠ L) counts) (filter (λ c, c ≠ L) word).
Proof.
  revert counts. induction word as [|c word IH]; intros counts; [done|].
  simpl. rewrite IH, bumpCount_filter, filter_cons.
  destruct (decide (c = L)) as [->|Hne].
  - by rewrite decide_False by naive_solver.
  - by rewrite decide_True.
Qed.

Lemma tallyOf_entry (L : ascii) (n : nat) (counts : list (ascii * nat)) :
  NoDup counts.*1 → (L, n) ∈ counts → tallyOf L counts = n.
Proof.
  induction counts as [|[l m] counts IH]; simpl; intros Hnd Hin.
  - by apply elem_of_nil in Hin.
  - apply NoDup_cons in Hnd as [Hl Hnd].
    assert (Hrest : ∀ k, (l, k) ∉ counts).
    { intros k Hk. apply Hl. apply list_elem_of_fmap. by exists (l, k). }
    apply elem_of_cons in Hin as [[= <- <-]|Hin].
    + rewrite decide_True by done.
      assert (Hzero : ∀ cs : list (ascii * nat), (∀ k, (L, k) ∉ cs) → tallyOf L cs = 0).
      { induction cs as [|[l' k'] cs IHcs]; [done|]. intros Hcs. simpl.
        rewrite decide_False.
        - apply IHcs. intros k Hk. apply (Hcs k). by right.
        - intros ->. apply (Hcs k'). by left. }
      rewrite Hzero by done. lia.
    + rewrite decide_False; [by apply IH|]. intros ->. by apply (Hrest n).
Qed.

Lemma tallyOf_pos_entry (L : ascii) (counts : list (ascii * nat)) :
  0 < tallyOf L counts → ∃ n, (L, n) ∈ counts.
Proof.
  induction counts as [|[l m] counts IH]; simpl; [lia|].
  case_decide as Hl; simpl in Hl.
  - subst l. intros _. exists m. by left.
  - intros [n Hn]%IH. exists n. by right.
Qed.

Lemma countLetters_entry (L : ascii) (n : nat) (word : text) :
  (L, n) ∈ countLetters word → n = occurrences L word.
Proof.
  intros Hin. symmetry. rewrite <- (tallyOf_entry L n (countLetters word)).
  - unfold countLetters. by rewrite countLetters_from_tallyOf.
  - apply countLetters_from_NoDup. constructor.
  - done.
Qed.

Lemma countLetters_has_entry (L : ascii) (word : text) :
  0 < occurrences L word → (L, occurrences L word) ∈ countLetters word.
Proof.
  intros Hpos. destruct (tallyOf_pos_entry L (countLetters word)) as [n Hn].
  - unfold countLetters. rewrite countLetters_from_tallyOf. simpl. lia.
  - by rewrite <- (countLetters_entry L n word Hn).
Qed.

Lemma foldl_fadd_skip (value : ascii * nat → spec_float) (L : ascii)
    (counts : list (ascii * nat)) (acc : spec_float) :
  nonneg acc → (∀ e, nonneg (value e)) →
  (∀ e, e ∈ counts → e.1 = L → value e = num 0) →
  foldl fadd acc (map value counts)
  = foldl fadd acc (map value (filter (λ e : ascii * nat, e.1 ≠ L) counts)).
Proof.
  intros Hacc Hvalue. revert acc Hacc.
  induction counts as [|e counts IH]; intros acc Hacc Hzero; [done|].
  rewrite filter_cons. simpl. destruct (decide (e.1 ≠ L)) as [Hne|Heq]; simpl.
  - apply IH; [by apply fadd_nonneg|]. intros e' He'. apply Hzero. by right.
  - apply dec_stable in Heq. rewrite (Hzero e) by (done || by left).
    rewrite fadd_zero_r by done. apply IH; [done|]. intros e' He'. apply Hzero. by right.
Qed.

(** A letter whose value is 0 adds nothing to the score of the word. *)
Lemma baseScore_skip (letters : LetterScores) (word : text) (L : ascii) :
  letterValue letters (L, occurrences L word) = num 0 →
  baseScore word letters = baseScore (filter (λ c, c ≠ L) word) letters.
Proof.
  intros Hzero. unfold baseScore.
  rewrite (foldl_fadd_skip _ L (countLetters word)).
  - unfold countLetters at 1. by rewrite countLetters_from_filter.
  - apply num_nonneg.
  - apply letterValue_nonneg.
  - intros [l n] Hin Hl. simpl in Hl. subst l.
    by rewrite (countLetters_entry L n word Hin).
Qed.

(** The rows [scoreLetters] builds have four slots. *)
Lemma scoreLetters_rows (words : list text) (L : ascii) (row : list nat) :
  scoreLetters words !! L = Some row → length row = 4.
Proof.
  unfold scoreLetters. rewrite lookup_fmap.
  assert (Hrows : ∀ (ws : list text) (letters : LetterScores),
            map_Forall (λ _ r, length r = 4) letters →
            map_Forall (λ _ r, length r = 4) (foldl scoreLettersWord letters ws)).
  { induction ws as [|wd ws IH]; intros letters Hl; [done|]. simpl. apply IH.
    unfold scoreLettersWord. generalize (countLetters wd). intros counts.
    revert letters Hl. induction counts as [|e counts IHc]; intros letters Hl; [done|].
    simpl. apply IHc. apply map_Forall_insert_2; [|done]. reflexivity. }
  destruct (foldl scoreLettersWord ∅ words !! L) as [r|] eqn:Hr; [|done].
  simpl. intros [= <-]. rewrite length_map.
  eapply (Hrows words ∅); [apply map_Forall_empty|exact Hr].
Qed.

(** C5, as the code has it.  A letter that is not in the table, or that the
    word holds more often than its row (of at most four slots) is long, has
    the value 0 -- the index [count - 1] lies outside the row and nothing
    clamps it -- and the word scores what it scores without that letter. *)
Theorem letter_beyond_row_scores_zero (letters : LetterScores) (word : text) (L : ascii) :
  match letters !! L with
  | Some row => length row ≤ 4 ∧ 4 < occurrences L word
  | None => True
  end →
  letterValue letters (L, occurrences L word) = num 0
  ∧ (0 < occurrences L word → (L, occurrences L word) ∈ countLetters word)
  ∧ baseScore word letters = baseScore (filter (λ c, c ≠ L) word) letters
  ∧ ∀ validWords,
      scoreWord word letters validWords
      = if decide (word ∈ validWords)
        then fadd (fmul (baseScore (filter (λ c, c ≠ L) word) letters) f1_1) (num 1)
        else baseScore (filter (λ c, c ≠ L) word) letters.
Proof.
  intros Hrow.
  assert (Hzero : letterValue letters (L, occurrences L word) = num 0).
  { unfold letterValue. simpl. destruct (letters !! L) as [row|]; [|done].
    destruct Hrow as [Hlen Hocc]. destruct (occurrences L word) as [|k]; [done|].
    rewrite lookup_ge_None_2; [done|lia]. }
  split; [done|]. split; [apply countLetters_has_entry|].
  pose proof (baseScore_skip letters word L Hzero) as Hbase.
  split; [done|]. intros validWords. unfold scoreWord. by rewrite Hbase.
Qed.

(** In a table built by [scoreLetters] every row has four slots, so a fifth
    occurrence is always beyond the row. *)
Lemma letter_beyond_scoreLetters_row (words : list text) (word : text) (L : ascii) :
  4 < occurrences L word →
  letterValue (scoreLetters words) (L, occurrences L word) = num 0.
Proof.
  intros Hocc. unfold letterValue. simpl.
  destruct (scoreLetters words !! L) as [row|] eqn:Hrow; [|done].
  apply scoreLetters_rows in Hrow. destruct (occurrences L word) as [|k]; [done|].
  rewrite lookup_ge_None_2; [done|lia].
Qed.

(** The letter "a" of "aaaaa" in the table of "aaaaa", "bbbbb", "ccccc". *)
Lemma letter_beyond_row_scores_zero_witness :
  match scoreLetters [w "aaaaa"; w "bbbbb"; w "ccccc"] !! "a"%char with
  | Some row => length row ≤ 4 ∧ 4 < occurrences "a" (w "aaaaa")
  | None => True
  end
  ∧ letterValue (scoreLetters [w "aaaaa"; w "bbbbb"; w "ccccc"])
      ("a"%char, occurrences "a" (w "aaaaa")) = num 0.
Proof.
  assert (Hrow : match scoreLetters [w "aaaaa"; w "bbbbb"; w "ccccc"] !! "a"%char with
                 | Some row => length row ≤ 4 ∧ 4 < occurrences "a" (w "aaaaa")
                 | None => True
                 end) by (vm_compute; split; lia).
  split; [exact Hrow|].
  apply (letter_beyond_row_scores_zero
           (scoreLetters [w "aaaaa"; w "bbbbb"; w "ccccc"]) (w "aaaaa") "a" Hrow).
Defined.

(** C5, as stated, fails: with the candidates "aaaaa", "bbbbb", "ccccc" the
    row of "a" is [1; 1; 1; 1]; the word "aaaaa" gets 0 for its letter where
    the clamped lookup gives the entry at index 3. *)
Lemma scoreWord_does_not_clamp :
  let letters := scoreLetters [w "aaaaa"; w "bbbbb"; w "ccccc"] in
  letters !! "a"%char = Some [1; 1; 1; 1]
  ∧ countLetters (w "aaaaa") = [("a"%char, 5)]
  ∧ letterValueClamped letters ("a"%char, 5) = num 1
  ∧ letterValue letters ("a"%char, 5) = num 0
  ∧ baseScore (w "aaaaa") letters ≠ baseScoreClamped (w "aaaaa") letters.
Proof. vm_compute. repeat split; try reflexivity. discriminate. Qed.

(** ** Board coordinator *)

Section Rounds.
Variables (cfg : Config) (allWords : list text) (hasSolutions : bool)
  (solutions : list text) (player : Player).

Lemma playRounds_cons (n : nat) (later : list nat) (threadKnown : list Known)
    (threadWords : list (list text)) :
  playRounds cfg allWords hasSolutions solutions player (n :: later) threadKnown threadWords
  = let round := playRound cfg allWords hasSolutions solutions player n
                   threadKnown threadWords in
    match outcome round with
    | Continue threadKnown' threadWords' =>
        (round :: (playRounds cfg allWords hasSolutions solutions player later
                     threadKnown' threadWords').1,
         (playRounds cfg allWords hasSolutions solutions player later
            threadKnown' threadWords').2)
    | Break threadKnown' => ([round], finish threadKnown')
    | Abort e => ([round], e)
    end.
Proof. reflexivity. Qed.

Lemma playRounds_rounds (roundNumbers : list nat) (threadKnown : list Known)
    (threadWords : list (list text)) (round : Round) :
  round ∈ (playRounds cfg allWords hasSolutions solutions player roundNumbers
             threadKnown threadWords).1 →
  ∃ n known words,
    round = playRound cfg allWords hasSolutions solutions player n known words.
Proof.
  revert threadKnown threadWords.
  induction roundNumbers as [|n later IH]; intros threadKnown threadWords.
  - intros Hin. by apply elem_of_nil in Hin.
  - rewrite playRounds_cons. cbv zeta.
    destruct (outcome (playRound cfg allWords hasSolutions solutions player n
                         threadKnown threadWords)) as [k' w'|k'|e].
    + intros [->|Hin]%elem_of_cons; [by eexists _, _, _|]. by eapply IH.
    + intros ->%list_elem_of_singleton. by eexists _, _, _.
    + intros ->%list_elem_of_singleton. by eexists _, _, _.
Qed.

(** The rounds of the trace are the rounds of the loop, in order, each
    starting from the state the previous one left. *)
Lemma playRounds_chain (roundNumbers : list nat) (threadKnown : list Known)
    (threadWords : list (list text)) :
  let trace := (playRounds cfg allWords hasSolutions solutions player roundNumbers
                  threadKnown threadWords).1 in
  (∀ round, trace !! 0 = Some round →
     knownBefore round = threadKnown ∧ wordsBefore round = threadWords)
  ∧ (∀ i round, trace !! i = Some round → roundNumbers !! i = Some (roundNumber round))
  ∧ (∀ i round round', trace !! i = Some round → trace !! S i = Some round' →
       outcome round = Continue (knownBefore round') (wordsBefore round')).
Proof.
  cbv zeta. revert threadKnown threadWords.
  induction roundNumbers as [|n later IH]; intros threadKnown threadWords.
  - split; [|split]; intros; done.
  - rewrite playRounds_cons. cbv zeta.
    destruct (outcome (playRound cfg allWords hasSolutions solutions player n
                         threadKnown threadWords)) as [k' w'|k'|e] eqn:Hout.
    + destruct (IH k' w') as (Hfirst & Hnum & Hchain).
      split; [|split].
      * by intros round [= <-].
      * intros [|i] round; [by intros [= <-]|apply Hnum].
      * intros [|i] round round'; [|apply Hchain].
        intros [= <-] Hnext. destruct (Hfirst _ Hnext) as [-> ->]. done.
    + split; [|split].
      * by intros round [= <-].
      * intros [|i] round; [by intros [= <-]|done].
      * intros [|i] round round'; done.
    + split; [|split].
      * by intros round [= <-].
      * intros [|i] round; [by intros [= <-]|done].
      * intros [|i] round round'; done.
Qed.

Lemma playRound_pool (n : nat) (threadKnown : list Known) (threadWords : list (list text))
    (pool : list text) :
  poolUsed (playRound cfg allWords hasSolutions solutions player n threadKnown threadWords)
  = Some pool →
  pool = guessPool cfg allWords n threadKnown threadWords.
Proof.
  simpl. unfold pickGuess. case_decide; simpl; [done|]. by intros [= <-].
Qed.

End Rounds.

Lemma run_rounds (cfg : Config) (allWords : list text) (player : Player) (args : list text)
    (round : Round) :
  round ∈ (run cfg allWords player args).1 →
  ∃ hasSolutions solutions n known words,
    round = playRound cfg allWords hasSolutions solutions player n known words.
Proof.
  unfold run.
  destruct (_ && bool_decide (length args ≠ threadCount cfg));
    [intros Hin; by apply elem_of_nil in Hin|].
  destruct (randomMode cfg && _); [intros Hin; by apply elem_of_nil in Hin|].
  destruct (List.find _ _); [intros Hin; by apply elem_of_nil in Hin|].
  intros (n & known & words & ->)%playRounds_rounds. by eexists _, _, _, _, _.
Qed.

Lemma run_round_numbers (cfg : Config) (allWords : list text) (player : Player)
    (args : list text) (i : nat) (round : Round) :
  (run cfg allWords player args).1 !! i = Some round → roundNumber round = i.
Proof.
  unfold run.
  destruct (_ && bool_decide (length args ≠ threadCount cfg)); [done|].
  destruct (randomMode cfg && _); [done|].
  destruct (List.find _ _); [done|].
  match goal with |- context [playRounds ?c ?a ?h ?s ?p ?r ?k ?ws] =>
    destruct (playRounds_chain c a h s p r k ws) as (_ & Hnum & _) end.
  intros Hround. specialize (Hnum _ _ Hround).
  unfold range in Hnum. apply lookup_seq in Hnum as [-> _]. done.
Qed.

(** C7.  In every round of a run in which the program chooses the guess, the
    pool is the concatenation of the boards' candidate lists when the hard
    mode flag is set or the rounds left (the round budget minus the number of
    rounds started before this one) are at most the boards not yet solved;
    otherwise it is the dictionary.  The number of a round is the number of
    rounds before it. *)
Theorem guessPool_rule (cfg : Config) (allWords : list text) (player : Player)
    (args : list text) (i : nat) (round : Round) (pool : list text) :
  (run cfg allWords player args).1 !! i = Some round →
  poolUsed round = Some pool →
  roundNumber round = i
  ∧ (hardMode cfg = true
     ∨ (roundCount cfg - Z.of_nat i ≤ Z.of_nat (wordsToGuess (knownBefore round)))%Z →
     pool = concat (wordsBefore round))
  ∧ (hardMode cfg = false
     ∧ (Z.of_nat (wordsToGuess (knownBefore round)) < roundCount cfg - Z.of_nat i)%Z →
     pool = allWords).
Proof.
  intros Hround Hpool. pose proof (run_round_numbers _ _ _ _ _ _ Hround) as Hnum.
  split; [done|].
  destruct (run_rounds cfg allWords player args round) as (hs & sols & n & known & words & ->).
  { by eapply list_elem_of_lookup_2. }
  apply playRound_pool in Hpool. simpl in *. subst n pool. unfold guessPool.
  split.
  - intros [->|Hle]; [done|]. rewrite (bool_decide_eq_true_2 _); [|lia].
    by rewrite orb_true_r.
  - intros [-> Hlt]. rewrite (bool_decide_eq_false_2 _); [done|lia].
Qed.

(** The first round of the run on [dict5] with the solution "spine". *)
Lemma guessPool_rule_witness :
  (run cfg1 dict5 nobody [w "spine"]).1 !! 0 = Some firstRound
  ∧ poolUsed firstRound = Some dict5
  ∧ roundNumber firstRound = 0
  ∧ (hardMode cfg1 = false
     ∧ (Z.of_nat (wordsToGuess (knownBefore firstRound)) < roundCount cfg1 - Z.of_nat 0)%Z →
     dict5 = dict5).
Proof.
  assert (H1 : (run cfg1 dict5 nobody [w "spine"]).1 !! 0 = Some firstRound)
    by (vm_compute; reflexivity).
  assert (H2 : poolUsed firstRound = Some dict5) by (vm_compute; reflexivity).
  split; [exact H1|split; [exact H2|]].
  destruct (guessPool_rule cfg1 dict5 nobody [w "spine"] 0 firstRound dict5 H1 H2)
    as (Hn & _ & Hdict).
  split; [exact Hn|exact Hdict].
Defined.

(** C8, as the code has it.  When a solution that is not the empty string
    and not in the dictionary is supplied, the run ends before any round is
    played, with the usage error or with the unknown word reported. *)
Theorem unknown_solution_ends_run (cfg : Config) (allWords : list text) (player : Player)
    (args : list text) (solution : text) :
  solution ∈ args → solution ≠ [] → solution ∉ allWords →
  (run cfg allWords player args).1 = []
  ∧ ((run cfg allWords player args).2 = Usage
     ∨ ∃ unknown, (run cfg allWords player args).2 = UnknownWord unknown
                  ∧ unknown ≠ [] ∧ unknown ∉ allWords).
Proof.
  intros Hin Hne Hunknown. unfold run.
  destruct (_ && bool_decide (length args ≠ threadCount cfg)); [by split; [|left]|].
  destruct (randomMode cfg && _); [by split; [|left]|].
  match goal with |- context [List.find ?f ?l] => destruct (List.find f l) as [s|] eqn:Hfind end.
  - split; [done|]. right. exists s. split; [done|].
    apply find_some in Hfind as [_ Hs]. by apply bool_decide_eq_true in Hs.
  - exfalso. assert (Hfalse : bool_decide (solution ≠ [] ∧ solution ∉ allWords) = false).
    { apply (find_none _ _ Hfind solution).
      apply list_elem_of_In. destruct (randomMode cfg); [|done].
      apply elem_of_app. by left. }
    apply bool_decide_eq_false in Hfalse. apply Hfalse. by split.
Qed.

(** The solution "zzzzz", which [dict5] does not have. *)
Lemma unknown_solution_ends_run_witness :
  (w "zzzzz" ∈ [w "zzzzz"]) ∧ (w "zzzzz" ≠ []) ∧ (w "zzzzz" ∉ dict5)
  ∧ (run cfg1 dict5 nobody [w "zzzzz"]).1 = [].
Proof.
  assert (H1 : w "zzzzz" ∈ [w "zzzzz"]) by (by left).
  assert (H2 : w "zzzzz" ≠ []) by discriminate.
  assert (H3 : w "zzzzz" ∉ dict5) by (apply (bool_decide_eq_false_1 (w "zzzzz" ∈ dict5)); reflexivity).
  split; [exact H1|split; [exact H2|split; [exact H3|]]].
  apply (unknown_solution_ends_run cfg1 dict5 nobody [w "zzzzz"] (w "zzzzz") H1 H2 H3).
Defined.

(** C8, as stated, fails: the empty string is supplied as the solution, it
    is not in the dictionary, and a round is played all the same -- a guess is
    chosen and the board is updated before the run ends. *)
Lemma empty_solution_is_played :
  (([] : text) ∈ [([] : text)]) ∧ (([] : text) ∉ [w "crane"])
  ∧ ∃ round known,
      (run cfg1 [w "crane"] nobody [[]]).1 = [round]
      ∧ guessMade round = Some (w "crane")
      ∧ outcome round = Abort (WordNotKnown 0 known)
      ∧ known = updateKnown (w "crane") [WRONG; WRONG; WRONG; WRONG; WRONG] nothingKnown
      ∧ known ≠ nothingKnown.
Proof.
  split; [by left|]. split; [apply (bool_decide_eq_false_1 (([] : text) ∈ [w "crane"])); reflexivity|].
  eexists _, _. split; [reflexivity|]. split; [vm_compute; reflexivity|].
  split; [vm_compute; reflexivity|]. split; [vm_compute; reflexivity|].
  intros Heq. apply (f_equal guessResult) in Heq. vm_compute in Heq. discriminate Heq.
Qed.

(** *** Solved boards *)

Lemma narrow_inr (newKnown : list Known) (threadWords threadWords' : list (list text))
    (start : nat) :
  narrow start newKnown threadWords = inr threadWords' →
  length threadWords' = length threadWords
  ∧ ∀ j words known,
      threadWords !! j = Some words → newKnown !! (start + j) = Some known →
      threadWords' !! j = Some (if solved known then [] else filterWords words known)
      ∧ (solved known = false → filterWords words known ≠ []).
Proof.
  revert start threadWords'.
  induction threadWords as [|words0 rest IH]; intros start threadWords'; simpl.
  - intros [= <-]. split; [done|]. intros j words known Hj. done.
  - destruct (newKnown !! start) as [known0|] eqn:Hk0; [|done].
    destruct (solved known0) eqn:Hs0.
    + destruct (narrow (S start) newKnown rest) as [e|rest'] eqn:Hrest; [done|].
      intros [= <-]. destruct (IH _ _ Hrest) as [Hlen Hall].
      split; [simpl; by rewrite Hlen|].
      intros [|j] words known; simpl.
      * rewrite Nat.add_0_r, Hk0. intros [= <-] [= <-]. rewrite Hs0. done.
      * rewrite <- Nat.add_succ_comm. apply Hall.
    + case_decide as Hempty; [done|].
      destruct (narrow (S start) newKnown rest) as [e|rest'] eqn:Hrest; [done|].
      intros [= <-]. destruct (IH _ _ Hrest) as [Hlen Hall].
      split; [simpl; by rewrite Hlen|].
      intros [|j] words known; simpl.
      * rewrite Nat.add_0_r, Hk0. intros [= <-] [= <-]. rewrite Hs0.
        split; [done|]. intros _ Hnil. apply Hempty. by rewrite Hnil.
      * rewrite <- Nat.add_succ_comm. apply Hall.
Qed.

Lemma narrow_inl (newKnown : list Known) (threadWords : list (list text))
    (start : nat) (e : Exit) :
  narrow start newKnown threadWords = inl e →
  e = TypeError
  ∨ ∃ j words known,
      e = WordNotKnown (start + j) known
      ∧ threadWords !! j = Some words ∧ newKnown !! (start + j) = Some known
      ∧ solved known = false ∧ filterWords words known = [].
Proof.
  revert start.
  induction threadWords as [|words0 rest IH]; intros start; simpl; [done|].
  destruct (newKnown !! start) as [known0|] eqn:Hk0; [|intros [= <-]; by left].
  assert (Hshift : narrow (S start) newKnown rest = inl e →
            e = TypeError
            ∨ ∃ j words known,
                e = WordNotKnown (start + j) known
                ∧ (words0 :: rest) !! j = Some words ∧ newKnown !! (start + j) = Some known
                ∧ solved known = false ∧ filterWords words known = []).
  { intros [->|(j & words & known & -> & Hj & Hk & Hs & Hf)]%IH; [by left|right].
    exists (S j), words, known. rewrite <- Nat.add_succ_comm. done. }
  destruct (solved known0) eqn:Hs0.
  - destruct (narrow (S start) newKnown rest) as [e'|rest'] eqn:Hrest; [|done].
    intros [= ->]. by apply Hshift.
  - case_decide as Hempty.
    + intros [= <-]. right. exists 0, words0, known0. rewrite Nat.add_0_r.
      split_and!; try done. by apply nil_length_inv.
    + destruct (narrow (S start) newKnown rest) as [e'|rest'] eqn:Hrest; [|done].
      intros [= ->]. by apply Hshift.
Qed.

(** One round leaves a solved board as it is. *)
Lemma playRound_solved (cfg : Config) (allWords : list text) (hasSolutions : bool)
    (solutions : list text) (player : Player) (n : nat)
    (threadKnown : list Known) (threadWords : list (list text)) (i : nat) (known : Known) :
  length threadWords = length threadKnown →
  threadKnown !! i = Some known → solved known = true →
  match outcome (playRound cfg allWords hasSolutions solutions player n
                   threadKnown threadWords) with
  | Continue threadKnown' threadWords' =>
      threadKnown' !! i = Some known ∧ threadWords' !! i = Some []
      ∧ length threadWords' = length threadKnown'
  | Break threadKnown' => threadKnown' !! i = Some known
  | Abort (WordNotKnown thread stuck) =>
      thread ≠ i ∧ solved stuck = false
      ∧ ∃ words, threadWords !! thread = Some words ∧ filterWords words stuck = []
  | Abort _ => True
  end.
Proof.
  intros Hlen Hi Hsolved. simpl.
  destruct (pickGuess cfg allWords player n threadKnown threadWords).2 as [guess|]; [|done].
  set (newKnown := imap (answerThread hasSolutions solutions player n guess) threadKnown).
  assert (Hnew : newKnown !! i = Some known).
  { unfold newKnown. rewrite list_lookup_imap, Hi. simpl.
    unfold answerThread. by rewrite Hsolved. }
  destruct (forallb solved newKnown); [done|].
  destruct (narrow 0 newKnown threadWords) as [e|threadWords'] eqn:Hnarrow.
  - apply narrow_inl in Hnarrow as [->|(j & words & stuck & -> & Hj & Hk & Hs & Hf)]; [done|].
    simpl in *. split_and!; [|done|by exists words].
    intros ->. rewrite Hnew in Hk. injection Hk as <-. congruence.
  - apply narrow_inr in Hnarrow as [Hlen' Hall].
    destruct (lookup_lt_is_Some_2 threadWords i) as [words Hwords].
    { rewrite Hlen. by eapply lookup_lt_Some. }
    destruct (Hall i words known Hwords Hnew) as [Hw _]. rewrite Hsolved in Hw.
    split_and!; [done..|]. unfold newKnown. rewrite length_imap. lia.
Qed.

Section SolvedBoards.
Variables (cfg : Config) (allWords : list text) (hasSolutions : bool)
  (solutions : list text) (player : Player).

Lemma playRound_lengths (n : nat) (threadKnown threadKnown' : list Known)
    (threadWords threadWords' : list (list text)) :
  length threadWords = length threadKnown →
  outcome (playRound cfg allWords hasSolutions solutions player n threadKnown threadWords)
  = Continue threadKnown' threadWords' →
  length threadWords' = length threadKnown'.
Proof.
  intros Hlen. simpl.
  destruct (pickGuess cfg allWords player n threadKnown threadWords).2 as [guess|]; [|done].
  destruct (forallb solved _); [done|].
  destruct (narrow 0 _ threadWords) as [e|ws] eqn:Hnarrow; [done|].
  intros [= <- <-]. apply narrow_inr in Hnarrow as [-> _].
  rewrite length_imap. done.
Qed.

(** The trace from one of its rounds on is the trace of the loop started in
    the state that round found. *)
Lemma playRounds_suffix (roundNumbers : list nat) (threadKnown : list Known)
    (threadWords : list (list text)) (a : nat) (round : Round) :
  length threadWords = length threadKnown →
  (playRounds cfg allWords hasSolutions solutions player roundNumbers
     threadKnown threadWords).1 !! a = Some round →
  length (wordsBefore round) = length (knownBefore round)
  ∧ ∃ numbers,
      drop a (playRounds cfg allWords hasSolutions solutions player roundNumbers
                threadKnown threadWords).1
      = (playRounds cfg allWords hasSolutions solutions player numbers
           (knownBefore round) (wordsBefore round)).1.
Proof.
  revert threadKnown threadWords a.
  induction roundNumbers as [|n later IH]; intros threadKnown threadWords a Hlen; [done|].
  destruct a as [|a].
  - intros Hround.
    destruct (playRounds_chain cfg allWords hasSolutions solutions player (n :: later)
                threadKnown threadWords) as (Hfirst & _ & _).
    destruct (Hfirst _ Hround) as [-> ->]. split; [done|]. by exists (n :: later).
  - rewrite playRounds_cons. cbv zeta.
    destruct (outcome (playRound cfg allWords hasSolutions solutions player n
                         threadKnown threadWords)) as [k' w'|k'|e] eqn:Hout; [|done..].
    intros Hround. apply (IH k' w' a); [|done]. by eapply playRound_lengths.
Qed.

Lemma playRounds_solved (roundNumbers : list nat) (threadKnown : list Known)
    (threadWords : list (list text)) (i : nat) (known : Known) (b : nat) (round : Round) :
  length threadWords = length threadKnown →
  threadKnown !! i = Some known → solved known = true →
  (playRounds cfg allWords hasSolutions solutions player roundNumbers
     threadKnown threadWords).1 !! b = Some round →
  knownBefore round !! i = Some known
  ∧ (0 < b ∨ threadWords !! i = Some [] → wordsBefore round !! i = Some []).
Proof.
  revert threadKnown threadWords b.
  induction roundNumbers as [|n later IH]; intros threadKnown threadWords b Hlen Hi Hs; [done|].
  destruct b as [|b].
  - intros Hround.
    destruct (playRounds_chain cfg allWords hasSolutions solutions player (n :: later)
                threadKnown threadWords) as (Hfirst & _ & _).
    destruct (Hfirst _ Hround) as [-> ->]. split; [done|]. intros [?|?]; [lia|done].
  - rewrite playRounds_cons. cbv zeta.
    pose proof (playRound_solved cfg allWords hasSolutions solutions player n
                  threadKnown threadWords i known Hlen Hi Hs) as Hstep.
    destruct (outcome (playRound cfg allWords hasSolutions solutions player n
                         threadKnown threadWords)) as [k' w'|k'|e] eqn:Hout; [|done..].
    destruct Hstep as (Hk' & Hw' & Hlen').
    intros Hround. destruct (IH k' w' b Hlen' Hk' Hs Hround) as [Hkb Hwb].
    split; [done|]. intros _. apply Hwb. by right.
Qed.

End SolvedBoards.

(** C9.  A board that a round of a run finds solved is left alone by that
    round and by every later one: the round hands its constraint state on
    unchanged, puts the empty list in the place of its candidate list when it
    narrows the lists, and when it aborts for want of candidates it is on
    account of another board, one that is not solved and whose filtered list
    is empty. *)
Theorem solved_board_is_skipped (cfg : Config) (allWords : list text) (player : Player)
    (args : list text) (a i : nat) (round : Round) (known : Known) :
  (run cfg allWords player args).1 !! a = Some round →
  knownBefore round !! i = Some known → solved known = true →
  match outcome round with
  | Continue threadKnown' threadWords' =>
      threadKnown' !! i = Some known ∧ threadWords' !! i = Some []
  | Break threadKnown' => threadKnown' !! i = Some known
  | Abort (WordNotKnown thread stuck) =>
      thread ≠ i ∧ solved stuck = false
      ∧ ∃ words, wordsBefore round !! thread = Some words ∧ filterWords words stuck = []
  | Abort _ => True
  end
  ∧ ∀ b later, a < b → (run cfg allWords player args).1 !! b = Some later →
      knownBefore later !! i = Some known ∧ wordsBefore later !! i = Some [].
Proof.
  unfold run.
  destruct (_ && bool_decide (length args ≠ threadCount cfg)); [done|].
  destruct (randomMode cfg && _); [done|].
  destruct (List.find _ _); [done|].
  match goal with |- context [playRounds ?c ?al ?h ?s ?p ?r ?k ?ws] =>
    set (hs := h); set (sols := s); set (numbers := r); set (k0 := k); set (w0 := ws) end.
  intros Hround Hi Hsolved.
  assert (Hlen0 : length w0 = length k0) by (unfold w0, k0; by rewrite !length_replicate).
  destruct (playRounds_suffix cfg allWords hs sols player numbers k0 w0 a round Hlen0 Hround)
    as (Hlen & numbers' & Hdrop).
  split.
  - destruct (playRounds_rounds _ _ _ _ _ _ _ _ round (list_elem_of_lookup_2 _ _ _ Hround))
      as (n & kn & wn & Hr).
    pose proof (playRound_solved cfg allWords hs sols player n kn wn i known) as Hstep.
    rewrite Hr in Hlen, Hi |- *. simpl in Hlen, Hi. specialize (Hstep Hlen Hi Hsolved).
    destruct (outcome (playRound cfg allWords hs sols player n kn wn)) as [k' w'|k'|[]];
      try done. by destruct Hstep as (? & ? & _).
  - intros b later Hab Hlater.
    assert (Hlater' : (playRounds cfg allWords hs sols player numbers'
                         (knownBefore round) (wordsBefore round)).1 !! (b - a) = Some later).
    { rewrite <- Hdrop, lookup_drop. by replace (a + (b - a)) with b by lia. }
    destruct (playRounds_solved cfg allWords hs sols player numbers' _ _ i known _ _
                Hlen Hi Hsolved Hlater') as [Hk Hw].
    split; [done|]. apply Hw. left. lia.
Qed.

Lemma secondRound_played :
  (run cfg2 dict5 nobody [w "swine"; w "crane"]).1 !! 1 = Some secondRound.
Proof. vm_compute. reflexivity. Qed.

Lemma secondRound_finds_solved :
  knownBefore secondRound !! 0 = Some solvedSwine ∧ solved solvedSwine = true.
Proof. vm_compute. split; reflexivity. Qed.

(** The second round of the run on two boards, which finds the first board
    solved. *)
Lemma solved_board_is_skipped_witness :
  (run cfg2 dict5 nobody [w "swine"; w "crane"]).1 !! 1 = Some secondRound
  ∧ knownBefore secondRound !! 0 = Some solvedSwine
  ∧ solved solvedSwine = true
  ∧ ∀ b later, 1 < b → (run cfg2 dict5 nobody [w "swine"; w "crane"]).1 !! b = Some later →
      knownBefore later !! 0 = Some solvedSwine ∧ wordsBefore later !! 0 = Some [].
Proof.
  split; [exact secondRound_played|].
  split; [exact (proj1 secondRound_finds_solved)|].
  split; [exact (proj2 secondRound_finds_solved)|].
  pose proof (solved_board_is_skipped cfg2 dict5 nobody [w "swine"; w "crane"] 1 0
                secondRound solvedSwine secondRound_played
                (proj1 secondRound_finds_solved) (proj2 secondRound_finds_solved)) as Hskip.
  destruct Hskip as [_ Hlater]. exact Hlater.
Defined.

(** ** [updateKnown] on objects *)

Example heapEerie_holds_knownEerie :
  repKnown heapEerie 4 knownEerie.
Proof.
  exists 0, 1, 3. split_and!; try reflexivity.
  exists {[w "r" := 2]}. split; [reflexivity|]. intros letter.
  assert (Hbp : badPositions knownEerie = {[w "r" := {[2]}]}) by (vm_compute; reflexivity).
  rewrite Hbp. destruct (decide (letter = w "r")) as [->|Hne].
  - by rewrite !lookup_singleton_eq.
  - by rewrite !lookup_singleton_ne.
Qed.

Lemma bind_Some {A B} (m : M A) (f : A → M B) (h h' : Heap) (x : A) :
  m h = Some (x, h') → (m ≫= f) h = f x h'.
Proof. intros Hm. unfold mbind, M_bind. by rewrite Hm. Qed.

Lemma bind_alloc {B} (o : Obj) (f : addr → M B) (h : Heap) :
  (alloc o ≫= f) h = f (length h) (h ++ [o]).
Proof. reflexivity. Qed.

Lemma load_ok (h : Heap) (a : addr) (o : Obj) :
  h !! a = Some o → load a h = Some (o, h).
Proof. intros Ha. unfold load. by rewrite Ha. Qed.

Lemma store_ok (h : Heap) (a : addr) (o : Obj) :
  a < length h → store a o h = Some (tt, <[a := o]> h).
Proof. intros Ha. unfold store. by rewrite decide_True. Qed.

Lemma loadCounts_ok (h : Heap) (a : addr) (m : gmap text nat) :
  h !! a = Some (OCounts m) → loadCounts a h = Some (m, h).
Proof. intros Ha. unfold loadCounts. by rewrite (bind_Some _ _ _ _ _ (load_ok _ _ _ Ha)). Qed.

Lemma loadTexts_ok (h : Heap) (a : addr) (s : gset text) :
  h !! a = Some (OTexts s) → loadTexts a h = Some (s, h).
Proof. intros Ha. unfold loadTexts. by rewrite (bind_Some _ _ _ _ _ (load_ok _ _ _ Ha)). Qed.

Lemma loadNums_ok (h : Heap) (a : addr) (s : gset nat) :
  h !! a = Some (ONums s) → loadNums a h = Some (s, h).
Proof. intros Ha. unfold loadNums. by rewrite (bind_Some _ _ _ _ _ (load_ok _ _ _ Ha)). Qed.

Lemma loadPositions_ok (h : Heap) (a : addr) (m : gmap text addr) :
  h !! a = Some (OPositions m) → loadPositions a h = Some (m, h).
Proof.
  intros Ha. unfold loadPositions. by rewrite (bind_Some _ _ _ _ _ (load_ok _ _ _ Ha)).
Qed.

Lemma bumpGood_ok (h : Heap) (newGood : addr) (m : gmap text nat) (nextLetter : text) :
  h !! newGood = Some (OCounts m) →
  bumpGood newGood nextLetter h
  = Some (tt, <[newGood := OCounts (<[nextLetter := default 0 (m !! nextLetter) + 1]> m)]> h).
Proof.
  intros Ha. unfold bumpGood. rewrite (bind_Some _ _ _ _ _ (loadCounts_ok _ _ _ Ha)).
  apply store_ok. by eapply lookup_lt_Some.
Qed.

Lemma addBad_ok (h : Heap) (newBad : addr) (s : gset text) (nextLetter : text) :
  h !! newBad = Some (OTexts s) →
  addBad newBad nextLetter h = Some (tt, <[newBad := OTexts ({[nextLetter]} ∪ s)]> h).
Proof.
  intros Ha. unfold addBad. rewrite (bind_Some _ _ _ _ _ (loadTexts_ok _ _ _ Ha)).
  apply store_ok. by eapply lookup_lt_Some.
Qed.

Lemma prefix_store (h0 h : Heap) (a : addr) (o : Obj) :
  h0 `prefix_of` h → length h0 ≤ a → h0 `prefix_of` <[a := o]> h.
Proof.
  intros [ext ->] Ha. rewrite insert_app_r_alt by done. by eexists.
Qed.

Lemma repPositions_app (h ext : Heap) (a : addr) (positions : gmap text (gset nat)) :
  repPositions h a positions → repPositions (h ++ ext) a positions.
Proof.
  intros (m & Ha & Hsets). exists m. split; [by apply lookup_app_l_Some|].
  intros letter. specialize (Hsets letter).
  destruct (m !! letter), (positions !! letter); try done. by apply lookup_app_l_Some.
Qed.

Lemma repPositions_store (h : Heap) (a scratch : addr) (old new : Obj)
    (positions : gmap text (gset nat)) :
  h !! scratch = Some old → isScratch old →
  repPositions h a positions → repPositions (<[scratch := new]> h) a positions.
Proof.
  intros Hold Hscratch (m & Ha & Hsets). exists m. split.
  - rewrite list_lookup_insert_ne; [done|]. intros ->. rewrite Ha in Hold.
    injection Hold as <-. done.
  - intros letter. specialize (Hsets letter).
    destruct (m !! letter) as [set|], (positions !! letter) as [members|]; try done.
    rewrite list_lookup_insert_ne; [done|]. intros ->. rewrite Hsets in Hold.
    injection Hold as <-. done.
Qed.

(** The copy is two new objects behind the store it was made in; nothing
    else is touched. *)
Lemma copyWithPosition_ok (h : Heap) (a : addr) (positions : gmap text (gset nat))
    (nextLetter : text) (i : nat) :
  repPositions h a positions →
  ∃ ext, copyWithPosition a nextLetter i h = Some (length h, h ++ ext)
         ∧ repPositions (h ++ ext) (length h)
             (<[nextLetter := {[i]} ∪ default ∅ (positions !! nextLetter)]> positions).
Proof.
  intros (m & Ha & Hsets).
  set (old := default ∅ (positions !! nextLetter)).
  exists [OPositions (<[nextLetter := S (length h)]> m); ONums ({[i]} ∪ old)].
  assert (Hold : (match m !! nextLetter with
                  | Some set => loadNums set
                  | None => mret ∅
                  end) (h ++ [OPositions m]) = Some (old, h ++ [OPositions m])).
  { pose proof (Hsets nextLetter) as Hletter. unfold old.
    destruct (m !! nextLetter) as [set|], (positions !! nextLetter) as [members|];
      try done.
    apply loadNums_ok. by apply lookup_app_l_Some. }
  split.
  - unfold copyWithPosition.
    rewrite (bind_Some _ _ _ _ _ (loadPositions_ok _ _ _ Ha)).
    rewrite bind_alloc, (bind_Some _ _ _ _ _ Hold), bind_alloc.
    rewrite length_app. simpl length. replace (length h + 1) with (S (length h)) by lia.
    rewrite <- (assoc_L (++)). simpl app.
    rewrite (bind_Some _ _ (h ++ [OPositions m; ONums old]) (h ++ [OPositions m; ONums old]) old).
    2:{ apply loadNums_ok. rewrite lookup_app_r by lia.
        by replace (S (length h) - length h) with 1 by lia. }
    assert (Hset : S (length h) < length (h ++ [OPositions m; ONums old]))
      by (rewrite length_app; simpl; lia).
    rewrite (bind_Some _ _ _ _ _ (store_ok _ _ (ONums ({[i]} ∪ old)) Hset)).
    rewrite insert_app_r_alt by lia.
    replace (S (length h) - length h) with 1 by lia. simpl.
    assert (Hfresh : (h ++ [OPositions m; ONums ({[i]} ∪ old)]) !! length h
                     = Some (OPositions m)) by (by apply list_lookup_middle).
    rewrite (bind_Some _ _ _ _ _ (loadPositions_ok _ _ _ Hfresh)).
    assert (Hlen : length h < length (h ++ [OPositions m; ONums ({[i]} ∪ old)]))
      by (rewrite length_app; simpl; lia).
    rewrite (bind_Some _ _ _ _ _
               (store_ok _ _ (OPositions (<[nextLetter := S (length h)]> m)) Hlen)).
    rewrite insert_app_r_alt by lia. rewrite Nat.sub_diag. simpl. reflexivity.
  - exists (<[nextLetter := S (length h)]> m). split; [by apply list_lookup_middle|].
    intros letter. destruct (decide (letter = nextLetter)) as [->|Hne].
    + rewrite !lookup_insert_eq. rewrite lookup_app_r by lia.
      by replace (S (length h) - length h) with 1 by lia.
    + rewrite !lookup_insert_ne by done. specialize (Hsets letter).
      destruct (m !! letter), (positions !! letter); try done.
      by apply lookup_app_l_Some.
Qed.

Lemma noteResultH_ok (h0 h : Heap) (guess oldFixed : text) (stH : PassH) (st : Pass)
    (entry : nat * LetterResult) :
  passRep h0 h stH st →
  ∃ stH' h', noteResultH guess oldFixed stH entry h = Some (stH', h')
             ∧ passRep h0 h' stH' (noteResult guess oldFixed st entry).
Proof.
  intros (Hpre & Hfixed & Hresult & Hg0 & Hgood & Hb0 & Hbad & Hpos).
  assert (Hne : newGoodH stH ≠ newBadH stH).
  { intros Heq. rewrite Heq, Hbad in Hgood. discriminate Hgood. }
  unfold noteResultH, noteResult. destruct entry.2.
  - rewrite (bind_Some _ _ _ _ _ (bumpGood_ok _ _ _ _ Hgood)).
    eexists _, _. split; [reflexivity|]. unfold passRep. simpl. split_and!.
    + by apply prefix_store.
    + by rewrite Hfixed.
    + by rewrite Hresult.
    + done.
    + apply list_lookup_insert_eq. by eapply lookup_lt_Some.
    + done.
    + by rewrite list_lookup_insert_ne.
    + by eapply repPositions_store.
  - rewrite (bind_Some _ _ _ _ _ (bumpGood_ok _ _ _ _ Hgood)).
    match goal with |- context [copyWithPosition ?a ?l ?i] =>
      destruct (copyWithPosition_ok
                  (<[newGoodH stH := OCounts (<[l := default 0 (newGood st !! l) + 1]>
                                                (newGood st))]> h)
                  a (passBadPositions st) l i) as (ext & Hcopy & Hrep)
    end.
    { by eapply repPositions_store. }
    rewrite (bind_Some _ _ _ _ _ Hcopy).
    eexists _, _. split; [reflexivity|]. unfold passRep. simpl. split_and!.
    + by apply prefix_app_r, prefix_store.
    + by rewrite Hfixed.
    + by rewrite Hresult.
    + done.
    + apply lookup_app_l_Some, list_lookup_insert_eq. by eapply lookup_lt_Some.
    + done.
    + apply lookup_app_l_Some. by rewrite list_lookup_insert_ne.
    + done.
  - rewrite (bind_Some _ _ _ _ _ (addBad_ok _ _ _ _ Hbad)).
    eexists _, _. split; [reflexivity|]. unfold passRep. simpl. split_and!.
    + by apply prefix_store.
    + by rewrite Hfixed.
    + by rewrite Hresult.
    + done.
    + by rewrite list_lookup_insert_ne.
    + done.
    + apply list_lookup_insert_eq. by eapply lookup_lt_Some.
    + by eapply repPositions_store.
Qed.

Lemma forEach_noteResultH_ok (h0 : Heap) (guess oldFixed : text)
    (es : list (nat * LetterResult)) (h : Heap) (stH : PassH) (st : Pass) :
  passRep h0 h stH st →
  ∃ stH' h', forEach (noteResultH guess oldFixed) stH es h = Some (stH', h')
             ∧ passRep h0 h' stH' (foldl (noteResult guess oldFixed) st es).
Proof.
  revert h stH st. induction es as [|e es IH]; intros h stH st Hrep.
  - by exists stH, h.
  - destruct (noteResultH_ok h0 h guess oldFixed stH st e Hrep) as (stH1 & h1 & Hstep & Hrep1).
    destruct (IH h1 stH1 _ Hrep1) as (stH' & h' & Hloop & Hrep').
    exists stH', h'. split; [|done]. simpl. by rewrite (bind_Some _ _ _ _ _ Hstep).
Qed.

Lemma repKnown_prefix (h h' : Heap) (a : addr) (known : Known) :
  h `prefix_of` h' → repKnown h a known → repKnown h' a known.
Proof.
  intros [ext ->] (g & b & p & Ha & Hg & Hb & Hp). exists g, b, p.
  split_and!; try by apply lookup_app_l_Some. by apply repPositions_app.
Qed.

(** C10.  [updateKnown] run on the objects of a constraint state returns,
    leaves every object that existed before the call as it was -- so the
    previous state reads as it did -- and returns the address of a new object
    that reads as the updated state. *)
Theorem updateKnown_leaves_previous_state (h : Heap) (known : addr) (previous : Known)
    (guess : text) (response : list LetterResult) :
  repKnown h known previous →
  ∃ updated h',
    updateKnownH guess response known h = Some (updated, h')
    ∧ (∀ a o, h !! a = Some o → h' !! a = Some o)
    ∧ repKnown h' known previous
    ∧ length h ≤ updated
    ∧ repKnown h' updated (updateKnown guess response previous).
Proof.
  intros Hrep. pose proof Hrep as (g & b & p & Ha & Hg & Hb & Hp).
  unfold updateKnownH.
  rewrite (bind_Some _ _ _ _ _ (load_ok _ _ _ Ha)), !bind_alloc.
  set (stH0 := {| knownFixedH := []; newGoodH := length h;
                  newBadH := length (h ++ [OCounts ∅]);
                  guessResultH := guessResult previous; badPositionsH := p |}).
  set (st0 := {| knownFixed := []; newGood := ∅; newBad := ∅;
                 passGuessResult := guessResult previous;
                 passBadPositions := badPositions previous |}).
  assert (Hrep0 : passRep h ((h ++ [OCounts ∅]) ++ [OTexts ∅]) stH0 st0).
  { unfold passRep. simpl. rewrite length_app. simpl. split_and!; try done; try lia.
    - by apply prefix_app_r, prefix_app_r.
    - apply lookup_app_l_Some. by apply list_lookup_middle.
    - apply list_lookup_middle. rewrite length_app. simpl. lia.
    - by apply repPositions_app, repPositions_app. }
  destruct (forEach_noteResultH_ok h guess (fixed previous) (entries response) _ stH0 st0 Hrep0)
    as (stH & h1 & Hloop & Hrep1).
  rewrite (bind_Some _ _ _ _ _ Hloop).
  destruct Hrep1 as (Hpre & Hfixed & Hresult & Hg0 & Hgood & Hb0 & Hbad & Hpos).
  rewrite (bind_Some _ _ _ _ _ (loadCounts_ok _ _ _ (prefix_lookup_Some _ _ _ _ Hg Hpre))).
  rewrite (bind_Some _ _ _ _ _ (loadCounts_ok _ _ _ Hgood)), bind_alloc.
  rewrite (bind_Some _ _ _ _ _
             (loadCounts_ok _ _ _ (lookup_app_l_Some _ _ _ _
                                     (prefix_lookup_Some _ _ _ _ Hb Hpre)))).
  rewrite (bind_Some _ _ _ _ _ (loadTexts_ok _ _ _ (lookup_app_l_Some _ _ _ _ Hbad))).
  rewrite (bind_Some _ _ _ _ _ (loadCounts_ok _ _ _ (list_lookup_middle _ [] _ _ eq_refl))).
  rewrite bind_alloc. unfold alloc. rewrite Hfixed, Hresult.
  eexists _, _. split; [reflexivity|].
  assert (Hext : ∀ x y z, h `prefix_of` ((h1 ++ [x]) ++ [y]) ++ [z])
    by (intros; by do 3 apply prefix_app_r).
  split_and!.
  - intros a o Hao. eapply prefix_lookup_Some; [exact Hao|apply Hext].
  - eapply repKnown_prefix; [apply Hext|exact Hrep].
  - rewrite !length_app. simpl. apply prefix_length in Hpre. lia.
  - eexists _, _, _. split_and!.
    + apply list_lookup_middle. reflexivity.
    + simpl. do 2 apply lookup_app_l_Some. by apply list_lookup_middle.
    + simpl. apply lookup_app_l_Some. by apply list_lookup_middle.
    + simpl. by do 3 apply repPositions_app.
Qed.

(** The call on the store [heapEerie] with the guess "grape". *)
Lemma updateKnown_leaves_previous_state_witness :
  repKnown heapEerie 4 knownEerie
  ∧ ∃ updated h',
      updateKnownH (w "grape") (makeGuess (w "grape") (w "crane")) 4 heapEerie
      = Some (updated, h')
      ∧ (∀ a o, heapEerie !! a = Some o → h' !! a = Some o)
      ∧ repKnown h' 4 knownEerie
      ∧ length heapEerie ≤ updated
      ∧ repKnown h' updated
          (updateKnown (w "grape") (makeGuess (w "grape") (w "crane")) knownEerie).
Proof.
  split; [exact heapEerie_holds_knownEerie|].
  apply (updateKnown_leaves_previous_state heapEerie 4 knownEerie (w "grape")
           (makeGuess (w "grape") (w "crane")) heapEerie_holds_knownEerie).
Defined.

(** The call on [heapEerie] with a guess that has four letters answered
    CLOSE: thirteen objects are created behind the five that were there (the
    two the loop writes to, two for each copy of [badPositions], and the three
    of the new state), and the new state is the last of them. *)
Example updateKnownH_raced :
  ∃ h', updateKnownH (w "raced") (makeGuess (w "raced") (w "crane")) 4 heapEerie
        = Some (17, h')
        ∧ length h' = 18 ∧ take 5 h' = heapEerie.
Proof. eexists. vm_compute. split; [reflexivity|]. split; reflexivity. Qed.

(** * Further properties *)

(** ** Credit, exactly *)

Lemma classify_credit_exact (k : okey) (gs ss : list okey) (occ : gmap okey nat) :
  length (filter (λ gr : okey * LetterResult, gr.1 = k ∧ gr.2 ≠ WRONG)
            (zip gs (classify occ gs ss)))
  = length (filter (λ gs : okey * okey, gs.1 = k ∧ gs.2 = k) (zip gs ss))
    + Nat.min (default 0 (occ !! k))
        (length (filter (λ gs : okey * okey, gs.1 = k ∧ gs.2 ≠ k) (zip gs ss))).
Proof.
  revert ss occ. induction gs as [|g gs IH]; intros [|s ss] occ; simpl; try lia.
  case_decide as Hgs.
  - subst s. simpl. rewrite !filter_cons. simpl. specialize (IH ss occ).
    repeat case_decide; simpl in *; try lia; exfalso; intuition congruence.
  - rewrite !(filter_cons _ (g, s)). simpl.
    rewrite (decide_False (P := g = k ∧ s = k)) by (simpl; intuition congruence).
    destruct (occ !! g) as [[|n]|] eqn:Hg; simpl; rewrite filter_cons; simpl.
    + rewrite decide_False by (simpl; intuition congruence).
      rewrite IH. case_decide as Hk; [|done].
      destruct Hk as [-> _]. rewrite Hg. simpl. lia.
    + specialize (IH ss (<[g:=n]> occ)).
      destruct (decide (g = k)) as [->|Hne].
      * rewrite decide_True by (split; congruence).
        rewrite decide_True by (split; congruence).
        rewrite lookup_insert_eq in IH. rewrite Hg. simpl in *. lia.
      * rewrite decide_False by (simpl; intuition congruence).
        rewrite decide_False by (simpl; intuition congruence).
        rewrite lookup_insert_ne in IH by done. apply IH.
    + rewrite decide_False by (simpl; intuition congruence).
      rewrite IH. case_decide as Hk; [|done].
      destruct Hk as [-> _]. rewrite Hg. simpl. lia.
Qed.

Lemma filter_zip_fst_length {A B} (P : A → Prop) `{!∀ a, Decision (P a)}
    (xs : list A) (ys : list B) :
  length xs ≤ length ys →
  length (filter (λ xy : A * B, P xy.1) (zip xs ys)) = length (filter P xs).
Proof.
  revert ys. induction xs as [|x xs IH]; intros [|y ys] Hlen; simpl in *; try lia.
  rewrite !filter_cons. simpl. case_decide; simpl; rewrite IH by lia; done.
Qed.

Lemma filter_zip_snd_length {A B} (P : B → Prop) `{!∀ b, Decision (P b)}
    (xs : list A) (ys : list B) :
  length ys ≤ length xs →
  length (filter (λ xy : A * B, P xy.2) (zip xs ys)) = length (filter P ys).
Proof.
  revert xs. induction ys as [|y ys IH]; intros [|x xs] Hlen; simpl in *; try lia.
  rewrite !filter_cons. simpl. case_decide; simpl; rewrite IH by lia; done.
Qed.

Lemma filter_partition_length {A} (P Q R : A → Prop)
    `{!∀ a, Decision (P a)} `{!∀ a, Decision (Q a)} `{!∀ a, Decision (R a)} (l : list A) :
  (∀ a, P a → ¬ Q a) → (∀ a, R a ↔ P a ∨ Q a) →
  length (filter P l) + length (filter Q l) = length (filter R l).
Proof.
  intros Hdis Hcover. induction l as [|a l IH]; [done|].
  rewrite !filter_cons.
  destruct (decide (P a)) as [HP|HP], (decide (Q a)) as [HQ|HQ],
    (decide (R a)) as [HR|HR]; simpl; try lia;
    exfalso; first [by eapply Hdis | apply HR, Hcover; tauto
                   | apply Hcover in HR; tauto].
Qed.

Lemma makeGuess_credit (guess solution : text) (L : ascii) :
  length guess = 5 → length solution = 5 →
  credited L guess (makeGuess guess solution)
  = Nat.min (occurrences L guess) (occurrences L solution).
Proof.
  intros Hg Hs. unfold makeGuess, firstPass.
  rewrite secondPass_lettersAt, firstPass_lettersAt, !lettersAt_range5 by done.
  rewrite credited_lettersAt, classify_credit_exact.
  rewrite tallyUnclaimed_lookup, lookup_empty. simpl.
  rewrite <- !occurrences_lettersAt.
  rewrite <- (filter_zip_fst_length (λ k : okey, k = Some L) (map Some guess) (map Some solution))
    by (rewrite !length_map; lia).
  rewrite <- (filter_zip_snd_length (λ k : okey, k = Some L) (map Some guess) (map Some solution))
    by (rewrite !length_map; lia).
  set (pairs := zip (map Some guess) (map Some solution)).
  pose proof (filter_partition_length
             (λ gs : okey * okey, gs.1 = Some L ∧ gs.2 = Some L)
             (λ gs : okey * okey, gs.1 = Some L ∧ gs.2 ≠ Some L)
             (λ gs : okey * okey, gs.1 = Some L) pairs) as Hguess.
  pose proof (filter_partition_length
             (λ gs : okey * okey, gs.1 = Some L ∧ gs.2 = Some L)
             (λ gs : okey * okey, gs.2 = Some L ∧ gs.1 ≠ Some L)
             (λ gs : okey * okey, gs.2 = Some L) pairs) as Hsol.
  simpl in *.
  rewrite <- Hguess, <- Hsol.
  - lia.
  - intuition congruence.
  - intros [g s]. simpl. destruct (decide (g = Some L)); intuition congruence.
  - intuition congruence.
  - intros [g s]. simpl. destruct (decide (s = Some L)); intuition congruence.
Qed.

(** ** PERFECT and CLOSE, position by position *)

Lemma classify_perfect (gs ss : list okey) (occ : gmap okey nat) (j : nat) :
  classify occ gs ss !! j = Some PERFECT
  ↔ ∃ g, gs !! j = Some g ∧ ss !! j = Some g.
Proof.
  revert ss occ j. induction gs as [|g gs IH]; intros [|s ss] occ j; simpl.
  - split; [done|]. by intros (? & ? & ?).
  - split; [done|]. by intros (? & ? & ?).
  - split; [done|]. by intros (? & ? & ?).
  - case_decide as Hgs.
    + subst s. destruct j as [|j]; simpl; [|apply IH].
      split; [eauto|done].
    + destruct (occ !! g) as [[|n]|]; (destruct j as [|j]; simpl; [|apply IH]);
        (split; [done|]); intros (? & ? & ?); congruence.
Qed.

Lemma classify_not_perfect (gs ss : list okey) (occ : gmap okey nat) (j : nat)
    (r : LetterResult) (g s : okey) :
  classify occ gs ss !! j = Some r → r ≠ PERFECT →
  gs !! j = Some g → ss !! j = Some s → g ≠ s.
Proof.
  intros Hr Hne Hg Hs ->. apply Hne.
  assert (classify occ gs ss !! j = Some PERFECT) by (apply classify_perfect; eauto).
  congruence.
Qed.

Lemma makeGuess_classify (guess solution : text) :
  length guess = 5 → length solution = 5 →
  makeGuess guess solution
  = classify (tallyUnclaimed ∅ (zip (map Some guess) (map Some solution)))
      (map Some guess) (map Some solution).
Proof.
  intros Hg Hs. unfold makeGuess, firstPass.
  by rewrite secondPass_lettersAt, firstPass_lettersAt, !lettersAt_range5.
Qed.

Lemma makeGuess_length (guess solution : text) :
  length (makeGuess guess solution) = 5.
Proof.
  unfold makeGuess. rewrite secondPass_lettersAt, classify_length.
  unfold lettersAt. by rewrite !length_map.
Qed.

Lemma makeGuess_perfect (guess solution : text) (j : nat) :
  length guess = 5 → length solution = 5 →
  makeGuess guess solution !! j = Some PERFECT
  ↔ ∃ c, guess !! j = Some c ∧ solution !! j = Some c.
Proof.
  intros Hg Hs. rewrite makeGuess_classify, classify_perfect by done.
  rewrite !list_lookup_fmap. split.
  - intros (g & Hgj & Hsj).
    destruct (guess !! j) as [c|]; [|done]. exists c. split; [done|].
    destruct (solution !! j); simpl in *; congruence.
  - intros (c & -> & ->). by exists (Some c).
Qed.

Lemma makeGuess_all_perfect (guess solution : text) :
  length guess = 5 → length solution = 5 →
  forallb (λ position, bool_decide (position = PERFECT)) (makeGuess guess solution) = true
  ↔ guess = solution.
Proof.
  intros Hg Hs. rewrite forallb_forall. split.
  - intros Hall. apply list_eq_same_length with 5; [done..|].
    intros j c d Hj Hc Hd.
    destruct (lookup_lt_is_Some_2 (makeGuess guess solution) j) as [r Hr];
      [by rewrite makeGuess_length|].
    assert (r = PERFECT) as ->.
    { eapply bool_decide_eq_true_1. apply Hall. apply list_elem_of_In.
      by eapply list_elem_of_lookup_2. }
    apply makeGuess_perfect in Hr as (c' & ? & ?); [congruence|done..].
  - intros <- r Hr%list_elem_of_In. apply bool_decide_eq_true_2.
    apply list_elem_of_lookup in Hr as [j Hj].
    assert (j < 5) by (rewrite <- (makeGuess_length guess guess); by eapply lookup_lt_Some).
    destruct (lookup_lt_is_Some_2 guess j) as [c Hc]; [lia|].
    assert (makeGuess guess guess !! j = Some PERFECT)
      by (apply makeGuess_perfect; eauto).
    congruence.
Qed.

(** ** The filter predicate, read on letters *)

Lemma keeps_spec (known : Known) (word : text) :
  wellFormed known = true → isWord5 word = true →
  keeps known word = true
  ↔ matchesFixed (fixed known) word
    ∧ (∀ L n, good known !! [L] = Some n → n ≤ occurrences L word)
    ∧ (∀ L n, bad known !! [L] = Some n → occurrences L word < n)
    ∧ (∀ L positions position,
         badPositions known !! [L] = Some positions → position ∈ positions →
         word !! position ≠ Some L).
Proof.
  intros Hwf Hword. unfold wellFormed, isPattern5, isWord5 in *.
  rewrite !andb_true_iff in Hwf. destruct Hwf as [[[[Hlenf Hpat] Hg] Hb] Hp].
  apply andb_prop in Hword as [Hlen Hletters].
  apply Nat.eqb_eq in Hlenf, Hlen.
  unfold keeps. rewrite !andb_true_iff, !bool_decide_eq_true.
  rewrite regexTest_same_length, matchesPrefix_positional by (done || lia).
  split.
  - intros [[[Hfix Hgood] Hbad] Hpos]. repeat split; try done.
    + intros L n HL. destruct (letterKeys_lookup _ _ _ Hg HL) as (L' & ? & HL'); simplify_eq.
      rewrite <- (countOccurrences_letter L') by done. by apply (Hgood _ _ HL).
    + intros L n HL. destruct (letterKeys_lookup _ _ _ Hb HL) as (L' & ? & HL'); simplify_eq.
      rewrite <- (countOccurrences_letter L') by done. by apply (Hbad _ _ HL).
    + intros L positions position HL Hpp. apply charAt_ne. by apply (Hpos _ _ HL).
  - intros (Hfix & Hgood & Hbad & Hpos). repeat split; try done.
    + intros key n Hk. destruct (letterKeys_lookup _ _ _ Hg Hk) as (L & -> & HL).
      simpl. rewrite countOccurrences_letter by done. by apply Hgood.
    + intros key n Hk. destruct (letterKeys_lookup _ _ _ Hb Hk) as (L & -> & HL).
      simpl. rewrite countOccurrences_letter by done. by apply Hbad.
    + intros key positions Hk position Hpp.
      destruct (letterKeys_lookup _ _ _ Hp Hk) as (L & -> & HL).
      apply charAt_ne. by eapply Hpos.
Qed.

(** ** What the loop of [updateKnown] collects *)

Lemma foldl_noteResult_newGood (guess oldFixed : text) (key : text)
    (es : list (nat * LetterResult)) (st : Pass) :
  default 0 (newGood (foldl (noteResult guess oldFixed) st es) !! key)
  = default 0 (newGood st !! key)
    + length (filter (λ e : nat * LetterResult,
                        toText (guess !! e.1) = key ∧ e.2 ≠ WRONG) es).
Proof.
  revert st. induction es as [|[i r] es IH]; intros st; simpl; [lia|].
  rewrite IH, filter_cons. simpl.
  destruct r; simpl.
  - destruct (decide (toText (guess !! i) = key)) as [<-|Hne].
    + rewrite decide_True by done. rewrite lookup_insert_eq. simpl. lia.
    + rewrite decide_False by tauto. by rewrite lookup_insert_ne.
  - destruct (decide (toText (guess !! i) = key)) as [<-|Hne].
    + rewrite decide_True by done. rewrite lookup_insert_eq. simpl. lia.
    + rewrite decide_False by tauto. by rewrite lookup_insert_ne.
  - rewrite decide_False by tauto. done.
Qed.

Lemma foldl_noteResult_newBad (guess oldFixed : text) (key : text)
    (es : list (nat * LetterResult)) (st : Pass) :
  key ∈ newBad (foldl (noteResult guess oldFixed) st es)
  ↔ key ∈ newBad st
    ∨ ∃ i, (i, WRONG) ∈ es ∧ toText (guess !! i) = key.
Proof.
  revert st. induction es as [|[i r] es IH]; intros st; simpl.
  - split; [tauto|]. intros [?|(i & Hi & _)]; [done|]. by apply elem_of_nil in Hi.
  - rewrite IH. destruct r; simpl.
    + split.
      * intros [?|(j & Hj & ?)]; [tauto|]. right. exists j. split; [by right|done].
      * intros [?|(j & Hj & ?)]; [tauto|]. right. exists j.
        apply elem_of_cons in Hj as [[=]|Hj]; done.
    + split.
      * intros [?|(j & Hj & ?)]; [tauto|]. right. exists j. split; [by right|done].
      * intros [?|(j & Hj & ?)]; [tauto|]. right. exists j.
        apply elem_of_cons in Hj as [[=]|Hj]; done.
    + rewrite elem_of_union, elem_of_singleton. split.
      * intros [[->|?]|(j & Hj & ?)]; [|tauto|].
        -- right. exists i. split; [by left|done].
        -- right. exists j. split; [by right|done].
      * intros [?|(j & Hj & ?)]; [tauto|].
        apply elem_of_cons in Hj as [[= -> ]|Hj]; [left; left; done|].
        right. by exists j.
Qed.

Lemma foldl_noteResult_badPositions (guess oldFixed : text) (key : text) (p : nat)
    (es : list (nat * LetterResult)) (st : Pass) :
  p ∈ default ∅ (passBadPositions (foldl (noteResult guess oldFixed) st es) !! key)
  ↔ p ∈ default ∅ (passBadPositions st !! key)
    ∨ ((p, CLOSE) ∈ es ∧ toText (guess !! p) = key).
Proof.
  revert st. induction es as [|[i r] es IH]; intros st; simpl.
  - split; [tauto|]. intros [?|[Hi _]]; [done|]. by apply elem_of_nil in Hi.
  - rewrite IH. destruct r; simpl.
    + split.
      * intros [?|[Hj ?]]; [tauto|]. right. split; [by right|done].
      * intros [?|[Hj ?]]; [tauto|]. right.
        apply elem_of_cons in Hj as [[=]|Hj]; done.
    + destruct (decide (toText (guess !! i) = key)) as [<-|Hne].
      * rewrite lookup_insert_eq. simpl. rewrite elem_of_union, elem_of_singleton. split.
        -- intros [[->|?]|[Hj ?]]; [|tauto|].
           ++ right. split; [by left|done].
           ++ right. split; [by right|done].
        -- intros [?|[Hj Hk]]; [tauto|].
           apply elem_of_cons in Hj as [[= ->]|Hj]; [tauto|]. by right.
      * rewrite lookup_insert_ne by done. split.
        -- intros [?|[Hj ?]]; [tauto|]. right. split; [by right|done].
        -- intros [?|[Hj Hk]]; [tauto|]. right.
           apply elem_of_cons in Hj as [[= ->]|Hj]; done.
    + split.
      * intros [?|[Hj ?]]; [tauto|]. right. split; [by right|done].
      * intros [?|[Hj ?]]; [tauto|]. right.
        apply elem_of_cons in Hj as [[=]|Hj]; done.
Qed.

Lemma toText_singleton (v : option ascii) (L : ascii) :
  toText v = [L] ↔ v = Some L.
Proof.
  destruct v as [c|]; simpl.
  - split; congruence.
  - split; [|done]. unfold undefinedText. simpl. discriminate.
Qed.

Lemma elem_of_zip_seq {A} (l : list A) (start i : nat) (x : A) :
  (i, x) ∈ zip (seq start (length l)) l ↔ start ≤ i ∧ l !! (i - start) = Some x.
Proof.
  revert start. induction l as [|y l IH]; intros start; simpl.
  - split; [by intros ?%elem_of_nil|]. by intros [_ ?].
  - rewrite elem_of_cons, IH. split.
    + intros [[= -> ->]|[Hle Hx]].
      * split; [lia|]. by rewrite Nat.sub_diag.
      * split; [lia|]. by replace (i - start) with (S (i - S start)) by lia.
    + intros [Hle Hx]. destruct (decide (i = start)) as [->|Hne].
      * left. rewrite Nat.sub_diag in Hx. simpl in Hx. congruence.
      * right. split; [lia|].
        by replace (i - start) with (S (i - S start)) in Hx by lia.
Qed.

Lemma elem_of_entries {A} (l : list A) (i : nat) (x : A) :
  (i, x) ∈ entries l ↔ l !! i = Some x.
Proof.
  unfold entries. rewrite elem_of_zip_seq, Nat.sub_0_r. split; [tauto|]. split; [lia|done].
Qed.

Lemma zip_seq_credited (L : ascii) (response : list LetterResult) (guess pre : text) :
  length response ≤ length guess →
  length (filter (λ e : nat * LetterResult,
                    toText ((pre ++ guess) !! e.1) = [L] ∧ e.2 ≠ WRONG)
            (zip (seq (length pre) (length response)) response))
  = length (filter (λ gr : ascii * LetterResult, gr.1 = L ∧ gr.2 ≠ WRONG)
              (zip guess response)).
Proof.
  revert guess pre. induction response as [|r rs IH]; intros [|g gs] pre Hlen;
    simpl in *; try done; try lia.
  rewrite !filter_cons. simpl. rewrite list_lookup_middle by done. simpl.
  specialize (IH gs (pre ++ [g])). rewrite length_app, <- app_assoc in IH.
  simpl in IH. rewrite Nat.add_1_r in IH.
  destruct (decide (g = L)) as [->|Hne].
  - destruct (decide (r ≠ WRONG)).
    + rewrite !decide_True by done. simpl. rewrite IH by lia. done.
    + rewrite !decide_False by tauto. rewrite IH by lia. done.
  - rewrite !decide_False by (intros [? ?]; congruence). rewrite IH by lia. done.
Qed.

Lemma entries_credited (L : ascii) (guess : text) (response : list LetterResult) :
  length response ≤ length guess →
  length (filter (λ e : nat * LetterResult,
                    toText (guess !! e.1) = [L] ∧ e.2 ≠ WRONG) (entries response))
  = credited L guess response.
Proof.
  intros Hlen. apply (zip_seq_credited L response guess [] Hlen).
Qed.

Lemma filter_length_pos {A} (P : A → Prop) `{!∀ a, Decision (P a)} (l : list A) (x : A) :
  x ∈ l → P x → 0 < length (filter P l).
Proof.
  intros Hx HP. assert (x ∈ filter P l) as Hin by (by apply list_elem_of_filter).
  destruct (filter P l); [by apply elem_of_nil in Hin|simpl; lia].
Qed.

Lemma wrong_not_credited (L : ascii) (guess : text) (response : list LetterResult)
    (i : nat) :
  length guess = length response →
  guess !! i = Some L → response !! i = Some WRONG →
  credited L guess response < occurrences L guess.
Proof.
  intros Hlen Hg Hr. unfold credited, occurrences.
  rewrite <- (filter_zip_fst_length (λ c, c = L) guess response) by lia.
  pose proof (filter_partition_length
             (λ gr : ascii * LetterResult, gr.1 = L ∧ gr.2 ≠ WRONG)
             (λ gr : ascii * LetterResult, gr.1 = L ∧ gr.2 = WRONG)
             (λ gr : ascii * LetterResult, gr.1 = L) (zip guess response)) as Hsplit.
  simpl in Hsplit. rewrite <- Hsplit.
  - assert (0 < length (filter (λ gr : ascii * LetterResult, gr.1 = L ∧ gr.2 = WRONG)
                          (zip guess response))); [|lia].
    apply (filter_length_pos _ _ (L, WRONG)); [|done].
    apply list_elem_of_lookup. exists i. apply lookup_zip_with_Some. eauto.
  - intuition congruence.
  - intros [g r]. simpl. destruct (decide (r = WRONG)); intuition congruence.
Qed.

Lemma mergeGood_grows_new (oldGood newGood : gmap text nat) (key : text) :
  default 0 (newGood !! key) ≤ default 0 (mergeGood oldGood newGood !! key).
Proof.
  rewrite mergeGood_lookup.
  destruct (oldGood !! key), (newGood !! key); simpl; lia.
Qed.

Lemma consistent_wellFormed (known : Known) :
  consistent known = true → wellFormed known = true.
Proof. unfold consistent. by intros [? _]%andb_prop. Qed.

Lemma isWord5_length (word : text) : isWord5 word = true → length word = 5.
Proof. unfold isWord5. by intros [?%Nat.eqb_eq _]%andb_prop. Qed.

(** What an update does to [good], [bad] and [badPositions], letter by
    letter. *)
Lemma updateKnown_good (guess : text) (response : list LetterResult) (known : Known)
    (L : ascii) :
  length response ≤ length guess →
  default 0 (good (updateKnown guess response known) !! [L])
  = Nat.max (default 0 (good known !! [L])) (credited L guess response).
Proof.
  intros Hlen. unfold updateKnown. simpl. rewrite mergeGood_lookup.
  pose proof (foldl_noteResult_newGood guess (fixed known) [L] (entries response)
    {| knownFixed := []; newGood := ∅; newBad := ∅;
       passGuessResult := guessResult known;
       passBadPositions := badPositions known |}) as Hnew.
  simpl in Hnew. rewrite lookup_empty, entries_credited in Hnew by done. simpl in Hnew.
  rewrite <- Hnew.
  destruct (good known !! [L]), (newGood _ !! [L]); simpl; lia.
Qed.

Lemma updateKnown_bad (guess : text) (response : list LetterResult) (known : Known)
    (L : ascii) :
  ((∃ i, response !! i = Some WRONG ∧ guess !! i = Some L) →
   bad (updateKnown guess response known) !! [L]
   = Some (default 0 (good (updateKnown guess response known) !! [L]) + 1))
  ∧ (¬ (∃ i, response !! i = Some WRONG ∧ guess !! i = Some L) →
     bad (updateKnown guess response known) !! [L] = bad known !! [L]).
Proof.
  unfold updateKnown. simpl. rewrite mergeBad_lookup.
  pose proof (foldl_noteResult_newBad guess (fixed known) [L] (entries response)
    {| knownFixed := []; newGood := ∅; newBad := ∅;
       passGuessResult := guessResult known;
       passBadPositions := badPositions known |}) as Hnew.
  simpl in Hnew. split; intros Hex; case_decide as Hin; try done; exfalso.
  - apply Hin, Hnew. right. destruct Hex as (i & Hi & Hg). exists i.
    split; [by apply elem_of_entries|by apply toText_singleton].
  - apply Hnew in Hin as [Hin|(i & Hi & Ht)]; [set_solver|].
    apply Hex. exists i. split; [by apply elem_of_entries|by apply toText_singleton].
Qed.

Lemma updateKnown_badPositions (guess : text) (response : list LetterResult)
    (known : Known) (L : ascii) (p : nat) :
  p ∈ default ∅ (badPositions (updateKnown guess response known) !! [L])
  ↔ p ∈ default ∅ (badPositions known !! [L])
    ∨ (response !! p = Some CLOSE ∧ guess !! p = Some L).
Proof.
  unfold updateKnown. simpl.
  rewrite foldl_noteResult_badPositions. simpl.
  by rewrite elem_of_entries, toText_singleton.
Qed.

Lemma classic_wrong (guess : text) (response : list LetterResult) (L : ascii) :
  (∃ i, response !! i = Some WRONG ∧ guess !! i = Some L)
  ∨ ¬ (∃ i, response !! i = Some WRONG ∧ guess !! i = Some L).
Proof.
  destruct (decide (Exists (λ gr : ascii * LetterResult, gr.1 = L ∧ gr.2 = WRONG)
                      (zip guess response))) as [Hex|Hex].
  - left. apply Exists_exists in Hex as ([g r] & Hin & Hg & Hr). simpl in *. subst.
    apply list_elem_of_lookup in Hin as [i Hi].
    apply lookup_zip_with_Some in Hi as (g & r & [= <- <-] & Hgi & Hri). eauto.
  - right. intros (i & Hr & Hg). apply Hex, Exists_exists. exists (L, WRONG).
    split; [|done]. apply list_elem_of_lookup. exists i.
    apply lookup_zip_with_Some. eauto.
Qed.

(** ** Feedback that comes from a solution *)

Lemma makeGuess_imperfect (guess solution : text) (j : nat) (r : LetterResult) (c : ascii) :
  length guess = 5 → length solution = 5 →
  makeGuess guess solution !! j = Some r → r ≠ PERFECT →
  guess !! j = Some c → solution !! j ≠ Some c.
Proof.
  intros Hg Hs Hr Hne Hc Hd.
  assert (makeGuess guess solution !! j = Some PERFECT)
    by (apply makeGuess_perfect; eauto).
  congruence.
Qed.

Lemma makeGuess_wrong_exhausts (guess solution : text) (i : nat) (L : ascii) :
  length guess = 5 → length solution = 5 →
  makeGuess guess solution !! i = Some WRONG → guess !! i = Some L →
  credited L guess (makeGuess guess solution) = occurrences L solution
  ∧ occurrences L solution < occurrences L guess.
Proof.
  intros Hg Hs Hr Hc.
  pose proof (wrong_not_credited L guess (makeGuess guess solution) i) as Hlt.
  rewrite makeGuess_length in Hlt. specialize (Hlt Hg Hc Hr).
  rewrite makeGuess_credit in * by done. lia.
Qed.

Lemma keeps_after_guess (known : Known) (guess solution : text) :
  consistent known = true → isWord5 guess = true → isWord5 solution = true →
  keeps known solution = true →
  keeps (updateKnown guess (makeGuess guess solution) known) solution = true.
Proof.
  intros Hcons Hguess Hsol Hkeeps.
  pose proof (isWord5_length _ Hguess) as Hg.
  pose proof (isWord5_length _ Hsol) as Hs.
  pose proof (makeGuess_length guess solution) as Hr.
  pose proof (updateKnown_consistent guess _ known Hcons Hguess Hr) as Hcons'.
  apply consistent_wellFormed in Hcons'.
  apply keeps_spec in Hkeeps as (Hfix & Hgood & Hbad & Hpos);
    [|by apply consistent_wellFormed|done].
  apply keeps_spec; [done..|].
  destruct (consistent_inv _ Hcons) as (Hlenf & _).
  split_and!.
  - rewrite updateKnown_fixed by done. unfold nextFixed. intros i c Hi.
    apply lookup_zip_with_Some in Hi as (r & [g f] & -> & Hri & Hgf).
    apply lookup_zip_with_Some in Hgf as (g' & f' & [= <- <-] & Hgi & Hfi). simpl.
    case_decide as Hp.
    + subst r. apply makeGuess_perfect in Hri as (c & ? & ?); [|done..].
      right. congruence.
    + by apply (Hfix i).
  - intros L n HL.
    pose proof (updateKnown_good guess (makeGuess guess solution) known L) as Hn.
    rewrite HL, Hr, Hg, makeGuess_credit in Hn by done. simpl in Hn.
    specialize (Hn (le_n _)).
    destruct (good known !! [L]) as [m|] eqn:Hm; simpl in Hn.
    + specialize (Hgood L m Hm). lia.
    + lia.
  - intros L n HL.
    destruct (updateKnown_bad guess (makeGuess guess solution) known L) as [Hnew Hold].
    destruct (classic_wrong guess (makeGuess guess solution) L) as [Hex|Hex].
    + pose proof (updateKnown_good guess (makeGuess guess solution) known L) as Hn.
      rewrite Hr, Hg in Hn. specialize (Hn (le_n _)).
      rewrite (Hnew Hex) in HL. destruct Hex as (i & Hi & Hc).
      destruct (makeGuess_wrong_exhausts guess solution i L) as [Hcr _]; try done.
      rewrite Hcr in Hn.
      set (count := default 0 (good (updateKnown guess (makeGuess guess solution) known)
                                 !! [L])) in *.
      assert (n = count + 1) by congruence. lia.
    + rewrite (Hold Hex) in HL. by apply (Hbad L).
  - intros L positions p HL Hp.
    assert (p ∈ default ∅ (badPositions (updateKnown guess (makeGuess guess solution) known)
                              !! [L])) as Hin by (by rewrite HL).
    apply updateKnown_badPositions in Hin as [Hin|[Hclose Hc]].
    + destruct (badPositions known !! [L]) as [ps|] eqn:Hps; simpl in Hin; [|set_solver].
      by apply (Hpos L ps).
    + by apply (makeGuess_imperfect guess solution p CLOSE).
Qed.

Lemma not_all_perfect (response : list LetterResult) :
  forallb (λ position, bool_decide (position = PERFECT)) response = false →
  ∃ i r, response !! i = Some r ∧ r ≠ PERFECT.
Proof.
  induction response as [|r rs IH]; simpl; [done|].
  intros [Hr|Hrs]%andb_false_iff.
  - exists 0, r. split; [done|]. by apply bool_decide_eq_false in Hr.
  - destruct (IH Hrs) as (i & r' & ? & ?). by exists (S i), r'.
Qed.

Lemma guess_rejected (known : Known) (guess solution : text) :
  consistent known = true → isWord5 guess = true → isWord5 solution = true →
  keeps known solution = true → guess ≠ solution →
  keeps (updateKnown guess (makeGuess guess solution) known) guess = false.
Proof.
  intros Hcons Hguess Hsol Hkeeps Hne.
  pose proof (isWord5_length _ Hguess) as Hg.
  pose proof (isWord5_length _ Hsol) as Hs.
  pose proof (makeGuess_length guess solution) as Hr.
  pose proof (updateKnown_consistent guess _ known Hcons Hguess Hr) as Hcons'.
  apply consistent_wellFormed in Hcons'.
  apply keeps_spec in Hkeeps as (Hfix & Hgood & Hbad & Hpos);
    [|by apply consistent_wellFormed|done].
  apply not_true_is_false. intros Hk.
  apply keeps_spec in Hk as (_ & _ & Hbad' & Hpos'); [|done..].
  destruct (not_all_perfect (makeGuess guess solution)) as (i & r & Hi & Hrne).
  { apply not_true_is_false. by rewrite makeGuess_all_perfect. }
  assert (i < 5) as Hlt by (rewrite <- Hr; by eapply lookup_lt_Some).
  destruct (lookup_lt_is_Some_2 guess i) as [c Hc]; [lia|].
  destruct r; [done| |].
  - assert (i ∈ default ∅ (badPositions (updateKnown guess (makeGuess guess solution) known)
                              !! [c])) as Hin
      by (apply updateKnown_badPositions; by right).
    destruct (badPositions (updateKnown guess (makeGuess guess solution) known) !! [c])
      as [ps|] eqn:Hps; simpl in Hin; [|set_solver].
    by apply (Hpos' c ps i).
  - destruct (updateKnown_bad guess (makeGuess guess solution) known c) as [Hnew _].
    specialize (Hnew (ex_intro _ i (conj Hi Hc))).
    pose proof (updateKnown_good guess (makeGuess guess solution) known c) as Hn.
    rewrite Hr, Hg in Hn. specialize (Hn (le_n _)).
    destruct (makeGuess_wrong_exhausts guess solution i c) as [Hcr Hless]; try done.
    rewrite Hcr in Hn.
    set (count := default 0 (good (updateKnown guess (makeGuess guess solution) known)
                               !! [c])) in *.
    specialize (Hbad' c (count + 1) Hnew).
    destruct (good known !! [c]) as [m|] eqn:Hm; simpl in Hn.
    + specialize (Hgood c m Hm). lia.
    + lia.
Qed.

(** ** The word [chooseWord] returns *)

Lemma foldl_pick_elem {A} (c : A → A → bool) (l : list A) (x : A) :
  foldl (λ best next, if c best next then best else next) x l ∈ x :: l.
Proof.
  revert x. induction l as [|y l IH]; intros x; simpl; [by left|].
  destruct (c x y).
  - specialize (IH x). apply elem_of_cons in IH as [->|?]; [by left|by right; right].
  - right. apply IH.
Qed.

Lemma chooseWord_elem (threadWords : list (list text)) (guessPool : list text)
    (guess : text) :
  chooseWord threadWords guessPool = Some guess → guess ∈ guessPool.
Proof.
  unfold chooseWord, reduce1. destruct guessPool as [|first pool]; [done|].
  intros [= <-].
  apply (foldl_pick_elem
           (λ best next, fgt (scoreWords best (map scoreLetters threadWords) threadWords)
                             (scoreWords next (map scoreLetters threadWords) threadWords))).
Qed.

Lemma chooseWord_is_Some (threadWords : list (list text)) (guessPool : list text) :
  guessPool ≠ [] → is_Some (chooseWord threadWords guessPool).
Proof.
  unfold chooseWord, reduce1. destruct guessPool; [done|]. by eexists.
Qed.

(** ** Candidate lists through [narrow] *)

Lemma narrow_inr_subset (newKnown : list Known) (threadWords threadWords' : list (list text))
    (start : nat) :
  narrow start newKnown threadWords = inr threadWords' →
  ∀ j words', threadWords' !! j = Some words' →
    ∃ words, threadWords !! j = Some words ∧ ∀ word, word ∈ words' → word ∈ words.
Proof.
  revert threadWords' start.
  induction threadWords as [|words rest IH]; intros threadWords' start; simpl.
  - intros [= <-] j words' Hj. done.
  - destruct (newKnown !! start) as [known|]; [|done].
    destruct (solved known).
    + destruct (narrow (S start) newKnown rest) as [e|rest'] eqn:Hrest; [done|].
      intros [= <-] [|j] words' Hj; simpl in *.
      * injection Hj as <-. exists words. split; [done|]. by intros ? ?%elem_of_nil.
      * by eapply IH.
    + case_decide; [done|].
      destruct (narrow (S start) newKnown rest) as [e|rest'] eqn:Hrest; [done|].
      intros [= <-] [|j] words' Hj; simpl in *.
      * injection Hj as <-. exists words. split; [done|].
        intros word Hw. unfold filterWords in Hw. by apply list_elem_of_filter in Hw as [_ ?].
      * by eapply IH.
Qed.

Lemma narrow_no_TypeError (newKnown : list Known) (threadWords : list (list text))
    (start : nat) :
  start + length threadWords ≤ length newKnown →
  narrow start newKnown threadWords ≠ inl TypeError.
Proof.
  revert start. induction threadWords as [|words rest IH]; intros start Hlen; simpl in *.
  - done.
  - destruct (lookup_lt_is_Some_2 newKnown start) as [known Hk]; [lia|]. rewrite Hk.
    specialize (IH (S start)).
    destruct (solved known).
    + destruct (narrow (S start) newKnown rest) as [e|rest'] eqn:Hrest; [|done].
      intros [= ->]. apply IH; [lia|done].
    + case_decide; [done|].
      destruct (narrow (S start) newKnown rest) as [e|rest'] eqn:Hrest; [|done].
      intros [= ->]. apply IH; [lia|done].
Qed.

(** ** After the loop *)

Lemma finish_boards (threadKnown : list Known) :
  threadKnown ≠ [] →
  finish threadKnown = if forallb solved threadKnown then Score else YouLost.
Proof. by destruct threadKnown. Qed.

Lemma someUnsolved_boards (threadKnown : list Known) :
  someUnsolved threadKnown → threadKnown ≠ [].
Proof. intros (i & known & Hi & _) ->. by rewrite lookup_nil in Hi. Qed.

Lemma playRound_break_length (cfg : Config) (allWords : list text) (hasSolutions : bool)
    (solutions : list text) (player : Player) (n : nat)
    (threadKnown threadKnown' : list Known) (threadWords : list (list text)) :
  outcome (playRound cfg allWords hasSolutions solutions player n threadKnown threadWords)
  = Break threadKnown' →
  length threadKnown' = length threadKnown.
Proof.
  unfold playRound. simpl.
  destruct (pickGuess cfg allWords player n threadKnown threadWords).2 as [guess|];
    [|done].
  destruct (forallb solved _) eqn:Hall.
  - intros [= <-]. by rewrite length_imap.
  - by destruct (narrow 0 _ threadWords).
Qed.

Lemma break_boards (cfg : Config) (allWords : list text) (hasSolutions : bool)
    (solutions : list text) (player : Player) (n : nat)
    (threadKnown threadKnown' : list Known) (threadWords : list (list text)) :
  someUnsolved threadKnown →
  outcome (playRound cfg allWords hasSolutions solutions player n threadKnown threadWords)
  = Break threadKnown' →
  threadKnown' ≠ [].
Proof.
  intros Hsome%someUnsolved_boards Hlen%playRound_break_length ->.
  destruct threadKnown; done.
Qed.

(** ** Boards played against known solutions *)

Lemma keeps_nothingKnown (word : text) :
  isWord5 word = true → keeps nothingKnown word = true.
Proof.
  intros Hword. apply keeps_spec; [done..|]. split_and!.
  - intros i c Hi. left.
    do 5 (destruct i as [|i]; [simpl in Hi; congruence|]). done.
  - intros L n HL. done.
  - intros L n HL. done.
  - intros L positions position HL. done.
Qed.

Lemma forallb_isWord5_elem (words : list text) (word : text) :
  forallb isWord5 words = true → word ∈ words → isWord5 word = true.
Proof.
  rewrite forallb_forall. intros Hall Hin. by apply Hall, list_elem_of_In.
Qed.

Lemma forallb_isWord5_filter (words : list text) (known : Known) :
  forallb isWord5 words = true → forallb isWord5 (filterWords words known) = true.
Proof.
  rewrite !forallb_forall. intros Hall word Hin%list_elem_of_In.
  apply list_elem_of_filter in Hin as [_ Hin]. by apply Hall, list_elem_of_In.
Qed.

Lemma elem_of_concat {A} (x : A) (ls : list (list A)) :
  x ∈ concat ls ↔ ∃ l, x ∈ l ∧ l ∈ ls.
Proof.
  induction ls as [|l ls IH]; simpl.
  - split; [by intros ?%elem_of_nil|]. intros (l & _ & Hl). by apply elem_of_nil in Hl.
  - rewrite elem_of_app, IH. split.
    + intros [?|(l' & ? & ?)]; [exists l; split; [done|by left]|].
      exists l'. split; [done|by right].
    + intros (l' & Hx & [->|Hl]%elem_of_cons); [by left|]. right. by exists l'.
Qed.

Section Simulation.
Variables (cfg : Config) (allWords : list text) (solutions : list text) (player : Player).
Hypothesis dictionary_words : forallb isWord5 allWords = true.
Hypothesis solutions_known : ∀ solution, solution ∈ solutions → solution ∈ allWords.
Hypothesis typed_guesses :
  ∀ n, requestGuess player n ≠ [] → requestGuess player n ∈ allWords.

Lemma pickGuess_sim (n : nat) (threadKnown : list Known) (threadWords : list (list text)) :
  boardsOk solutions threadKnown threadWords → someUnsolved threadKnown →
  ∃ guess,
    (pickGuess cfg allWords player n threadKnown threadWords).2 = Some guess
    ∧ isWord5 guess = true.
Proof.
  intros (Hlk & Hlw & Hboards) (i & known & Hi & Hunsolved).
  destruct (lookup_lt_is_Some_2 solutions i) as [solution Hsol];
    [rewrite <- Hlk; by eapply lookup_lt_Some|].
  destruct (lookup_lt_is_Some_2 threadWords i) as [words Hwords];
    [rewrite Hlw, <- Hlk; by eapply lookup_lt_Some|].
  destruct (Hboards i solution known words Hsol Hi Hwords) as (_ & _ & _ & Hin).
  specialize (Hin Hunsolved).
  assert (solution ∈ allWords) as Hdict
    by (apply solutions_known; by eapply list_elem_of_lookup_2).
  unfold pickGuess. case_decide as Htyped.
  - eexists. split; [done|]. simpl.
    destruct (freeMode cfg); [|done].
    eapply forallb_isWord5_elem; [exact dictionary_words|by apply typed_guesses].
  - simpl.
    assert (guessPool cfg allWords n threadKnown threadWords ≠ []) as Hpool.
    { unfold guessPool. destruct (_ || _).
      - intros Hnil. assert (solution ∈ concat threadWords) as Hc.
        { apply elem_of_concat. exists words. split; [done|].
          by eapply list_elem_of_lookup_2. }
        rewrite Hnil in Hc. by apply elem_of_nil in Hc.
      - intros Hnil. rewrite Hnil in Hdict. by apply elem_of_nil in Hdict. }
    destruct (chooseWord_is_Some threadWords _ Hpool) as [guess Hguess].
    exists guess. split; [done|].
    apply chooseWord_elem in Hguess. unfold guessPool in Hguess.
    destruct (_ || _).
    + apply elem_of_concat in Hguess as (words' & Hg & Hw).
      apply list_elem_of_lookup in Hw as [j Hj].
      destruct (lookup_lt_is_Some_2 solutions j) as [solution' Hsol'];
        [rewrite <- Hlw; by eapply lookup_lt_Some|].
      destruct (lookup_lt_is_Some_2 threadKnown j) as [known' Hknown'];
        [rewrite Hlk, <- Hlw; by eapply lookup_lt_Some|].
      destruct (Hboards j solution' known' words' Hsol' Hknown' Hj) as (_ & _ & Hall & _).
      by eapply forallb_isWord5_elem.
    + by eapply forallb_isWord5_elem.
Qed.

Lemma answerThread_sim (n : nat) (guess : text) (i : nat) (solution : text)
    (known : Known) (words : list text) :
  isWord5 guess = true → solutions !! i = Some solution →
  boardOk solution known words →
  boardOk solution (answerThread true solutions player n guess i known) words
  ∧ (solved known = true → answerThread true solutions player n guess i known = known).
Proof.
  intros Hguess Hsol (Hcons & Hkeeps & Hall & Hin).
  assert (isWord5 solution = true) as Hword.
  { eapply forallb_isWord5_elem; [exact dictionary_words|].
    apply solutions_known. by eapply list_elem_of_lookup_2. }
  unfold answerThread. destruct (solved known) eqn:Hsolved.
  - split; [|done]. split_and!; try done. by rewrite Hsolved.
  - split; [|done]. rewrite Hsol. simpl. split_and!.
    + apply updateKnown_consistent; [done..|apply makeGuess_length].
    + by apply keeps_after_guess.
    + done.
    + intros _. by apply Hin.
Qed.

Lemma playRound_sim (n : nat) (threadKnown : list Known) (threadWords : list (list text)) :
  boardsOk solutions threadKnown threadWords → someUnsolved threadKnown →
  match outcome (playRound cfg allWords true solutions player n threadKnown threadWords) with
  | Continue threadKnown' threadWords' =>
      boardsOk solutions threadKnown' threadWords' ∧ someUnsolved threadKnown'
  | Break threadKnown' => forallb solved threadKnown' = true
  | Abort _ => False
  end.
Proof.
  intros Hok Hsome.
  destruct (pickGuess_sim n threadKnown threadWords Hok Hsome) as (guess & Hpick & Hguess).
  destruct Hok as (Hlk & Hlw & Hboards).
  unfold playRound. simpl. rewrite Hpick.
  set (newKnown := imap (answerThread true solutions player n guess) threadKnown).
  assert (length newKnown = length solutions) as Hln
    by (unfold newKnown; by rewrite length_imap).
  assert (Hnew : ∀ i solution known' words,
            solutions !! i = Some solution → newKnown !! i = Some known' →
            threadWords !! i = Some words →
            boardOk solution known' words
            ∧ ∃ known, threadKnown !! i = Some known
                ∧ (solved known = true → known' = known)).
  { intros i solution known' words Hsol Hk' Hw. unfold newKnown in Hk'.
    rewrite list_lookup_imap in Hk'.
    destruct (threadKnown !! i) as [known|] eqn:Hk; [|done]. injection Hk' as <-.
    destruct (answerThread_sim n guess i solution known words Hguess Hsol) as [Hb Hs];
      [by eapply Hboards|].
    split; [done|]. by exists known. }
  destruct (forallb solved newKnown) eqn:Hall; [done|].
  destruct (narrow 0 newKnown threadWords) as [e|threadWords'] eqn:Hnarrow.
  - assert (narrow 0 newKnown threadWords ≠ inl TypeError) as Hnt
      by (apply narrow_no_TypeError; simpl; lia).
    rewrite Hnarrow in Hnt.
    apply narrow_inl in Hnarrow as [->|(j & words & known' & -> & Hw & Hk' & Hun & Hempty)].
    + done.
    + simpl in Hk'.
      destruct (lookup_lt_is_Some_2 solutions j) as [solution Hsol];
        [rewrite <- Hlw; by eapply lookup_lt_Some|].
      destruct (Hnew j solution known' words Hsol Hk' Hw)
        as [(_ & Hkeeps & _ & Hin) _].
      assert (solution ∈ filterWords words known') as Hf
        by (apply list_elem_of_filter; split; [by rewrite Hkeeps|by apply Hin]).
      rewrite Hempty in Hf. by apply elem_of_nil in Hf.
  - pose proof (narrow_inr _ _ _ _ Hnarrow) as [Hlen Hrows].
    split.
    + split_and!; [done|lia|].
      intros i solution known' words' Hsol Hk' Hw'.
      destruct (lookup_lt_is_Some_2 threadWords i) as [words Hw];
        [rewrite Hlw; by eapply lookup_lt_Some|].
      destruct (Hrows i words known' Hw Hk') as [Hrow _].
      rewrite Hrow in Hw'. injection Hw' as <-.
      destruct (Hnew i solution known' words Hsol Hk' Hw)
        as [(Hcons & Hkeeps & Hwords & Hin) _].
      split_and!; [done..| |].
      * destruct (solved known'); [done|]. by apply forallb_isWord5_filter.
      * intros Hun. rewrite Hun.
        apply list_elem_of_filter. split; [by rewrite Hkeeps|by apply Hin].
    + apply not_true_iff_false in Hall.
      destruct (decide (Exists (λ known, solved known = false) newKnown)) as [Hex|Hex].
      * apply Exists_exists in Hex as (known & Hin & Hun).
        apply list_elem_of_lookup in Hin as [i Hi]. by exists i, known.
      * exfalso. apply Hall, forallb_forall. intros known Hin%list_elem_of_In.
        apply not_false_iff_true. intros Hun. apply Hex, Exists_exists. eauto.
Qed.

Lemma playRounds_sim (roundNumbers : list nat) (threadKnown : list Known)
    (threadWords : list (list text)) :
  boardsOk solutions threadKnown threadWords → someUnsolved threadKnown →
  let result := playRounds cfg allWords true solutions player roundNumbers
                  threadKnown threadWords in
  (result.2 = Score ∨ result.2 = YouLost)
  ∧ Forall roundCompleted result.1.
Proof.
  revert threadKnown threadWords.
  induction roundNumbers as [|n later IH]; intros threadKnown threadWords Hok Hsome.
  - simpl. split; [|done]. rewrite finish_boards by (by apply someUnsolved_boards).
    destruct (forallb solved threadKnown); [by left|by right].
  - cbv zeta. rewrite playRounds_cons. cbv zeta.
    pose proof (playRound_sim n threadKnown threadWords Hok Hsome) as Hround.
    unfold roundCompleted.
    destruct (outcome (playRound cfg allWords true solutions player n
                         threadKnown threadWords)) as [known' words'|known'|e] eqn:Hout.
    + destruct Hround as [Hok' Hsome'].
      destruct (IH known' words' Hok' Hsome') as [Hexit Hall].
      split; [done|]. apply Forall_cons. split; [by rewrite Hout|done].
    + split.
      * simpl. rewrite finish_boards by (by eapply break_boards).
        rewrite Hround. by left.
      * apply Forall_cons. split; [by rewrite Hout|done].
    + done.
Qed.

End Simulation.

(** ** How a round ends *)

Lemma playRound_outcome (cfg : Config) (allWords : list text) (hasSolutions : bool)
    (solutions : list text) (player : Player) (n : nat)
    (threadKnown : list Known) (threadWords : list (list text)) :
  match outcome (playRound cfg allWords hasSolutions solutions player n
                   threadKnown threadWords) with
  | Continue threadKnown' threadWords' =>
      forallb solved threadKnown' = false
      ∧ narrow 0 threadKnown' threadWords = inr threadWords'
  | Break threadKnown' => forallb solved threadKnown' = true
  | Abort e => e = TypeError ∨ ∃ thread known, e = WordNotKnown thread known
  end.
Proof.
  unfold playRound. simpl.
  destruct (pickGuess cfg allWords player n threadKnown threadWords).2 as [guess|];
    [|by left].
  set (newKnown := imap (answerThread hasSolutions solutions player n guess) threadKnown).
  destruct (forallb solved newKnown) eqn:Hall; [done|].
  destruct (narrow 0 newKnown threadWords) as [e|threadWords'] eqn:Hnarrow; [|done].
  apply narrow_inl in Hnarrow as [->|(j & words & known & -> & _)]; [by left|].
  right. eauto.
Qed.

Lemma playRound_guess (cfg : Config) (allWords : list text) (hasSolutions : bool)
    (solutions : list text) (player : Player) (n : nat)
    (threadKnown : list Known) (threadWords : list (list text))
    (pool : list text) (guess : text) :
  let round := playRound cfg allWords hasSolutions solutions player n
                 threadKnown threadWords in
  poolUsed round = Some pool → guessMade round = Some guess →
  pool = guessPool cfg allWords n threadKnown threadWords
  ∧ chooseWord threadWords pool = Some guess.
Proof.
  unfold playRound, pickGuess. simpl. case_decide; simpl; [done|].
  intros [= <-] Hguess. done.
Qed.

Section AnyRun.
Variables (cfg : Config) (allWords : list text) (hasSolutions : bool)
  (solutions : list text) (player : Player).

Lemma playRounds_candidates (roundNumbers : list nat) (threadKnown : list Known)
    (threadWords : list (list text)) :
  (∀ words word, words ∈ threadWords → word ∈ words → word ∈ allWords) →
  ∀ round,
    round ∈ (playRounds cfg allWords hasSolutions solutions player roundNumbers
               threadKnown threadWords).1 →
    (∃ n known, round = playRound cfg allWords hasSolutions solutions player n
                          known (wordsBefore round))
    ∧ ∀ words word, words ∈ wordsBefore round → word ∈ words → word ∈ allWords.
Proof.
  revert threadKnown threadWords.
  induction roundNumbers as [|n later IH]; intros threadKnown threadWords Hsub round.
  - simpl. by intros ?%elem_of_nil.
  - rewrite playRounds_cons. cbv zeta.
    pose proof (playRound_outcome cfg allWords hasSolutions solutions player n
                  threadKnown threadWords) as Hout.
    assert (Hhere : round = playRound cfg allWords hasSolutions solutions player n
                              threadKnown threadWords →
              (∃ n known, round = playRound cfg allWords hasSolutions solutions player n
                                    known (wordsBefore round))
              ∧ ∀ words word, words ∈ wordsBefore round → word ∈ words → word ∈ allWords).
    { intros ->. split; [by exists n, threadKnown|]. exact Hsub. }
    destruct (outcome (playRound cfg allWords hasSolutions solutions player n
                         threadKnown threadWords)) as [known' words'|known'|e].
    + simpl. intros [->|Hin]%elem_of_cons; [by apply Hhere|].
      apply (IH known' words'); [|done].
      destruct Hout as [_ Hnarrow].
      intros words word Hw Hword. apply list_elem_of_lookup in Hw as [j Hj].
      destruct (narrow_inr_subset _ _ _ _ Hnarrow j words Hj) as (before & Hb & Hinc).
      apply (Hsub before); [by eapply list_elem_of_lookup_2|by apply Hinc].
    + simpl. intros ->%list_elem_of_singleton. by apply Hhere.
    + simpl. intros ->%list_elem_of_singleton. by apply Hhere.
Qed.

Lemma playRounds_budget (roundNumbers : list nat) (threadKnown : list Known)
    (threadWords : list (list text)) :
  let result := playRounds cfg allWords hasSolutions solutions player roundNumbers
                  threadKnown threadWords in
  length result.1 ≤ length roundNumbers
  ∧ (result.2 = YouLost → length result.1 = length roundNumbers)
  ∧ (result.2 = Score →
       (result.1 = [] ∧ forallb solved threadKnown = true)
       ∨ ∃ round known, last result.1 = Some round ∧ outcome round = Break known
                        ∧ forallb solved known = true).
Proof.
  revert threadKnown threadWords.
  induction roundNumbers as [|n later IH]; intros threadKnown threadWords.
  - simpl. unfold finish. destruct threadKnown as [|known rest]; [by split_and!|].
    destruct (forallb solved (known :: rest)) eqn:Hall.
    + split_and!; [done..|]. intros _. by left.
    + split_and!; done.
  - cbv zeta. rewrite playRounds_cons. cbv zeta.
    pose proof (playRound_outcome cfg allWords hasSolutions solutions player n
                  threadKnown threadWords) as Hout.
    destruct (outcome (playRound cfg allWords hasSolutions solutions player n
                         threadKnown threadWords)) as [known' words'|known'|e] eqn:Hround.
    + destruct (IH known' words') as (Hlen & Hlost & Hscore). simpl.
      split_and!; [lia|intros H; apply Hlost in H; lia|].
      intros H. right. destruct (Hscore H) as [[Hnil Hall]|(round & known & Hlast & Hb)].
      * destruct Hout as [Hun _]. congruence.
      * exists round, known. split; [|done].
        destruct (playRounds _ _ _ _ _ later known' words').1; [done|]. done.
    + simpl. unfold finish. destruct known' as [|known rest]; [by split_and!; [lia|..]|].
      rewrite Hout. split_and!; [lia|done|].
      intros _. right. eauto.
    + simpl. split_and!; [lia| |].
      * intros ->. destruct Hout as [?|(? & ? & ?)]; done.
      * intros ->. destruct Hout as [?|(? & ? & ?)]; done.
Qed.

End AnyRun.

(** ** The entries of [countLetters] *)

Lemma countLetters_from_keys (L : ascii) (word : text) (counts : list (ascii * nat)) :
  L ∈ (foldl (λ counts letter, bumpCount letter counts) counts word).*1
  ↔ L ∈ counts.*1 ∨ L ∈ word.
Proof.
  revert counts. induction word as [|c word IH]; intros counts; simpl.
  - split; [tauto|]. intros [?|?%elem_of_nil]; done.
  - rewrite IH, bumpCount_keys, elem_of_cons. case_decide as Hin.
    + split; [tauto|]. intros [?|[->|?]]; tauto.
    + rewrite elem_of_app, list_elem_of_singleton. split.
      * intros [[? | ->]|?]; tauto.
      * intros [?|[->|?]]; tauto.
Qed.

Lemma countLetters_keys (L : ascii) (word : text) :
  L ∈ (countLetters word).*1 ↔ L ∈ word.
Proof.
  unfold countLetters. rewrite countLetters_from_keys. simpl.
  split; [|tauto]. intros [?%elem_of_nil|?]; done.
Qed.

Lemma countLetters_NoDup (word : text) : NoDup (countLetters word).*1.
Proof. apply countLetters_from_NoDup. simpl. constructor. Qed.

Lemma occurrences_pos (L : ascii) (word : text) :
  0 < occurrences L word ↔ L ∈ word.
Proof.
  unfold occurrences. split.
  - intros Hpos. destruct (filter (λ c, c = L) word) as [|c rest] eqn:Hf; [simpl in Hpos; lia|].
    assert (c ∈ filter (λ c, c = L) word) as Hin by (rewrite Hf; by left).
    apply list_elem_of_filter in Hin as [Hc Hin]. by rewrite <- Hc.
  - intros Hin. by apply (filter_length_pos _ _ L).
Qed.

Lemma bumpCount_total (c : ascii) (counts : list (ascii * nat)) :
  foldr (λ (e : ascii * nat) acc, e.2 + acc) 0 (bumpCount c counts)
  = foldr (λ (e : ascii * nat) acc, e.2 + acc) 0 counts + 1.
Proof.
  induction counts as [|[l n] counts IH]; simpl; [done|].
  case_decide; simpl; lia.
Qed.

Lemma countLetters_from_total (word : text) (counts : list (ascii * nat)) :
  foldr (λ (e : ascii * nat) acc, e.2 + acc) 0
    (foldl (λ counts letter, bumpCount letter counts) counts word)
  = foldr (λ (e : ascii * nat) acc, e.2 + acc) 0 counts + length word.
Proof.
  revert counts. induction word as [|c word IH]; intros counts; simpl; [lia|].
  rewrite IH, bumpCount_total. lia.
Qed.

(** ** The rows of [scoreLetters] *)

Lemma tally_lookup (n : nat) (row : list nat) (i : nat) :
  i < 4 →
  tally n row !! i = Some (default 0 (row !! i) + (if decide (i < n) then 1 else 0)).
Proof.
  intros Hi. unfold tally, range. rewrite list_lookup_fmap, lookup_seq_lt by done. done.
Qed.

Lemma foldl_rows_out (L : ascii) (counts : list (ascii * nat)) (letters : LetterScores) :
  L ∉ counts.*1 →
  foldl (λ (letters : LetterScores) (entry : ascii * nat),
           <[entry.1 := tally entry.2 (default [] (letters !! entry.1))]> letters)
        letters counts !! L
  = letters !! L.
Proof.
  revert letters. induction counts as [|[l n] counts IH]; intros letters Hout; [done|].
  simpl in *. apply not_elem_of_cons in Hout as [Hne Hout].
  rewrite IH by done. by rewrite lookup_insert_ne.
Qed.

Lemma foldl_rows_in (L : ascii) (n : nat) (counts : list (ascii * nat))
    (letters : LetterScores) :
  NoDup counts.*1 → (L, n) ∈ counts →
  foldl (λ (letters : LetterScores) (entry : ascii * nat),
           <[entry.1 := tally entry.2 (default [] (letters !! entry.1))]> letters)
        letters counts !! L
  = Some (tally n (default [] (letters !! L))).
Proof.
  revert letters. induction counts as [|[l m] counts IH]; intros letters Hnd Hin.
  - by apply elem_of_nil in Hin.
  - simpl in *. apply NoDup_cons in Hnd as [Hl Hnd].
    apply elem_of_cons in Hin as [[= <- <-]|Hin].
    + rewrite foldl_rows_out by done. by rewrite lookup_insert_eq.
    + assert (l ≠ L) as Hne.
      { intros ->. apply Hl. apply list_elem_of_fmap. by exists (L, n). }
      rewrite IH by done. by rewrite lookup_insert_ne.
Qed.

Lemma scoreLettersWord_lookup (letters : LetterScores) (word : text) (L : ascii) :
  scoreLettersWord letters word !! L
  = if decide (L ∈ word)
    then Some (tally (occurrences L word) (default [] (letters !! L)))
    else letters !! L.
Proof.
  unfold scoreLettersWord. case_decide as Hin.
  - apply foldl_rows_in; [apply countLetters_NoDup|].
    apply countLetters_has_entry. by apply occurrences_pos.
  - apply foldl_rows_out. by rewrite countLetters_keys.
Qed.

Lemma foldl_scoreLettersWord_count (words : list text) (letters : LetterScores)
    (L : ascii) (i : nat) :
  i < 4 →
  default 0 (default [] (foldl scoreLettersWord letters words !! L) !! i)
  = default 0 (default [] (letters !! L) !! i) + wordsWith L i words.
Proof.
  intros Hi. revert letters.
  induction words as [|word words IH]; intros letters; simpl.
  - unfold wordsWith. simpl. lia.
  - rewrite IH, scoreLettersWord_lookup. unfold wordsWith. rewrite filter_cons.
    case_decide as Hin.
    + simpl. rewrite tally_lookup by done. simpl.
      repeat case_decide; simpl; lia.
    + rewrite decide_False; [lia|].
      intros Hlt. apply Hin, occurrences_pos. lia.
Qed.

Lemma foldl_scoreLettersWord_keys (words : list text) (letters : LetterScores) (L : ascii) :
  is_Some (foldl scoreLettersWord letters words !! L)
  ↔ is_Some (letters !! L) ∨ ∃ word, word ∈ words ∧ L ∈ word.
Proof.
  revert letters. induction words as [|word words IH]; intros letters; simpl.
  - split; [tauto|]. intros [?|(word & ?%elem_of_nil & _)]; done.
  - rewrite IH, scoreLettersWord_lookup. case_decide as Hin.
    + split.
      * intros _. right. exists word. split; [by left|done].
      * intros _. left. by eexists.
    + split.
      * intros [?|(word' & ? & ?)]; [tauto|]. right. exists word'. split; [by right|done].
      * intros [?|(word' & [->|?]%elem_of_cons & ?)]; [tauto|done|]. right. by exists word'.
Qed.

Lemma wordsWith_le (L : ascii) (i : nat) (words : list text) :
  wordsWith L i words ≤ length words.
Proof. unfold wordsWith. apply length_filter. Qed.

Lemma scoreLetters_entry (words : list text) (L : ascii) (row : list nat) (i : nat) :
  scoreLetters words !! L = Some row → i < 4 →
  row !! i = Some (foldAtHalf (length words) (wordsWith L i words)).
Proof.
  intros Hrow Hi. pose proof (scoreLetters_rows words L row Hrow) as Hlen.
  unfold scoreLetters in Hrow. rewrite lookup_fmap in Hrow.
  pose proof (foldl_scoreLettersWord_count words ∅ L i Hi) as Hcount.
  destruct (foldl scoreLettersWord ∅ words !! L) as [raw|]; [|done].
  simpl in *. injection Hrow as <-. rewrite length_map in Hlen.
  rewrite list_lookup_fmap.
  destruct (lookup_lt_is_Some_2 raw i) as [n Hn]; [lia|].
  rewrite Hn in *. simpl in *. rewrite lookup_empty in Hcount. simpl in Hcount.
  by rewrite Hcount.
Qed.

(** ** Keys after an update *)

Lemma foldl_noteResult_newGood_keys (guess oldFixed : text) (key : text)
    (es : list (nat * LetterResult)) (st : Pass) :
  is_Some (newGood (foldl (noteResult guess oldFixed) st es) !! key)
  ↔ is_Some (newGood st !! key)
    ∨ ∃ i r, (i, r) ∈ es ∧ r ≠ WRONG ∧ toText (guess !! i) = key.
Proof.
  revert st. induction es as [|[i r] es IH]; intros st; simpl.
  - split; [tauto|]. intros [?|(i & r & Hi & _)]; [done|]. by apply elem_of_nil in Hi.
  - rewrite IH. destruct r; simpl.
    + rewrite lookup_insert_is_Some. split.
      * intros [[Hk|[_ ?]]|(j & r & Hj & ? & ?)]; [|tauto|].
        -- right. exists i, PERFECT. split; [by left|done].
        -- right. exists j, r. split; [by right|done].
      * intros [?|(j & r & Hj & Hr & Hk)].
        -- left. destruct (decide (toText (guess !! i) = key)); [by left|by right].
        -- apply elem_of_cons in Hj as [[= -> ->]|Hj]; [by left; left|].
           right. by exists j, r.
    + rewrite lookup_insert_is_Some. split.
      * intros [[Hk|[_ ?]]|(j & r & Hj & ? & ?)]; [|tauto|].
        -- right. exists i, CLOSE. split; [by left|done].
        -- right. exists j, r. split; [by right|done].
      * intros [?|(j & r & Hj & Hr & Hk)].
        -- left. destruct (decide (toText (guess !! i) = key)); [by left|by right].
        -- apply elem_of_cons in Hj as [[= -> ->]|Hj]; [by left; left|].
           right. by exists j, r.
    + split.
      * intros [?|(j & r & Hj & ? & ?)]; [tauto|]. right. exists j, r.
        split; [by right|done].
      * intros [?|(j & r & Hj & Hr & Hk)]; [tauto|].
        apply elem_of_cons in Hj as [[= -> ->]|Hj]; [done|]. right. by exists j, r.
Qed.

Lemma mergeGood_is_Some (oldGood newGood : gmap text nat) (key : text) :
  is_Some (mergeGood oldGood newGood !! key)
  ↔ is_Some (oldGood !! key) ∨ is_Some (newGood !! key).
Proof.
  rewrite mergeGood_lookup.
  destruct (oldGood !! key), (newGood !! key); split;
    (intros [[? ?]|[? ?]] || intros [? ?] || intros ?); eauto; done.
Qed.

Lemma updateKnown_keys (guess : text) (response : list LetterResult) (known : Known)
    (L : ascii) :
  length guess = length response →
  is_Some (good (updateKnown guess response known) !! [L])
  ∨ is_Some (bad (updateKnown guess response known) !! [L])
  ↔ is_Some (good known !! [L]) ∨ is_Some (bad known !! [L]) ∨ L ∈ guess.
Proof.
  intros Hlen. unfold updateKnown. simpl.
  rewrite mergeGood_is_Some, mergeBad_lookup.
  set (st0 := {| knownFixed := []; newGood := ∅; newBad := ∅;
                 passGuessResult := guessResult known;
                 passBadPositions := badPositions known |}).
  pose proof (foldl_noteResult_newGood_keys guess (fixed known) [L] (entries response) st0)
    as Hgood.
  pose proof (foldl_noteResult_newBad guess (fixed known) [L] (entries response) st0)
    as Hbad.
  simpl in Hgood, Hbad. rewrite lookup_empty in Hgood.
  assert (Hguess : L ∈ guess ↔ ∃ i r, (i, r) ∈ entries response ∧ guess !! i = Some L).
  { split.
    - intros [i Hi]%list_elem_of_lookup.
      destruct (lookup_lt_is_Some_2 response i) as [r Hr];
        [rewrite <- Hlen; by eapply lookup_lt_Some|].
      exists i, r. split; [by apply elem_of_entries|done].
    - intros (i & r & _ & Hi). by eapply list_elem_of_lookup_2. }
  rewrite Hguess. split.
  - intros [[?|Hnew]|Hb]; [tauto| |].
    + apply Hgood in Hnew as [[? ?]|(i & r & Hi & _ & Ht)]; [done|].
      right. right. exists i, r. split; [done|by apply toText_singleton].
    + case_decide as Hin; [|tauto].
      apply Hbad in Hin as [?|(i & Hi & Ht)]; [set_solver|].
      right. right. exists i, WRONG. split; [done|by apply toText_singleton].
  - intros [?|[Hb|(i & r & Hi & Hg)]]; [tauto| |].
    + right. case_decide; [by eexists|done].
    + apply toText_singleton in Hg. destruct (decide (r = WRONG)) as [->|Hr].
      * right. rewrite decide_True; [by eexists|]. apply Hbad. right. by exists i.
      * left. right. apply Hgood. right. by exists i, r.
Qed.

(** ** Lines of [guessResult] *)

Lemma countOccurrences_newline (s : text) :
  countOccurrences s [newline] = occurrences newline s.
Proof.
  unfold countOccurrences, occurrences.
  induction s as [|c s IH]; [done|].
  simpl. unfold atomMatches. rewrite decide_False by done. rewrite filter_cons.
  case_bool_decide; subst; simpl.
  - by rewrite IH.
  - rewrite decide_False by done. done.
Qed.

Lemma occurrences_app (L : ascii) (s t : text) :
  occurrences L (s ++ t) = occurrences L s + occurrences L t.
Proof. unfold occurrences. by rewrite filter_app, length_app. Qed.

Lemma foldl_noteResult_lines (guess oldFixed : text) (es : list (nat * LetterResult))
    (st : Pass) :
  occurrences newline (passGuessResult (foldl (noteResult guess oldFixed) st es))
  = occurrences newline (passGuessResult st).
Proof.
  revert st. induction es as [|[i r] es IH]; intros st; [done|].
  simpl. rewrite IH.
  destruct r; simpl; rewrite occurrences_app;
    match goal with |- _ + ?glyph = _ => replace glyph with 0 by reflexivity end; lia.
Qed.

Lemma updateKnown_lines (guess : text) (response : list LetterResult) (known : Known) :
  newline ∉ guess →
  occurrences newline (guessResult (updateKnown guess response known))
  = occurrences newline (guessResult known) + 1.
Proof.
  intros Hguess. unfold updateKnown. simpl.
  rewrite occurrences_app, foldl_noteResult_lines. simpl.
  change (" "%char :: guess ++ ["010"%char]) with ([" "%char] ++ guess ++ [newline]).
  rewrite !occurrences_app.
  assert (occurrences newline guess = 0) as ->.
  { apply Nat.le_0_r, Nat.nlt_ge. intros Hpos. by apply Hguess, occurrences_pos. }
  reflexivity.
Qed.

Lemma isWord5_no_newline (word : text) : isWord5 word = true → newline ∉ word.
Proof.
  intros [_ Hletters]%andb_prop Hin.
  rewrite forallb_forall in Hletters.
  apply list_elem_of_In, Hletters in Hin. done.
Qed.

(** ** A completed pattern *)

Lemma fixed_complete (known : Known) (solution : text) :
  wellFormed known = true → isWord5 solution = true →
  keeps known solution = true → "."%char ∉ fixed known →
  fixed known = solution.
Proof.
  intros Hwf Hsol Hkeeps Hdot.
  apply keeps_spec in Hkeeps as (Hfix & _); [|done..].
  unfold wellFormed, isPattern5 in Hwf. rewrite !andb_true_iff in Hwf.
  destruct Hwf as [[[[Hlen%Nat.eqb_eq _] _] _] _].
  apply list_eq_same_length with 5; [by apply isWord5_length|done|].
  intros i c d Hi Hc Hd. destruct (Hfix i c Hc) as [->|Hs]; [|congruence].
  exfalso. apply Hdot. by eapply list_elem_of_lookup_2.
Qed.

Lemma updateKnown_perfect_fixed (guess : text) (known : Known) :
  length guess = 5 → length (fixed known) = 5 →
  fixed (updateKnown guess (replicate 5 PERFECT) known) = guess.
Proof.
  intros Hg Hf. rewrite updateKnown_fixed by done. unfold nextFixed.
  destruct (fixed known) as [|f0 [|f1 [|f2 [|f3 [|f4 [|]]]]]]; try done.
  destruct guess as [|g0 [|g1 [|g2 [|g3 [|g4 [|]]]]]]; done.
Qed.

Lemma isWord5_no_dot (word : text) : isWord5 word = true → "."%char ∉ word.
Proof.
  intros [_ Hletters]%andb_prop Hin.
  rewrite forallb_forall in Hletters.
  apply list_elem_of_In, Hletters in Hin. done.
Qed.

Lemma makeGuess_self (guess : text) :
  length guess = 5 → makeGuess guess guess = replicate 5 PERFECT.
Proof.
  intros Hg. pose proof (makeGuess_length guess guess) as Hlen.
  pose proof (proj2 (makeGuess_all_perfect guess guess Hg Hg) eq_refl) as Hall.
  destruct (makeGuess guess guess) as [|r0 [|r1 [|r2 [|r3 [|r4 [|]]]]]]; try done.
  simpl in Hall. rewrite !andb_true_iff, !bool_decide_eq_true in Hall.
  by destruct Hall as (-> & -> & -> & -> & -> & _).
Qed.

Lemma filter_length_lt {A} (P : A → Prop) `{!∀ a, Decision (P a)} (l : list A) (x : A) :
  x ∈ l → ¬ P x → length (filter P l) < length l.
Proof.
  induction l as [|a l IH]; intros Hin Hx; [by apply elem_of_nil in Hin|].
  rewrite filter_cons. apply elem_of_cons in Hin as [->|Hin].
  - rewrite decide_False by done. simpl. pose proof (length_filter P l). lia.
  - specialize (IH Hin Hx). case_decide; simpl; lia.
Qed.

(** ** Test mode *)

Lemma testRounds_S (hardMode : bool) (allWords : list text) (solution : text)
    (later : nat) (known : Known) (words : list text) :
  testRounds hardMode allWords solution (S later) known words
  = match chooseWord [words] (if hardMode then words else allWords) with
    | None => None
    | Some guess =>
        if bool_decide ("."%char ∈ fixed (updateKnown guess (makeGuess guess solution) known))
        then testRounds hardMode allWords solution later
               (updateKnown guess (makeGuess guess solution) known)
               (filterWords words (updateKnown guess (makeGuess guess solution) known))
        else Some (updateKnown guess (makeGuess guess solution) known)
    end.
Proof. reflexivity. Qed.

Section TestMode.
Variables (hardMode : bool) (allWords : list text) (solution : text).
Hypothesis test_dictionary_words : forallb isWord5 allWords = true.
Hypothesis test_solution_known : solution ∈ allWords.

Lemma testRounds_step (known : Known) (words : list text) :
  consistent known = true → keeps known solution = true →
  forallb isWord5 words = true → solution ∈ words →
  ∃ guess,
    chooseWord [words] (if hardMode then words else allWords) = Some guess
    ∧ isWord5 guess = true
    ∧ (hardMode = true → guess ∈ words)
    ∧ consistent (updateKnown guess (makeGuess guess solution) known) = true
    ∧ keeps (updateKnown guess (makeGuess guess solution) known) solution = true
    ∧ solution ∈ filterWords words (updateKnown guess (makeGuess guess solution) known)
    ∧ occurrences newline
        (guessResult (updateKnown guess (makeGuess guess solution) known))
      = occurrences newline (guessResult known) + 1.
Proof.
  intros Hcons Hkeeps Hwords Hin.
  assert (isWord5 solution = true) as Hsol by (by eapply forallb_isWord5_elem).
  assert ((if hardMode then words else allWords) ≠ []) as Hpool.
  { destruct hardMode; intros Hnil.
    - rewrite Hnil in Hin. by apply elem_of_nil in Hin.
    - rewrite Hnil in test_solution_known. by apply elem_of_nil in test_solution_known. }
  destruct (chooseWord_is_Some [words] _ Hpool) as [guess Hguess].
  exists guess. pose proof (chooseWord_elem _ _ _ Hguess) as Hmember.
  assert (isWord5 guess = true) as Hword.
  { destruct hardMode;
      [by apply (forallb_isWord5_elem words)|by apply (forallb_isWord5_elem allWords)]. }
  assert (keeps (updateKnown guess (makeGuess guess solution) known) solution = true)
    as Hkeeps' by (by apply keeps_after_guess).
  split_and!; try done.
  - by intros ->.
  - apply updateKnown_consistent; [done..|apply makeGuess_length].
  - apply list_elem_of_filter. split; [by rewrite Hkeeps'|done].
  - by apply updateKnown_lines, isWord5_no_newline.
Qed.

Lemma testRounds_ok (rounds : nat) (known : Known) (words : list text) :
  consistent known = true → keeps known solution = true →
  forallb isWord5 words = true → solution ∈ words →
  ∃ final,
    testRounds hardMode allWords solution rounds known words = Some final
    ∧ consistent final = true ∧ keeps final solution = true
    ∧ occurrences newline (guessResult final)
      ≤ occurrences newline (guessResult known) + rounds
    ∧ (0 < rounds →
       occurrences newline (guessResult known)
       < occurrences newline (guessResult final))
    ∧ (hardMode = true → length words ≤ rounds → "."%char ∉ fixed final).
Proof.
  revert known words. induction rounds as [|later IH]; intros known words Hcons Hkeeps Hwords Hin.
  - exists known. simpl. split_and!; try done; try lia.
    intros _ Hlen. destruct words; [by apply elem_of_nil in Hin|simpl in Hlen; lia].
  - destruct (testRounds_step known words Hcons Hkeeps Hwords Hin)
      as (guess & Hguess & Hword & Hmember & Hcons' & Hkeeps' & Hin' & Hlines).
    rewrite testRounds_S, Hguess.
    set (known' := updateKnown guess (makeGuess guess solution) known) in *.
    case_bool_decide as Hdot.
    + destruct (IH known' (filterWords words known') Hcons' Hkeeps'
                  (forallb_isWord5_filter _ _ Hwords) Hin')
        as (final & Hfinal & Hc & Hk & Hle & _ & Hhard).
      exists final. split_and!; try done; try lia.
      * intros _.
        destruct later as [|later'].
        -- simpl in Hfinal. injection Hfinal as <-. lia.
        -- destruct (IH known' (filterWords words known') Hcons' Hkeeps'
                       (forallb_isWord5_filter _ _ Hwords) Hin')
             as (final' & Hfinal' & _ & _ & _ & Hlt & _).
           rewrite Hfinal in Hfinal'. injection Hfinal' as <-.
           specialize (Hlt ltac:(lia)). lia.
      * intros Hh Hlen. apply Hhard; [done|].
        assert (guess ≠ solution) as Hne.
        { intros ->. assert ("."%char ∉ fixed known') as Hno; [|done]. unfold known'.
          rewrite makeGuess_self by (by apply isWord5_length).
          rewrite updateKnown_perfect_fixed;
            [by apply isWord5_no_dot|by apply isWord5_length|].
          by destruct (consistent_inv _ Hcons) as [? _]. }
        assert (length (filterWords words known') < length words); [|lia].
        apply (filter_length_lt _ _ guess); [by apply Hmember|].
        unfold known'. rewrite guess_rejected; [by intros ?|done|done| |done|done].
        by apply (forallb_isWord5_elem allWords).
    + exists known'. split_and!; try done; try lia.
Qed.

End TestMode.

Lemma totalGames_bump (frequencies : gmap nat nat) (score : nat) :
  totalGames (<[score := default 0 (frequencies !! score) + 1]> frequencies)
  = totalGames frequencies + 1.
Proof.
  unfold totalGames. destruct (frequencies !! score) as [count|] eqn:Hs; simpl.
  - rewrite <- (insert_delete_eq frequencies).
    rewrite map_fold_insert_L; [|intros; lia|by rewrite lookup_delete_eq].
    rewrite (map_fold_delete_L _ _ score count frequencies); [lia|intros; lia|done].
  - rewrite map_fold_insert_L; [lia|intros; lia|done].
Qed.

Lemma testMode_table (hardMode : bool) (allWords solutions : list text)
    (frequencies : gmap nat nat) :
  forallb isWord5 allWords = true →
  (∀ solution, solution ∈ solutions → solution ∈ allWords) →
  map_Forall (λ score _, 2 ≤ score ≤ 11) frequencies →
  ∃ table,
    foldl (λ (frequencyOfScores : option (gmap nat nat)) solution,
             match frequencyOfScores, testScore hardMode allWords solution with
             | Some frequencies, Some score =>
                 Some (<[score := default 0 (frequencies !! score) + 1]> frequencies)
             | _, _ => None
             end)
          (Some frequencies) solutions = Some table
    ∧ totalGames table = totalGames frequencies + length solutions
    ∧ map_Forall (λ score _, 2 ≤ score ≤ 11) table.
Proof.
  intros Hdict. revert frequencies.
  induction solutions as [|solution solutions IH]; intros frequencies Hsols Hkeys.
  - exists frequencies. simpl. split_and!; [done|lia|done].
  - cbn [foldl].
    assert (solution ∈ allWords) as Hin by (apply Hsols; by left).
    destruct (testRounds_ok hardMode allWords solution Hdict Hin 10 nothingKnown allWords)
      as (final & Hfinal & _ & _ & Hle & Hlt & _); [done| |done|done|].
    { apply keeps_nothingKnown. by eapply forallb_isWord5_elem. }
    assert (testScore hardMode allWords solution
            = Some (occurrences newline (guessResult final) + 1)) as Hscore
      by (unfold testScore; by rewrite Hfinal, countOccurrences_newline).
    rewrite Hscore.
    specialize (Hlt ltac:(lia)). simpl in Hle, Hlt.
    change (occurrences newline []) with 0 in Hle, Hlt.
    destruct (IH (<[occurrences newline (guessResult final) + 1
                    := default 0 (frequencies !! (occurrences newline (guessResult final) + 1))
                       + 1]> frequencies))
      as (table & Htable & Htotal & Hrange).
    + intros ? ?. apply Hsols. by right.
    + apply map_Forall_insert_2; [lia|done].
    + exists table. split_and!; [done| |done].
      rewrite Htotal, totalGames_bump. simpl. lia.
Qed.

(** ** Words of other lengths *)

Lemma lettersAt_take (s : text) :
  lettersAt (take 5 s) (range 5) = lettersAt s (range 5).
Proof.
  unfold lettersAt, range. simpl. by rewrite !lookup_take_lt by lia.
Qed.

Lemma makeGuess_take (guess solution : text) :
  makeGuess guess solution = makeGuess (take 5 guess) (take 5 solution).
Proof.
  unfold makeGuess, firstPass.
  rewrite !secondPass_lettersAt, !firstPass_lettersAt. by rewrite !lettersAt_take.
Qed.

Lemma makeGuess_beyond (guess solution : text) (i : nat) :
  i < 5 → length guess ≤ i → length solution ≤ i →
  makeGuess guess solution !! i = Some PERFECT.
Proof.
  intros Hi Hg Hs. unfold makeGuess. rewrite secondPass_lettersAt.
  apply classify_perfect. exists None. unfold lettersAt, range.
  rewrite !list_lookup_fmap, lookup_seq_lt by done. simpl.
  by rewrite !lookup_ge_None_2.
Qed.

Lemma regexTest_dots (word : text) :
  forallb isLetter word = true →
  regexTest (w ".....") word = true ↔ 5 ≤ length word.
Proof.
  intros Hletters. split.
  - intros Htest. apply Nat.nlt_ge. intros Hshort.
    rewrite regexTest_short in Htest; [done|]. simpl. lia.
  - intros Hlen.
    destruct word as [|c0 [|c1 [|c2 [|c3 [|c4 rest]]]]]; simpl in Hlen; try lia.
    simpl in Hletters. rewrite !andb_true_iff in Hletters.
    destruct Hletters as (H0 & H1 & H2 & H3 & H4 & _).
    assert (matchesPrefix (w ".....") (c0 :: c1 :: c2 :: c3 :: c4 :: rest) = true) as Hm.
    { simpl. by rewrite !atomMatches_dot. }
    unfold regexTest. fold regexTest. by rewrite Hm.
Qed.

Lemma keeps_nothingKnown_iff (word : text) :
  forallb isLetter word = true →
  keeps nothingKnown word = true ↔ 5 ≤ length word.
Proof.
  intros Hletters. rewrite <- (regexTest_dots word Hletters).
  unfold keeps, nothingKnown. simpl fixed. simpl good. simpl bad. simpl badPositions.
  rewrite !andb_true_iff, !bool_decide_eq_true. split; [tauto|].
  intros ?. split_and!; [done|apply map_Forall_empty..].
Qed.

(** ** Objects an update shares with the state before it *)

Lemma noteResultH_alias (h0 h : Heap) (guess oldFixed : text) (stH : PassH) (st : Pass)
    (entry : nat * LetterResult) (stH' : PassH) (h' : Heap) :
  passRep h0 h stH st →
  noteResultH guess oldFixed stH entry h = Some (stH', h') →
  (entry.2 ≠ CLOSE → badPositionsH stH' = badPositionsH stH)
  ∧ (entry.2 = CLOSE → length h0 ≤ badPositionsH stH').
Proof.
  intros (Hpre & Hfixed & Hresult & Hg0 & Hgood & Hb0 & Hbad & Hpos).
  unfold noteResultH. destruct entry.2.
  - rewrite (bind_Some _ _ _ _ _ (bumpGood_ok _ _ _ _ Hgood)).
    intros [= <- <-]. done.
  - rewrite (bind_Some _ _ _ _ _ (bumpGood_ok _ _ _ _ Hgood)).
    match goal with |- context [copyWithPosition ?a ?l ?i] =>
      destruct (copyWithPosition_ok
                  (<[newGoodH stH := OCounts (<[l := default 0 (newGood st !! l) + 1]>
                                                (newGood st))]> h)
                  a (passBadPositions st) l i) as (ext & Hcopy & Hrep)
    end.
    { by eapply repPositions_store. }
    rewrite (bind_Some _ _ _ _ _ Hcopy).
    intros [= <- <-]. simpl. split; [done|]. intros _.
    rewrite length_insert. by apply prefix_length.
  - rewrite (bind_Some _ _ _ _ _ (addBad_ok _ _ _ _ Hbad)).
    intros [= <- <-]. done.
Qed.

Lemma forEach_noteResultH_alias (h0 : Heap) (guess oldFixed : text)
    (es : list (nat * LetterResult)) (h : Heap) (stH : PassH) (st : Pass)
    (stH' : PassH) (h' : Heap) :
  passRep h0 h stH st →
  forEach (noteResultH guess oldFixed) stH es h = Some (stH', h') →
  ((∀ e, e ∈ es → e.2 ≠ CLOSE) → badPositionsH stH' = badPositionsH stH)
  ∧ (length h0 ≤ badPositionsH stH ∨ (∃ e, e ∈ es ∧ e.2 = CLOSE) →
     length h0 ≤ badPositionsH stH').
Proof.
  revert h stH st. induction es as [|e es IH]; intros h stH st Hrep Hloop.
  - simpl in Hloop. injection Hloop as <- <-. split; [done|].
    intros [?|(e & ?%elem_of_nil & _)]; done.
  - destruct (noteResultH_ok h0 h guess oldFixed stH st e Hrep)
      as (stH1 & h1 & Hstep & Hrep1).
    simpl in Hloop. rewrite (bind_Some _ _ _ _ _ Hstep) in Hloop.
    destruct (noteResultH_alias h0 h guess oldFixed stH st e stH1 h1 Hrep Hstep)
      as [Hsame Hfresh].
    destruct (IH h1 stH1 _ Hrep1 Hloop) as [Hsame' Hfresh'].
    split.
    + intros Hnone. rewrite Hsame'.
      * apply Hsame, Hnone. by left.
      * intros e' He'. apply Hnone. by right.
    + intros Hcase. apply Hfresh'.
      destruct (decide (e.2 = CLOSE)) as [Hclose|Hother]; [left; by apply Hfresh|].
      destruct Hcase as [Hold|(e' & [->|He']%elem_of_cons & Hc)].
      * left. by rewrite (Hsame Hother).
      * done.
      * right. by exists e'.
Qed.

(** ** Progress in hard mode *)

Lemma sum_list_lt (l' l : list nat) :
  length l' = length l →
  (∀ j a b, l' !! j = Some a → l !! j = Some b → a ≤ b) →
  (∃ j a b, l' !! j = Some a ∧ l !! j = Some b ∧ a < b) →
  sum_list l' < sum_list l.
Proof.
  revert l'. induction l as [|b l IH]; intros [|a l'] Hlen Hle Hlt; simpl in *; try done.
  - destruct Hlt as (j & ? & ? & Hj & _). by rewrite lookup_nil in Hj.
  - assert (a ≤ b) by (by apply (Hle 0)).
    assert (sum_list l' ≤ sum_list l) as Hsum.
    { clear IH Hlt. assert (Hle' : ∀ j a b, l' !! j = Some a → l !! j = Some b → a ≤ b)
        by (intros j; apply (Hle (S j))).
      clear Hle. revert l' Hlen Hle'.
      induction l as [|b' l IH]; intros [|a' l'] Hlen Hle'; simpl in *; try done.
      assert (a' ≤ b') by (by apply (Hle' 0)).
      assert (sum_list l' ≤ sum_list l); [|lia].
      apply IH; [lia|]. intros j. apply (Hle' (S j)). }
    destruct Hlt as ([|j] & a0 & b0 & Ha & Hb & Hab); simpl in *.
    + simplify_eq. lia.
    + assert (sum_list l' < sum_list l); [|lia].
      apply IH; [lia| |by exists j, a0, b0]. intros j'. apply (Hle (S j')).
Qed.

Lemma playRound_outcome_eq (cfg : Config) (allWords : list text) (hasSolutions : bool)
    (solutions : list text) (player : Player) (n : nat)
    (threadKnown : list Known) (threadWords : list (list text)) :
  outcome (playRound cfg allWords hasSolutions solutions player n threadKnown threadWords)
  = match (pickGuess cfg allWords player n threadKnown threadWords).2 with
    | None => Abort TypeError
    | Some guess =>
        if forallb solved
             (imap (answerThread hasSolutions solutions player n guess) threadKnown)
        then Break (imap (answerThread hasSolutions solutions player n guess) threadKnown)
        else match narrow 0
                     (imap (answerThread hasSolutions solutions player n guess) threadKnown)
                     threadWords with
             | inl e => Abort e
             | inr threadWords' =>
                 Continue (imap (answerThread hasSolutions solutions player n guess)
                             threadKnown) threadWords'
             end
    end.
Proof. reflexivity. Qed.

Section HardMode.
Variables (cfg : Config) (allWords : list text) (solutions : list text) (player : Player).
Hypothesis hard_dictionary_words : forallb isWord5 allWords = true.
Hypothesis hard_solutions_known : ∀ solution, solution ∈ solutions → solution ∈ allWords.
Hypothesis hard : hardMode cfg = true.
Hypothesis not_free : freeMode cfg = false.

Lemma playRound_hard (n : nat) (threadKnown : list Known) (threadWords : list (list text)) :
  boardsOk solutions threadKnown threadWords → someUnsolved threadKnown →
  solvedAreEmpty threadKnown threadWords →
  match outcome (playRound cfg allWords true solutions player n threadKnown threadWords) with
  | Continue threadKnown' threadWords' =>
      boardsOk solutions threadKnown' threadWords' ∧ someUnsolved threadKnown'
      ∧ solvedAreEmpty threadKnown' threadWords'
      ∧ candidatesLeft threadWords' < candidatesLeft threadWords
  | Break threadKnown' => forallb solved threadKnown' = true
  | Abort _ => False
  end.
Proof.
  intros Hok Hsome Hempty.
  assert (Hpick : (pickGuess cfg allWords player n threadKnown threadWords).2
                  = chooseWord threadWords (concat threadWords)).
  { unfold pickGuess, guessPool. rewrite not_free, hard. reflexivity. }
  destruct Hok as (Hlk & Hlw & Hboards).
  assert (Hsolution : ∀ solution, solution ∈ solutions → isWord5 solution = true).
  { intros solution Hin. eapply forallb_isWord5_elem; [exact hard_dictionary_words|].
    by apply hard_solutions_known. }
  assert (concat threadWords ≠ []) as Hpool.
  { destruct Hsome as (i & known & Hi & Hun).
    destruct (lookup_lt_is_Some_2 solutions i) as [solution Hsol];
      [rewrite <- Hlk; by eapply lookup_lt_Some|].
    destruct (lookup_lt_is_Some_2 threadWords i) as [words Hwords];
      [rewrite Hlw, <- Hlk; by eapply lookup_lt_Some|].
    destruct (Hboards i solution known words Hsol Hi Hwords) as (_ & _ & _ & Hin).
    intros Hnil. assert (solution ∈ concat threadWords) as Hc.
    { apply elem_of_concat. exists words. split; [by apply Hin|].
      by eapply list_elem_of_lookup_2. }
    rewrite Hnil in Hc. by apply elem_of_nil in Hc. }
  destruct (chooseWord_is_Some threadWords _ Hpool) as [guess Hguess].
  pose proof (chooseWord_elem _ _ _ Hguess) as Hmember.
  apply elem_of_concat in Hmember as (target & Hgt & Htarget).
  apply list_elem_of_lookup in Htarget as [t Ht].
  destruct (lookup_lt_is_Some_2 solutions t) as [solutionT HsolT];
    [rewrite <- Hlw; by eapply lookup_lt_Some|].
  destruct (lookup_lt_is_Some_2 threadKnown t) as [knownT HknownT];
    [rewrite Hlk, <- Hlw; by eapply lookup_lt_Some|].
  pose proof (Hboards t solutionT knownT target HsolT HknownT Ht)
    as (HconsT & HkeepsT & HwordsT & HinT).
  assert (isWord5 guess = true) as Hword by (by eapply forallb_isWord5_elem).
  assert (solved knownT = false) as HunT.
  { destruct (solved knownT) eqn:Hs; [|done].
    rewrite (Hempty t knownT target HknownT Ht Hs) in Hgt. by apply elem_of_nil in Hgt. }
  rewrite playRound_outcome_eq, Hpick, Hguess.
  set (newKnown := imap (answerThread true solutions player n guess) threadKnown).
  assert (length newKnown = length solutions) as Hln
    by (unfold newKnown; by rewrite length_imap).
  assert (Hnew : ∀ i solution known words,
            solutions !! i = Some solution → threadKnown !! i = Some known →
            threadWords !! i = Some words →
            newKnown !! i = Some (answerThread true solutions player n guess i known)
            ∧ boardOk solution (answerThread true solutions player n guess i known) words).
  { intros i solution known words Hsol Hk Hw. split.
    - unfold newKnown. by rewrite list_lookup_imap, Hk.
    - unfold answerThread. destruct (solved known) eqn:Hsolved; [by eapply Hboards|].
      rewrite Hsol. simpl.
      destruct (Hboards i solution known words Hsol Hk Hw) as (Hc & Hkp & Hws & Hin).
      assert (isWord5 solution = true)
        by (apply Hsolution; by eapply list_elem_of_lookup_2).
      split_and!; [|by apply keeps_after_guess|done|intros _; by apply Hin].
      apply updateKnown_consistent; [done..|apply makeGuess_length]. }
  destruct (forallb solved newKnown) eqn:Hall; [done|].
  destruct (narrow 0 newKnown threadWords) as [e|threadWords'] eqn:Hnarrow.
  - assert (narrow 0 newKnown threadWords ≠ inl TypeError) as Hnt
      by (apply narrow_no_TypeError; simpl; lia).
    rewrite Hnarrow in Hnt.
    apply narrow_inl in Hnarrow as [->|(j & words & known' & -> & Hw & Hk' & Hun & Hnone)];
      [done|].
    simpl in Hk'.
    destruct (lookup_lt_is_Some_2 solutions j) as [solution Hsol];
      [rewrite <- Hlw; by eapply lookup_lt_Some|].
    destruct (lookup_lt_is_Some_2 threadKnown j) as [known Hk];
      [rewrite Hlk, <- Hlw; by eapply lookup_lt_Some|].
    destruct (Hnew j solution known words Hsol Hk Hw) as [Heq (_ & Hkeeps & _ & Hin)].
    rewrite Heq in Hk'. injection Hk' as <-.
    assert (solution ∈ filterWords words (answerThread true solutions player n guess j known))
      as Hf by (apply list_elem_of_filter; split; [by rewrite Hkeeps|by apply Hin]).
    rewrite Hnone in Hf. by apply elem_of_nil in Hf.
  - pose proof (narrow_inr _ _ _ _ Hnarrow) as [Hlen Hrows].
    assert (Hrow : ∀ i solution known words,
              solutions !! i = Some solution → threadKnown !! i = Some known →
              threadWords !! i = Some words →
              threadWords' !! i
              = Some (if solved (answerThread true solutions player n guess i known)
                      then []
                      else filterWords words
                             (answerThread true solutions player n guess i known))).
    { intros i solution known words Hsol Hk Hw.
      destruct (Hnew i solution known words Hsol Hk Hw) as [Heq _].
      by destruct (Hrows i words _ Hw Heq) as [? _]. }
    split_and!.
    + split_and!; [done|lia|].
      intros i solution known' words' Hsol Hk' Hw'.
      destruct (lookup_lt_is_Some_2 threadWords i) as [words Hw];
        [rewrite Hlw; by eapply lookup_lt_Some|].
      destruct (lookup_lt_is_Some_2 threadKnown i) as [known Hk];
        [rewrite Hlk; by eapply lookup_lt_Some|].
      destruct (Hnew i solution known words Hsol Hk Hw)
        as [Heq (Hcons & Hkeeps & Hwords & Hin)].
      rewrite Heq in Hk'. injection Hk' as <-.
      rewrite (Hrow i solution known words Hsol Hk Hw) in Hw'. injection Hw' as <-.
      split_and!; [done..| |].
      * destruct (solved (answerThread true solutions player n guess i known));
          [done|]. by apply forallb_isWord5_filter.
      * intros Hun. rewrite Hun.
        apply list_elem_of_filter. split; [by rewrite Hkeeps|by apply Hin].
    + apply not_true_iff_false in Hall.
      destruct (decide (Exists (λ known, solved known = false) newKnown)) as [Hex|Hex].
      * apply Exists_exists in Hex as (known & Hin & Hun).
        apply list_elem_of_lookup in Hin as [i Hi]. by exists i, known.
      * exfalso. apply Hall, forallb_forall. intros known Hin%list_elem_of_In.
        apply not_false_iff_true. intros Hun. apply Hex, Exists_exists. eauto.
    + intros i known' words' Hk' Hw' Hsolved.
      destruct (lookup_lt_is_Some_2 threadWords i) as [words Hw];
        [rewrite <- Hlen; by eapply lookup_lt_Some|].
      destruct (Hrows i words known' Hw Hk') as [Hrow' _].
      rewrite Hrow', Hsolved in Hw'. by injection Hw' as <-.
    + unfold candidatesLeft. apply sum_list_lt.
      * by rewrite !length_map.
      * intros j a b Ha Hb. rewrite list_lookup_fmap in Ha, Hb.
        destruct (threadWords !! j) as [words|] eqn:Hw; [|done].
        destruct (threadWords' !! j) as [words'|] eqn:Hw'; [|done].
        simpl in *. simplify_eq.
        destruct (lookup_lt_is_Some_2 solutions j) as [solution Hsol];
          [rewrite <- Hlw; by eapply lookup_lt_Some|].
        destruct (lookup_lt_is_Some_2 threadKnown j) as [known Hk];
          [rewrite Hlk, <- Hlw; by eapply lookup_lt_Some|].
        rewrite (Hrow j solution known words Hsol Hk Hw) in Hw'. injection Hw' as <-.
        destruct (solved (answerThread true solutions player n guess j known));
          [simpl; lia|apply length_filter].
      * exists t. rewrite !list_lookup_fmap, Ht, (Hrow t solutionT knownT target) by done.
        simpl. eexists _, _. split; [done|split; [done|]].
        assert (answerThread true solutions player n guess t knownT
                = updateKnown guess (makeGuess guess solutionT) knownT) as ->.
        { unfold answerThread. by rewrite HunT, HsolT. }
        assert (isWord5 solutionT = true)
          by (apply Hsolution; by eapply list_elem_of_lookup_2).
        destruct (solved (updateKnown guess (makeGuess guess solutionT) knownT)) eqn:Hs.
        -- simpl. destruct target; [by apply elem_of_nil in Hgt|simpl; lia].
        -- apply (filter_length_lt _ _ guess); [done|].
           rewrite guess_rejected; [by intros ?|done..|].
           intros ->. simpl in Hs.
           rewrite (proj2 (makeGuess_all_perfect solutionT solutionT
                             (isWord5_length _ Hword) (isWord5_length _ Hword)) eq_refl)
             in Hs. done.
Qed.

Lemma playRounds_hard (roundNumbers : list nat) (threadKnown : list Known)
    (threadWords : list (list text)) :
  boardsOk solutions threadKnown threadWords → someUnsolved threadKnown →
  solvedAreEmpty threadKnown threadWords →
  candidatesLeft threadWords ≤ length roundNumbers →
  (playRounds cfg allWords true solutions player roundNumbers threadKnown threadWords).2
  = Score.
Proof.
  revert threadKnown threadWords.
  induction roundNumbers as [|n later IH];
    intros threadKnown threadWords Hok Hsome Hempty Hleft.
  - exfalso. destruct Hsome as (i & known & Hi & Hun).
    destruct Hok as (Hlk & Hlw & Hboards).
    destruct (lookup_lt_is_Some_2 solutions i) as [solution Hsol];
      [rewrite <- Hlk; by eapply lookup_lt_Some|].
    destruct (lookup_lt_is_Some_2 threadWords i) as [words Hwords];
      [rewrite Hlw, <- Hlk; by eapply lookup_lt_Some|].
    destruct (Hboards i solution known words Hsol Hi Hwords) as (_ & _ & _ & Hin).
    specialize (Hin Hun). simpl in Hleft. unfold candidatesLeft in Hleft.
    assert (length words ≤ sum_list (map length threadWords)) as Hle.
    { clear -Hwords. revert i Hwords.
      induction threadWords as [|ws rest IH]; intros [|i] Hw; simpl in *; try done.
      - injection Hw as ->. lia.
      - specialize (IH i Hw). lia. }
    destruct words; [by apply elem_of_nil in Hin|simpl in Hle; lia].
  - rewrite playRounds_cons. cbv zeta.
    pose proof (playRound_hard n threadKnown threadWords Hok Hsome Hempty) as Hround.
    destruct (outcome (playRound cfg allWords true solutions player n
                         threadKnown threadWords)) as [known' words'|known'|e] eqn:Hout.
    + destruct Hround as (Hok' & Hsome' & Hempty' & Hless). simpl.
      apply IH; try done. simpl in Hleft. lia.
    + simpl. rewrite finish_boards by (by eapply break_boards). by rewrite Hround.
    + done.
Qed.

End HardMode.

Lemma candidatesLeft_replicate (n : nat) (words : list text) :
  candidatesLeft (replicate n words) = n * length words.
Proof.
  unfold candidatesLeft. induction n as [|n IH]; simpl; [done|]. by rewrite IH.
Qed.

(** ** Lines typed *)

Lemma resultOfDigit_digitOf (letterResult : LetterResult) :
  resultOfDigit (digitOf letterResult) = Some letterResult.
Proof. by destruct letterResult. Qed.

Lemma isResultLine_digits (results : list LetterResult) :
  length results = 5 → isResultLine (map digitOf results) = true.
Proof.
  intros Hlen. unfold isResultLine. rewrite length_map, Hlen. simpl.
  apply forallb_forall. intros char Hin%list_elem_of_In.
  apply list_elem_of_fmap in Hin as (letterResult & -> & _).
  by destruct letterResult.
Qed.

Lemma isResultLine_decodes (response : text) :
  isResultLine response = true →
  ∃ results, response = map digitOf results ∧ length results = 5.
Proof.
  unfold isResultLine. intros [Hlen%Nat.eqb_eq Hdigits]%andb_prop.
  rewrite forallb_forall in Hdigits.
  assert (Hall : ∀ char, char ∈ response → char ∈ w "012").
  { intros char Hin%list_elem_of_In. apply Hdigits in Hin.
    by apply bool_decide_eq_true in Hin. }
  assert (∃ results, response = map digitOf results) as [results Hresults].
  { clear Hlen Hdigits. induction response as [|char rest IH]; [by exists []|].
    destruct IH as [results ->]; [intros ? ?; apply Hall; by right|].
    assert (char ∈ w "012") as Hchar by (apply Hall; by left).
    unfold w in Hchar. simpl in Hchar.
    apply elem_of_cons in Hchar as [->|Hchar]; [by exists (WRONG :: results)|].
    apply elem_of_cons in Hchar as [->|Hchar]; [by exists (CLOSE :: results)|].
    apply list_elem_of_singleton in Hchar as ->. by exists (PERFECT :: results). }
  exists results. split; [done|]. rewrite Hresults, length_map in Hlen. done.
Qed.

Lemma askResult_first (rejected later : list text) (response : text) :
  Forall (λ line, isResultLine line = false) rejected →
  isResultLine response = true →
  askResult (rejected ++ response :: later) = Some (map resultOfDigit response).
Proof.
  intros Hrejected Hresponse.
  induction rejected as [|line rejected IH]; simpl; [by rewrite Hresponse|].
  apply Forall_cons in Hrejected as [-> Hrejected]. by apply IH.
Qed.

Lemma askResult_Some (answers : list text) (returned : list (option LetterResult)) :
  askResult answers = Some returned →
  ∃ rejected response later,
    answers = rejected ++ response :: later
    ∧ Forall (λ line, isResultLine line = false) rejected
    ∧ isResultLine response = true
    ∧ returned = map resultOfDigit response.
Proof.
  induction answers as [|response later IH]; simpl; [done|].
  destruct (isResultLine response) eqn:Hline.
  - intros [= <-]. by exists [], response, later.
  - intros Hlater. destruct (IH Hlater) as (rejected & line & rest & -> & Hrej & Hok & ->).
    exists (response :: rejected), line, rest. split_and!; try done.
    by apply Forall_cons.
Qed.

Lemma askResult_None (answers : list text) :
  askResult answers = None ↔ Forall (λ line, isResultLine line = false) answers.
Proof.
  induction answers as [|response later IH]; simpl; [done|].
  rewrite Forall_cons. destruct (isResultLine response); [|by rewrite IH; tauto].
  split; [done|]. by intros [? _].
Qed.

Lemma askGuess_first (allWords rejected later : list text) (guess : text) :
  Forall (λ line, line ≠ [] ∧ (isWord5 line = false ∨ line ∉ allWords)) rejected →
  guess = [] ∨ (isWord5 guess = true ∧ guess ∈ allWords) →
  askGuess allWords (rejected ++ guess :: later) = Some guess.
Proof.
  intros Hrejected Hguess.
  induction rejected as [|line rejected IH]; simpl.
  - case_decide as Hempty; [done|].
    destruct Hguess as [?|[-> Hin]]; [done|]. simpl.
    by rewrite bool_decide_eq_false_2 by (by intros ?).
  - apply Forall_cons in Hrejected as [[Hne Hbad] Hrejected].
    rewrite decide_False by done.
    destruct (isWord5 line) eqn:Hword; simpl; [|by apply IH].
    destruct Hbad as [?|Hout]; [done|].
    rewrite bool_decide_eq_true_2 by done. by apply IH.
Qed.

Lemma askGuess_Some (allWords answers : list text) (guess : text) :
  askGuess allWords answers = Some guess →
  ∃ rejected later,
    answers = rejected ++ guess :: later
    ∧ Forall (λ line, line ≠ [] ∧ (isWord5 line = false ∨ line ∉ allWords)) rejected
    ∧ (guess = [] ∨ (isWord5 guess = true ∧ guess ∈ allWords)).
Proof.
  induction answers as [|response later IH]; simpl; [done|].
  case_decide as Hempty.
  - intros [= <-]. exists [], later. split_and!; [done|done|by left].
  - destruct (isWord5 response) eqn:Hword; simpl.
    + case_bool_decide as Hin.
      * intros Hlater. destruct (IH Hlater) as (rejected & rest & -> & Hrej & Hguess).
        exists (response :: rejected), rest. split_and!; [done| |done].
        apply Forall_cons. split; [|done]. split; [done|by right].
      * intros [= <-]. exists [], later. split_and!; [done|done|]. right. by split.
    + intros Hlater. destruct (IH Hlater) as (rejected & rest & -> & Hrej & Hguess).
      exists (response :: rejected), rest. split_and!; [done| |done].
      apply Forall_cons. split; [|done]. split; [done|by left].
Qed.

Lemma askGuess_None (allWords answers : list text) :
  askGuess allWords answers = None
  ↔ Forall (λ line, line ≠ [] ∧ (isWord5 line = false ∨ line ∉ allWords)) answers.
Proof.
  induction answers as [|response later IH]; simpl; [done|].
  rewrite Forall_cons. case_decide as Hempty.
  - split; [done|]. by intros [[? _] _].
  - destruct (isWord5 response) eqn:Hword; simpl.
    + case_bool_decide as Hin.
      * rewrite IH. split; [|tauto]. intros ?. split; [|done]. split; [done|by right].
      * split; [done|]. intros [[_ [?|?]] _]; done.
    + rewrite IH. split; [|tauto]. intros ?. split; [|done]. split; [done|by left].
Qed.

(** ** Runs that stop on an error *)

Lemma playRounds_abort (cfg : Config) (allWords : list text) (hasSolutions : bool)
    (solutions : list text) (player : Player) (roundNumbers : list nat)
    (threadKnown : list Known) (threadWords : list (list text)) (e : Exit) :
  (playRounds cfg allWords hasSolutions solutions player roundNumbers
     threadKnown threadWords).2 = e →
  e ≠ Score → e ≠ YouLost → e ≠ TypeError →
  ∃ round n known words,
    last (playRounds cfg allWords hasSolutions solutions player roundNumbers
            threadKnown threadWords).1 = Some round
    ∧ round = playRound cfg allWords hasSolutions solutions player n known words
    ∧ outcome round = Abort e.
Proof.
  revert threadKnown threadWords.
  induction roundNumbers as [|n later IH]; intros threadKnown threadWords.
  - simpl. unfold finish. destruct threadKnown; [by intros <-|].
    destruct (forallb solved _); by intros <-.
  - rewrite playRounds_cons. cbv zeta.
    destruct (outcome (playRound cfg allWords hasSolutions solutions player n
                         threadKnown threadWords)) as [known' words'|known'|e'] eqn:Hout.
    + simpl. intros He Hs Hl Ht. destruct (IH known' words' He Hs Hl Ht)
        as (round & m & known & words & Hlast & Hround & Habort).
      exists round, m, known, words. split_and!; [|done..].
      destruct (playRounds cfg allWords hasSolutions solutions player later known' words').1;
        done.
    + simpl. unfold finish. destruct known'; [by intros <-|].
      destruct (forallb solved _); by intros <-.
    + simpl. intros <- _ _ _. eexists _, n, threadKnown, threadWords. by split_and!.
Qed.

Lemma playRound_word_not_known (cfg : Config) (allWords : list text) (hasSolutions : bool)
    (solutions : list text) (player : Player) (n : nat)
    (threadKnown : list Known) (threadWords : list (list text))
    (thread : nat) (known : Known) :
  outcome (playRound cfg allWords hasSolutions solutions player n threadKnown threadWords)
  = Abort (WordNotKnown thread known) →
  ∃ words, threadWords !! thread = Some words
           ∧ solved known = false ∧ filterWords words known = [].
Proof.
  rewrite playRound_outcome_eq.
  destruct (pickGuess cfg allWords player n threadKnown threadWords).2 as [guess|];
    [|done].
  destruct (forallb solved _); [done|].
  destruct (narrow 0 _ threadWords) as [e|threadWords'] eqn:Hnarrow; [|done].
  intros [= ->].
  apply narrow_inl in Hnarrow as [?|(j & words & known' & [= <- <-] & Hw & _ & Hun & Hnone)];
    [done|].
  by exists words.
Qed.

(** ** Flags *)

Lemma defineFlag_cons (flag arg : text) (args : list text) :
  defineFlag flag (arg :: args)
  = if decide (arg = flag) then (true, args)
    else ((defineFlag flag args).1, arg :: (defineFlag flag args).2).
Proof.
  unfold defineFlag, indexOf. simpl. case_decide; [done|].
  by destruct (list_find (λ arg0 : text, arg0 = flag) args) as [[position found]|].
Qed.

Lemma defineFlag_first (flag : text) (pre post : list text) :
  flag ∉ pre → defineFlag flag (pre ++ flag :: post) = (true, pre ++ post).
Proof.
  induction pre as [|arg pre IH]; intros Hpre; simpl.
  - by rewrite defineFlag_cons, decide_True.
  - apply not_elem_of_cons in Hpre as [Hne Hpre].
    rewrite defineFlag_cons, decide_False by done. by rewrite IH.
Qed.

Lemma defineFlag_absent (flag : text) (args : list text) :
  flag ∉ args → defineFlag flag args = (false, args).
Proof.
  induction args as [|arg args IH]; intros Hargs; [done|].
  apply not_elem_of_cons in Hargs as [Hne Hargs].
  rewrite defineFlag_cons, decide_False by done. by rewrite IH.
Qed.

Lemma defineFlag_enabled (flag : text) (args : list text) :
  (defineFlag flag args).1 = true ↔ flag ∈ args.
Proof.
  induction args as [|arg args IH]; [split; [done|by intros ?%elem_of_nil]|].
  rewrite defineFlag_cons, elem_of_cons. case_decide as Heq; simpl.
  - split; [by left|done].
  - rewrite IH. split; [by right|]. intros [?|?]; [congruence|done].
Qed.

Lemma defineFlag_other (flag other : text) (args : list text) :
  flag ≠ other → other ∈ (defineFlag flag args).2 ↔ other ∈ args.
Proof.
  intros Hne. induction args as [|arg args IH]; [done|].
  rewrite defineFlag_cons. case_decide as Heq; simpl.
  - rewrite elem_of_cons. split; [by right|]. intros [->|?]; [congruence|done].
  - by rewrite !elem_of_cons, IH.
Qed.

Lemma defineFlag_commute (flag other : text) (args : list text) :
  flag ≠ other →
  (defineFlag other (defineFlag flag args).2).2
  = (defineFlag flag (defineFlag other args).2).2.
Proof.
  intros Hne. induction args as [|arg args IH]; [done|].
  rewrite !(defineFlag_cons _ arg).
  destruct (decide (arg = flag)) as [Hf|Hf], (decide (arg = other)) as [Ho|Ho]; simpl.
  - congruence.
  - by rewrite defineFlag_cons, decide_True.
  - by rewrite defineFlag_cons, decide_True.
  - rewrite !defineFlag_cons, !decide_False by done. simpl. by rewrite IH.
Qed.

Lemma indexOf_cons (flag arg : text) (args : list text) :
  indexOf flag (arg :: args)
  = if decide (arg = flag) then Some 0 else S <$> indexOf flag args.
Proof.
  unfold indexOf. simpl. case_decide; [done|].
  by destruct (list_find (λ arg0 : text, arg0 = flag) args) as [[position found]|].
Qed.

Lemma indexOf_first (flag : text) (pre post : list text) :
  flag ∉ pre → indexOf flag (pre ++ flag :: post) = Some (length pre).
Proof.
  induction pre as [|arg pre IH]; intros Hpre; simpl.
  - by rewrite indexOf_cons, decide_True.
  - apply not_elem_of_cons in Hpre as [Hne Hpre].
    rewrite indexOf_cons, decide_False by done. by rewrite IH.
Qed.

Lemma indexOf_absent (flag : text) (args : list text) :
  flag ∉ args → indexOf flag args = None.
Proof.
  induction args as [|arg args IH]; intros Hargs; [done|].
  apply not_elem_of_cons in Hargs as [Hne Hargs].
  rewrite indexOf_cons, decide_False by done. by rewrite IH.
Qed.

Lemma list_find_first {A} (P : A → Prop) `{!∀ a, Decision (P a)} (pre post : list A) (x : A) :
  Forall (λ a, ¬ P a) pre → P x →
  list_find P (pre ++ x :: post) = Some (length pre, x).
Proof.
  induction pre as [|a pre IH]; intros Hpre Hx; simpl.
  - by rewrite decide_True.
  - apply Forall_cons in Hpre as [Ha Hpre].
    rewrite decide_False by done. by rewrite IH.
Qed.

Lemma list_find_absent {A} (P : A → Prop) `{!∀ a, Decision (P a)} (l : list A) :
  Forall (λ a, ¬ P a) l → list_find P l = None.
Proof.
  induction l as [|a l IH]; intros Hl; simpl; [done|].
  apply Forall_cons in Hl as [Ha Hl].
  rewrite decide_False by done. by rewrite IH.
Qed.

Lemma delete_middle {A} (pre post : list A) (x : A) :
  delete (length pre) (pre ++ x :: post) = pre ++ post.
Proof. induction pre as [|a pre IH]; simpl; [done|]. by rewrite IH. Qed.

(** ** Positions answered WRONG *)

Lemma makeGuess_wrong_count (guess solution : text) (L : ascii) :
  length guess = 5 → length solution = 5 →
  length (filter (λ gr : ascii * LetterResult, gr.1 = L ∧ gr.2 = WRONG)
            (zip guess (makeGuess guess solution)))
  = occurrences L guess - occurrences L solution.
Proof.
  intros Hg Hs. pose proof (makeGuess_credit guess solution L Hg Hs) as Hcredit.
  assert (Hsplit :
            length (filter (λ gr : ascii * LetterResult, gr.1 = L ∧ gr.2 ≠ WRONG)
                      (zip guess (makeGuess guess solution)))
            + length (filter (λ gr : ascii * LetterResult, gr.1 = L ∧ gr.2 = WRONG)
                        (zip guess (makeGuess guess solution)))
            = length (filter (λ gr : ascii * LetterResult, gr.1 = L)
                        (zip guess (makeGuess guess solution)))).
  { apply filter_partition_length.
    - intuition congruence.
    - intros [g r]. simpl. destruct (decide (r = WRONG)); intuition congruence. }
  assert (occurrences L guess
          = length (filter (λ gr : ascii * LetterResult, gr.1 = L)
                      (zip guess (makeGuess guess solution)))) as Hguess.
  { unfold occurrences.
    by rewrite <- (filter_zip_fst_length (λ c, c = L) guess (makeGuess guess solution))
      by (rewrite makeGuess_length; lia). }
  unfold credited in Hcredit. lia.
Qed.

Lemma makeGuess_wrong_iff (guess solution : text) (L : ascii) :
  length guess = 5 → length solution = 5 →
  (∃ i, makeGuess guess solution !! i = Some WRONG ∧ guess !! i = Some L)
  ↔ occurrences L solution < occurrences L guess.
Proof.
  intros Hg Hs. split.
  - intros (i & Hi & Hc). by destruct (makeGuess_wrong_exhausts guess solution i L).
  - intros Hless. pose proof (makeGuess_wrong_count guess solution L Hg Hs) as Hcount.
    destruct (filter (λ gr : ascii * LetterResult, gr.1 = L ∧ gr.2 = WRONG)
                (zip guess (makeGuess guess solution))) as [|[g r] rest] eqn:Hf;
      [simpl in Hcount; lia|].
    assert ((g, r) ∈ filter (λ gr : ascii * LetterResult, gr.1 = L ∧ gr.2 = WRONG)
                       (zip guess (makeGuess guess solution))) as Hin
      by (rewrite Hf; by left).
    apply list_elem_of_filter in Hin as [[Hgl Hrw] Hin]. simpl in *. subst.
    apply list_elem_of_lookup in Hin as [i Hi].
    apply lookup_zip_with_Some in Hi as (g & r & [= <- <-] & Hgi & Hri). eauto.
Qed.

(** ** Feedback against a solution, and the filter after it *)

(** X1.  For 5-letter words, [makeGuess] answers PERFECT at every position
    exactly when the guess is the solution, and so the state [updateKnown]
    returns for that feedback is [solved] exactly when the guess is the
    solution. *)
Theorem solved_iff_guess_is_solution (guess solution : text) (known : Known) :
  length guess = 5 → length solution = 5 →
  (makeGuess guess solution = replicate 5 PERFECT ↔ guess = solution)
  ∧ (solved (updateKnown guess (makeGuess guess solution) known) = true
     ↔ guess = solution).
Proof.
  intros Hg Hs. split.
  - rewrite <- (makeGuess_all_perfect guess solution Hg Hs).
    pose proof (makeGuess_length guess solution) as Hlen.
    destruct (makeGuess guess solution) as [|r0 [|r1 [|r2 [|r3 [|r4 [|]]]]]]; try done.
    simpl. rewrite !andb_true_iff, !bool_decide_eq_true. split.
    + by intros [= -> -> -> -> ->].
    + by intros (-> & -> & -> & -> & -> & _).
  - simpl. by apply makeGuess_all_perfect.
Qed.

(** The guess "crane" against the solution "crane". *)
Lemma solved_iff_guess_is_solution_witness :
  length (w "crane") = 5
  ∧ (solved (updateKnown (w "crane") (makeGuess (w "crane") (w "crane")) nothingKnown) = true
     ↔ w "crane" = w "crane").
Proof.
  split; [reflexivity|].
  apply (solved_iff_guess_is_solution (w "crane") (w "crane") nothingKnown);
    reflexivity.
Defined.

(** X2.  For 5-letter words, the number of positions of the guess that hold
    a letter and are answered PERFECT or CLOSE is the smaller of the number
    of times the letter occurs in the guess and in the solution; the other
    positions that hold the letter, as many as the guess has it more often
    than the solution, are answered WRONG. *)
Theorem makeGuess_credits_min (guess solution : text) (L : ascii) :
  length guess = 5 → length solution = 5 →
  credited L guess (makeGuess guess solution)
  = Nat.min (occurrences L guess) (occurrences L solution)
  ∧ length (filter (λ gr : ascii * LetterResult, gr.1 = L ∧ gr.2 = WRONG)
              (zip guess (makeGuess guess solution)))
    = occurrences L guess - occurrences L solution.
Proof.
  intros Hg Hs. split.
  - by apply makeGuess_credit.
  - by apply makeGuess_wrong_count.
Qed.

(** "e" in the guess "eerie" against the solution "crane". *)
Lemma makeGuess_credits_min_witness :
  length (w "eerie") = 5 ∧ length (w "crane") = 5
  ∧ credited "e" (w "eerie") (makeGuess (w "eerie") (w "crane"))
    = Nat.min (occurrences "e" (w "eerie")) (occurrences "e" (w "crane"))
  ∧ length (filter (λ gr : ascii * LetterResult, gr.1 = "e"%char ∧ gr.2 = WRONG)
              (zip (w "eerie") (makeGuess (w "eerie") (w "crane"))))
    = occurrences "e" (w "eerie") - occurrences "e" (w "crane").
Proof.
  split; [reflexivity|split; [reflexivity|]].
  exact (makeGuess_credits_min (w "eerie") (w "crane") "e" eq_refl eq_refl).
Defined.

(** X3.  When the results of a 5-letter guess come from [makeGuess] against a
    5-letter solution, and the solution passes the filter of the state before
    the update, it passes the filter of the updated state: [filterWords]
    never drops the solution. *)
Theorem solution_survives_update (words : list text) (known : Known)
    (guess solution : text) :
  consistent known = true → isWord5 guess = true → isWord5 solution = true →
  solution ∈ filterWords words known →
  solution ∈ filterWords words (updateKnown guess (makeGuess guess solution) known).
Proof.
  intros Hcons Hguess Hsol [Hkeeps Hin]%list_elem_of_filter.
  apply list_elem_of_filter. split; [|done].
  apply Is_true_true. apply keeps_after_guess; [done..|]. by apply Is_true_true.
Qed.

(** The guess "grape" after "eerie", solution "crane". *)
Lemma solution_survives_update_witness :
  consistent knownEerie = true ∧ isWord5 (w "grape") = true
  ∧ isWord5 (w "crane") = true
  ∧ w "crane" ∈ filterWords [w "crane"; w "erase"] knownEerie
  ∧ w "crane" ∈ filterWords [w "crane"; w "erase"]
                  (updateKnown (w "grape") (makeGuess (w "grape") (w "crane")) knownEerie).
Proof.
  assert (H1 : consistent knownEerie = true) by (vm_compute; reflexivity).
  assert (H2 : w "crane" ∈ filterWords [w "crane"; w "erase"] knownEerie)
    by (apply (bool_decide_eq_true_1 _); vm_compute; reflexivity).
  split; [exact H1|split; [reflexivity|split; [reflexivity|split; [exact H2|]]]].
  exact (solution_survives_update [w "crane"; w "erase"] knownEerie (w "grape") (w "crane")
           H1 eq_refl eq_refl H2).
Defined.

(** X4.  Under the same conditions a guess that is not the solution does not
    pass the filter of the updated state: a wrong guess is never a candidate
    again. *)
Theorem wrong_guess_is_filtered (words : list text) (known : Known)
    (guess solution : text) :
  consistent known = true → isWord5 guess = true → isWord5 solution = true →
  keeps known solution = true → guess ≠ solution →
  guess ∉ filterWords words (updateKnown guess (makeGuess guess solution) known).
Proof.
  intros Hcons Hguess Hsol Hkeeps Hne [Hk _]%list_elem_of_filter.
  apply Is_true_true in Hk.
  by rewrite guess_rejected in Hk.
Qed.

(** The guess "erase" after "eerie", solution "crane". *)
Lemma wrong_guess_is_filtered_witness :
  consistent knownEerie = true ∧ isWord5 (w "erase") = true
  ∧ isWord5 (w "crane") = true ∧ keeps knownEerie (w "crane") = true
  ∧ w "erase" ≠ w "crane"
  ∧ w "erase" ∉ filterWords [w "crane"; w "erase"]
                  (updateKnown (w "erase") (makeGuess (w "erase") (w "crane")) knownEerie).
Proof.
  assert (H1 : consistent knownEerie = true) by (vm_compute; reflexivity).
  assert (H2 : keeps knownEerie (w "crane") = true) by (vm_compute; reflexivity).
  assert (H3 : w "erase" ≠ w "crane") by discriminate.
  split; [exact H1|split; [reflexivity|split; [reflexivity|split; [exact H2|]]]].
  split; [exact H3|].
  exact (wrong_guess_is_filtered [w "crane"; w "erase"] knownEerie (w "erase") (w "crane")
           H1 eq_refl eq_refl H2 H3).
Defined.

(** ** Runs *)

(** X5.  A run with solutions on the command line, one per board and each a
    word of a dictionary of 5-letter words, never stops on a contradiction or
    an exception: every round is completed, and the process ends with the
    score or with "You lost". *)
Theorem run_with_solutions_completes (cfg : Config) (allWords : list text)
    (player : Player) (args : list text) :
  forallb isWord5 allWords = true →
  args ≠ [] → length args = threadCount cfg → randomMode cfg = false →
  (∀ solution, solution ∈ args → solution ∈ allWords) →
  (∀ n, requestGuess player n ≠ [] → requestGuess player n ∈ allWords) →
  ((run cfg allWords player args).2 = Score ∨ (run cfg allWords player args).2 = YouLost)
  ∧ Forall roundCompleted (run cfg allWords player args).1.
Proof.
  intros Hdict Hargs Hlen Hrandom Hsols Hplayer. unfold run.
  rewrite (bool_decide_eq_true_2 (args ≠ [])) by done.
  rewrite (bool_decide_eq_false_2 (length args ≠ threadCount cfg)) by (intros ?; done).
  rewrite Hrandom. simpl.
  assert (List.find (λ solution, bool_decide (solution ≠ [] ∧ solution ∉ allWords)) args
          = None) as ->.
  { clear Hlen Hargs. induction args as [|s rest IH]; [done|]. simpl.
    rewrite bool_decide_eq_false_2.
    - apply IH. intros ? ?. apply Hsols. by right.
    - intros [_ Hn]. apply Hn, Hsols. by left. }
  apply (playRounds_sim cfg allWords args player Hdict Hsols Hplayer).
  - rewrite <- Hlen. split_and!; [by rewrite length_replicate..|].
    intros i solution known words Hsol [-> _]%lookup_replicate [-> _]%lookup_replicate.
    assert (solution ∈ allWords) by (apply Hsols; by eapply list_elem_of_lookup_2).
    split_and!; [done| |done|done].
    apply keeps_nothingKnown. by eapply forallb_isWord5_elem.
  - exists 0, nothingKnown. split; [|done]. apply lookup_replicate. split; [done|].
    rewrite <- Hlen. destruct args; [done|simpl; lia].
Qed.

(** The solution "spine" on the dictionary [dict5]. *)
Lemma run_with_solutions_completes_witness :
  forallb isWord5 dict5 = true
  ∧ ((run cfg1 dict5 nobody [w "spine"]).2 = Score
     ∨ (run cfg1 dict5 nobody [w "spine"]).2 = YouLost)
  ∧ Forall roundCompleted (run cfg1 dict5 nobody [w "spine"]).1.
Proof.
  assert (H1 : forallb isWord5 dict5 = true) by reflexivity.
  assert (H2 : [w "spine"] ≠ []) by discriminate.
  assert (H3 : ∀ solution, solution ∈ [w "spine"] → solution ∈ dict5).
  { intros solution Hin. apply list_elem_of_singleton in Hin. rewrite Hin.
    apply (bool_decide_eq_true_1 (w "spine" ∈ dict5)). reflexivity. }
  assert (H4 : ∀ n, requestGuess nobody n ≠ [] → requestGuess nobody n ∈ dict5).
  { intros n Hn. exfalso. apply Hn. reflexivity. }
  split; [exact H1|].
  exact (run_with_solutions_completes cfg1 dict5 nobody [w "spine"]
           H1 H2 eq_refl eq_refl H3 H4).
Defined.

(** X6.  Whenever the program chooses the guess of a round itself, the guess
    is a word of the pool it chose from, hence a word of the dictionary; and
    when the pool is not the dictionary it is a remaining candidate of some
    board. *)
Theorem program_guess_from_pool (cfg : Config) (allWords : list text)
    (player : Player) (args : list text) (i : nat) (round : Round)
    (pool : list text) (guess : text) :
  (run cfg allWords player args).1 !! i = Some round →
  poolUsed round = Some pool → guessMade round = Some guess →
  guess ∈ pool ∧ guess ∈ allWords
  ∧ (pool = allWords
     ∨ pool = concat (wordsBefore round)
       ∧ ∃ words, words ∈ wordsBefore round ∧ guess ∈ words).
Proof.
  intros Hround Hpool Hguess. apply list_elem_of_lookup_2 in Hround.
  unfold run in Hround.
  destruct (_ && _) in Hround; [by apply elem_of_nil in Hround|].
  destruct (randomMode cfg && _) in Hround; [by apply elem_of_nil in Hround|].
  destruct (List.find _ _) in Hround; [by apply elem_of_nil in Hround|].
  apply playRounds_candidates in Hround as [(n & known & Heq) Hsub].
  - rewrite Heq in Hpool, Hguess.
    destruct (playRound_guess _ _ _ _ _ _ _ _ _ _ Hpool Hguess) as [Hp Hchoose].
    apply chooseWord_elem in Hchoose.
    assert (Hcases : pool = allWords
              ∨ pool = concat (wordsBefore round)
                ∧ ∃ words, words ∈ wordsBefore round ∧ guess ∈ words).
    { unfold guessPool in Hp. destruct (_ || _) in Hp; [|by left].
      right. split; [done|]. rewrite Hp in Hchoose.
      apply elem_of_concat in Hchoose as (words & ? & ?). eauto. }
    split_and!; [done| |done].
    destruct Hcases as [->|[_ (words & Hw & Hg)]]; [done|]. by eapply Hsub.
  - intros words word [-> _]%elem_of_replicate. done.
Qed.

(** The first round of the run on [dict5], where the
    program chooses "swine" from the whole dictionary. *)
Lemma program_guess_from_pool_witness :
  (run cfg1 dict5 nobody [w "spine"]).1 !! 0 = Some firstRound
  ∧ poolUsed firstRound = Some dict5
  ∧ guessMade firstRound = Some (w "swine")
  ∧ w "swine" ∈ dict5.
Proof.
  assert (H1 : (run cfg1 dict5 nobody [w "spine"]).1 !! 0 = Some firstRound)
    by (vm_compute; reflexivity).
  assert (H2 : poolUsed firstRound = Some dict5) by (vm_compute; reflexivity).
  assert (H3 : guessMade firstRound = Some (w "swine")) by (vm_compute; reflexivity).
  split; [exact H1|split; [exact H2|split; [exact H3|]]].
  pose proof (program_guess_from_pool cfg1 dict5 nobody [w "spine"] 0 firstRound dict5
                (w "swine") H1 H2 H3) as Hfrom.
  destruct Hfrom as [Hin _]. exact Hin.
Defined.

(** X7.  A run on at least one board never plays more rounds than the
    round budget; it ends with "You lost" only after playing every round of
    the budget; and it ends with the score only when the last round played
    left every board solved. *)
Theorem run_round_budget (cfg : Config) (allWords : list text) (player : Player)
    (args : list text) :
  0 < threadCount cfg →
  length (run cfg allWords player args).1 ≤ Z.to_nat (roundCount cfg)
  ∧ ((run cfg allWords player args).2 = YouLost →
     length (run cfg allWords player args).1 = Z.to_nat (roundCount cfg))
  ∧ ((run cfg allWords player args).2 = Score →
     ∃ round known,
       last (run cfg allWords player args).1 = Some round
       ∧ outcome round = Break known ∧ forallb solved known = true).
Proof.
  intros Hboards. unfold run.
  destruct (_ && _); [simpl; split_and!; [lia|done..]|].
  destruct (randomMode cfg && _); [simpl; split_and!; [lia|done..]|].
  destruct (List.find _ _); [simpl; split_and!; [lia|done..]|].
  match goal with
  | |- context [playRounds ?c ?a ?h ?s ?p ?r ?k ?ws] =>
      pose proof (playRounds_budget c a h s p r k ws) as Hb
  end.
  cbv zeta in Hb. unfold range in *. rewrite length_seq in Hb.
  destruct Hb as (Hlen & Hlost & Hscore). split_and!; [done..|].
  intros H. destruct (Hscore H) as [[Hnil Hall]|Hbreak]; [|done].
  destruct (threadCount cfg); [lia|done].
Qed.

(** The run on [dict5] with the solution "spine". *)
Lemma run_round_budget_witness :
  0 < threadCount cfg1
  ∧ length (run cfg1 dict5 nobody [w "spine"]).1 ≤ Z.to_nat (roundCount cfg1)
  ∧ ((run cfg1 dict5 nobody [w "spine"]).2 = YouLost →
     length (run cfg1 dict5 nobody [w "spine"]).1 = Z.to_nat (roundCount cfg1))
  ∧ ((run cfg1 dict5 nobody [w "spine"]).2 = Score →
     ∃ round known,
       last (run cfg1 dict5 nobody [w "spine"]).1 = Some round
       ∧ outcome round = Break known ∧ forallb solved known = true).
Proof.
  assert (H1 : 0 < threadCount cfg1) by (simpl; lia).
  split; [exact H1|].
  exact (run_round_budget cfg1 dict5 nobody [w "spine"] H1).
Defined.

(** ** The letter scorer *)

(** X8.  [scoreLetters] has a row for exactly the letters that occur in some
    word of the list; the row has four slots, and slot [i] holds the number
    of words with more than [i] copies of the letter, replaced by its
    distance to the size of the list when it exceeds half of that size. *)
Theorem scoreLetters_counts_words (words : list text) (L : ascii) :
  scoreLetters words !! L
  = if decide (Exists (λ word, L ∈ word) words)
    then Some (map (λ i, foldAtHalf (length words) (wordsWith L i words)) (range 4))
    else None.
Proof.
  assert (Hkeys : is_Some (scoreLetters words !! L) ↔ Exists (λ word, L ∈ word) words).
  { unfold scoreLetters. rewrite lookup_fmap, fmap_is_Some, foldl_scoreLettersWord_keys.
    rewrite lookup_empty, Exists_exists. split; [|by right].
    by intros [[? ?]|?]. }
  case_decide as Hex.
  - apply Hkeys in Hex as [row Hrow]. rewrite Hrow. f_equal.
    pose proof (scoreLetters_rows words L row Hrow) as Hlen.
    apply list_eq_same_length with 4; [by rewrite length_map|done|].
    intros i n m Hi Hn Hm.
    rewrite (scoreLetters_entry words L row i Hrow Hi) in Hn.
    unfold range in Hm. rewrite list_lookup_fmap, lookup_seq_lt in Hm by done.
    simpl in Hm. congruence.
  - destruct (scoreLetters words !! L) eqn:Hrow; [|done].
    exfalso. apply Hex, Hkeys. by eexists.
Qed.

(** X9.  No score of a row of [scoreLetters] exceeds half the number of
    words; a letter that occurs in every word scores 0 in the first slot. *)
Theorem scoreLetters_at_most_half (words : list text) (L : ascii) (row : list nat) :
  scoreLetters words !! L = Some row →
  (∀ score, score ∈ row → 2 * score ≤ length words)
  ∧ ((∀ word, word ∈ words → L ∈ word) → row !! 0 = Some 0).
Proof.
  intros Hrow. pose proof (scoreLetters_rows words L row Hrow) as Hlen. split.
  - intros score [i Hi]%list_elem_of_lookup.
    assert (i < 4) as Hlt by (rewrite <- Hlen; by eapply lookup_lt_Some).
    rewrite (scoreLetters_entry words L row i Hrow Hlt) in Hi. injection Hi as <-.
    pose proof (wordsWith_le L i words). unfold foldAtHalf. case_decide; lia.
  - intros Hall. rewrite (scoreLetters_entry words L row 0 Hrow) by lia. f_equal.
    assert (wordsWith L 0 words = length words) as ->.
    { unfold wordsWith. clear Hrow. induction words as [|word words IH]; [done|].
      rewrite filter_cons, decide_True.
      - simpl. rewrite IH; [done|]. intros ? ?. apply Hall. by right.
      - apply occurrences_pos, Hall. by left. }
    unfold foldAtHalf. case_decide; lia.
Qed.

(** The letter "a" in a list of three words. *)
Lemma scoreLetters_at_most_half_witness :
  scoreLetters [w "aaaaa"; w "bbbbb"; w "ccccc"] !! "a"%char = Some [1; 1; 1; 1]
  ∧ ∀ score, score ∈ [1; 1; 1; 1] → 2 * score ≤ 3.
Proof.
  assert (H1 : scoreLetters [w "aaaaa"; w "bbbbb"; w "ccccc"] !! "a"%char
               = Some [1; 1; 1; 1]) by (vm_compute; reflexivity).
  split; [exact H1|].
  pose proof (scoreLetters_at_most_half [w "aaaaa"; w "bbbbb"; w "ccccc"] "a"
                [1; 1; 1; 1] H1) as Hhalf.
  destruct Hhalf as [Hbound _]. exact Hbound.
Defined.

(** X10.  [countLetters] lists every letter of the word once, with the
    number of times it occurs in the word, and nothing else; the counts add
    up to the length of the word. *)
Theorem countLetters_counts (word : text) :
  NoDup (countLetters word).*1
  ∧ (∀ L n, (L, n) ∈ countLetters word ↔ L ∈ word ∧ n = occurrences L word)
  ∧ sum_list (countLetters word).*2 = length word.
Proof.
  split_and!.
  - apply countLetters_NoDup.
  - intros L n. split.
    + intros Hin. split; [|by apply countLetters_entry].
      apply countLetters_keys, list_elem_of_fmap. by exists (L, n).
    + intros [Hin ->]. by apply countLetters_has_entry, occurrences_pos.
  - pose proof (countLetters_from_total word []) as Htotal. simpl in Htotal.
    unfold countLetters. rewrite <- Htotal.
    generalize (foldl (λ counts letter, bumpCount letter counts) [] word).
    intros counts. induction counts as [|[l n] counts IH]; simpl; [done|].
    f_equal. exact IH.
Qed.

(** ** What is shown and recorded *)

(** X11.  After an update with a 5-letter guess and its 5 results, the
    letters of the "Remaining" line are those of the line before the update
    that the guess does not contain. *)
Theorem remainingLetters_after_guess (guess : text) (response : list LetterResult)
    (known : Known) :
  length guess = 5 → length response = 5 →
  remainingLetters (updateKnown guess response known)
  = filter (λ letter, letter ∉ guess) (remainingLetters known).
Proof.
  intros Hg Hr. unfold remainingLetters. rewrite list_filter_filter.
  apply list_filter_iff. intros letter.
  rewrite updateKnown_keys by (by rewrite Hg, Hr). tauto.
Qed.

(** The guess "eerie" on a fresh board. *)
Lemma remainingLetters_after_guess_witness :
  length (w "eerie") = 5 ∧ length (makeGuess (w "eerie") (w "crane")) = 5
  ∧ remainingLetters knownEerie
    = filter (λ letter, letter ∉ w "eerie") (remainingLetters nothingKnown).
Proof.
  split; [reflexivity|split; [reflexivity|]].
  exact (remainingLetters_after_guess (w "eerie") (makeGuess (w "eerie") (w "crane"))
           nothingKnown eq_refl eq_refl).
Defined.

(** X12.  Every update adds exactly one line to [guessResult]: for a guess
    without a line feed, [countOccurrences] finds one more "\n" in the
    updated text. *)
Theorem updateKnown_adds_one_line (guess : text) (response : list LetterResult)
    (known : Known) :
  newline ∉ guess →
  countOccurrences (guessResult (updateKnown guess response known)) [newline]
  = countOccurrences (guessResult known) [newline] + 1.
Proof.
  intros Hguess. rewrite !countOccurrences_newline. by apply updateKnown_lines.
Qed.

(** The guess "grape" after "eerie". *)
Lemma updateKnown_adds_one_line_witness :
  (newline ∉ w "grape")
  ∧ countOccurrences
      (guessResult (updateKnown (w "grape") (makeGuess (w "grape") (w "crane")) knownEerie))
      [newline]
    = countOccurrences (guessResult knownEerie) [newline] + 1.
Proof.
  assert (H1 : newline ∉ w "grape")
    by (apply (bool_decide_eq_false_1 (newline ∈ w "grape")); reflexivity).
  split; [exact H1|].
  exact (updateKnown_adds_one_line (w "grape") (makeGuess (w "grape") (w "crane"))
           knownEerie H1).
Defined.

(** ** Test mode *)

(** X13.  A game of the test mode on a dictionary of 5-letter words, for a
    solution of the dictionary, never throws; the solution passes the filter
    of the state it ends in; when the loop stopped because [fixed] has no
    "." left, [fixed] is the solution; and the score the game is filed under
    is one more than the number of lines of [guessResult], one per guess, so
    between 2 and 11. *)
Theorem test_game_completes (hardMode : bool) (allWords : list text) (solution : text) :
  forallb isWord5 allWords = true → solution ∈ allWords →
  ∃ known score,
    testRounds hardMode allWords solution 10 nothingKnown allWords = Some known
    ∧ keeps known solution = true
    ∧ ("."%char ∉ fixed known → fixed known = solution)
    ∧ testScore hardMode allWords solution = Some score
    ∧ score = occurrences newline (guessResult known) + 1
    ∧ 2 ≤ score ≤ 11.
Proof.
  intros Hdict Hin.
  assert (isWord5 solution = true) as Hsol by (by eapply forallb_isWord5_elem).
  destruct (testRounds_ok hardMode allWords solution Hdict Hin 10 nothingKnown allWords)
    as (final & Hfinal & Hcons & Hkeeps & Hle & Hlt & _);
    [done|by apply keeps_nothingKnown|done|done|].
  exists final, (occurrences newline (guessResult final) + 1).
  specialize (Hlt ltac:(lia)).
  change (occurrences newline (guessResult nothingKnown)) with 0 in Hle, Hlt.
  split_and!; try done; try lia.
  - intros Hdot. by apply fixed_complete; [apply consistent_wellFormed|..].
  - unfold testScore. by rewrite Hfinal, countOccurrences_newline.
Qed.

(** The dictionary [dict5] and its word "spine". *)
Lemma test_game_completes_witness :
  forallb isWord5 dict5 = true ∧ w "spine" ∈ dict5
  ∧ ∃ known score,
      testRounds false dict5 (w "spine") 10 nothingKnown dict5 = Some known
      ∧ keeps known (w "spine") = true
      ∧ ("."%char ∉ fixed known → fixed known = w "spine")
      ∧ testScore false dict5 (w "spine") = Some score
      ∧ score = occurrences newline (guessResult known) + 1
      ∧ 2 ≤ score ≤ 11.
Proof.
  assert (H1 : forallb isWord5 dict5 = true) by reflexivity.
  assert (H2 : w "spine" ∈ dict5)
    by (apply (bool_decide_eq_true_1 (w "spine" ∈ dict5)); reflexivity).
  split; [exact H1|split; [exact H2|]].
  exact (test_game_completes false dict5 (w "spine") H1 H2).
Defined.

(** X14.  In hard mode a game of the test mode on a dictionary of at most
    ten 5-letter words always finds the solution: every wrong guess leaves
    the candidates, so the loop ends with [fixed] equal to the solution. *)
Theorem hard_test_game_finds_solution (allWords : list text) (solution : text) :
  forallb isWord5 allWords = true → solution ∈ allWords → length allWords ≤ 10 →
  ∃ known,
    testRounds true allWords solution 10 nothingKnown allWords = Some known
    ∧ fixed known = solution.
Proof.
  intros Hdict Hin Hlen.
  assert (isWord5 solution = true) as Hsol by (by eapply forallb_isWord5_elem).
  destruct (testRounds_ok true allWords solution Hdict Hin 10 nothingKnown allWords)
    as (final & Hfinal & Hcons & Hkeeps & _ & _ & Hhard);
    [done|by apply keeps_nothingKnown|done|done|].
  exists final. split; [done|].
  apply fixed_complete; [by apply consistent_wellFormed|done..|by apply Hhard].
Qed.

(** The dictionary [dict5] and its word "crane". *)
Lemma hard_test_game_finds_solution_witness :
  forallb isWord5 dict5 = true ∧ w "crane" ∈ dict5 ∧ length dict5 ≤ 10
  ∧ ∃ known,
      testRounds true dict5 (w "crane") 10 nothingKnown dict5 = Some known
      ∧ fixed known = w "crane".
Proof.
  assert (H1 : forallb isWord5 dict5 = true) by reflexivity.
  assert (H2 : w "crane" ∈ dict5)
    by (apply (bool_decide_eq_true_1 (w "crane" ∈ dict5)); reflexivity).
  assert (H3 : length dict5 ≤ 10) by (simpl; lia).
  split; [exact H1|split; [exact H2|split; [exact H3|]]].
  exact (hard_test_game_finds_solution dict5 (w "crane") H1 H2 H3).
Defined.

(** X15.  On a dictionary of 5-letter words the test mode files every word
    of the dictionary under exactly one score: the table it prints has only
    the keys 2 to 11, and its counts add up to the number of words. *)
Theorem testMode_counts_every_word (hardMode : bool) (allWords : list text) :
  forallb isWord5 allWords = true →
  ∃ table,
    testMode hardMode allWords = Some table
    ∧ totalGames table = length allWords
    ∧ map_Forall (λ score _, 2 ≤ score ≤ 11) table.
Proof.
  intros Hdict.
  destruct (testMode_table hardMode allWords allWords ∅ Hdict) as (table & Ht & Hn & Hr).
  - done.
  - apply map_Forall_empty.
  - exists table. split_and!; [done| |done]. rewrite Hn. unfold totalGames.
    by rewrite map_fold_empty.
Qed.

(** The dictionary [dict5]. *)
Lemma testMode_counts_every_word_witness :
  forallb isWord5 dict5 = true
  ∧ ∃ table,
      testMode false dict5 = Some table
      ∧ totalGames table = length dict5
      ∧ map_Forall (λ score _, 2 ≤ score ≤ 11) table.
Proof.
  split; [reflexivity|].
  exact (testMode_counts_every_word false dict5 eq_refl).
Defined.

(** ** Edges *)

(** X16.  [makeGuess] always returns five results and reads only the first
    five characters of its arguments; a position that neither word has is
    answered PERFECT. *)
Theorem makeGuess_reads_five (guess solution : text) :
  length (makeGuess guess solution) = 5
  ∧ makeGuess guess solution = makeGuess (take 5 guess) (take 5 solution)
  ∧ ∀ i, i < 5 → length guess ≤ i → length solution ≤ i →
      makeGuess guess solution !! i = Some PERFECT.
Proof.
  split_and!.
  - apply makeGuess_length.
  - apply makeGuess_take.
  - intros i. apply makeGuess_beyond.
Qed.

(** X17.  Before any guess the filter keeps exactly the words of five or
    more characters: a shorter word is dropped, and a longer word of letters
    a-z stays. *)
Theorem first_filter_keeps_long_words (words : list text) (word : text) :
  forallb isLetter word = true →
  word ∈ filterWords words nothingKnown ↔ word ∈ words ∧ 5 ≤ length word.
Proof.
  intros Hletters. unfold filterWords. rewrite list_elem_of_filter, Is_true_true.
  rewrite keeps_nothingKnown_iff by done. tauto.
Qed.

(** The six-letter word "cranes". *)
Lemma first_filter_keeps_long_words_witness :
  forallb isLetter (w "cranes") = true
  ∧ (w "cranes" ∈ filterWords [w "crane"; w "cranes"; w "cran"] nothingKnown
     ↔ w "cranes" ∈ [w "crane"; w "cranes"; w "cran"] ∧ 5 ≤ length (w "cranes")).
Proof.
  split; [reflexivity|].
  exact (first_filter_keeps_long_words [w "crane"; w "cranes"; w "cran"] (w "cranes")
           eq_refl).
Defined.

(** ** Objects *)

(** X18.  [updateKnown] gives the state it returns the very [badPositions]
    object of the state it was given when no result is CLOSE, and an object
    created by the call when some result is CLOSE. *)
Theorem updateKnown_shares_badPositions (h : Heap) (known : addr) (previous : Known)
    (guess : text) (response : list LetterResult) :
  repKnown h known previous →
  ∃ updated h' old new,
    updateKnownH guess response known h = Some (updated, h')
    ∧ badPositionsOf h known = Some old
    ∧ badPositionsOf h' updated = Some new
    ∧ (CLOSE ∉ response → new = old)
    ∧ (CLOSE ∈ response → length h ≤ new).
Proof.
  intros Hrep. pose proof Hrep as (g & b & p & Ha & Hg & Hb & Hp).
  unfold updateKnownH.
  rewrite (bind_Some _ _ _ _ _ (load_ok _ _ _ Ha)), !bind_alloc.
  set (stH0 := {| knownFixedH := []; newGoodH := length h;
                  newBadH := length (h ++ [OCounts ∅]);
                  guessResultH := guessResult previous; badPositionsH := p |}).
  set (st0 := {| knownFixed := []; newGood := ∅; newBad := ∅;
                 passGuessResult := guessResult previous;
                 passBadPositions := badPositions previous |}).
  assert (Hrep0 : passRep h ((h ++ [OCounts ∅]) ++ [OTexts ∅]) stH0 st0).
  { unfold passRep. simpl. rewrite length_app. simpl. split_and!; try done; try lia.
    - by apply prefix_app_r, prefix_app_r.
    - apply lookup_app_l_Some. by apply list_lookup_middle.
    - apply list_lookup_middle. rewrite length_app. simpl. lia.
    - by apply repPositions_app, repPositions_app. }
  destruct (forEach_noteResultH_ok h guess (fixed previous) (entries response) _ stH0 st0 Hrep0)
    as (stH & h1 & Hloop & Hrep1).
  destruct (forEach_noteResultH_alias h guess (fixed previous) (entries response) _ stH0 st0
              stH h1 Hrep0 Hloop) as [Hsame Hfresh].
  rewrite (bind_Some _ _ _ _ _ Hloop).
  destruct Hrep1 as (Hpre & Hfixed & Hresult & Hg0 & Hgood & Hb0 & Hbad & Hpos).
  rewrite (bind_Some _ _ _ _ _ (loadCounts_ok _ _ _ (prefix_lookup_Some _ _ _ _ Hg Hpre))).
  rewrite (bind_Some _ _ _ _ _ (loadCounts_ok _ _ _ Hgood)), bind_alloc.
  rewrite (bind_Some _ _ _ _ _
             (loadCounts_ok _ _ _ (lookup_app_l_Some _ _ _ _
                                     (prefix_lookup_Some _ _ _ _ Hb Hpre)))).
  rewrite (bind_Some _ _ _ _ _ (loadTexts_ok _ _ _ (lookup_app_l_Some _ _ _ _ Hbad))).
  rewrite (bind_Some _ _ _ _ _ (loadCounts_ok _ _ _ (list_lookup_middle _ [] _ _ eq_refl))).
  rewrite bind_alloc. unfold alloc.
  eexists _, _, p, (badPositionsH stH). split; [reflexivity|]. split_and!.
  - unfold badPositionsOf. by rewrite Ha.
  - unfold badPositionsOf. by rewrite list_lookup_middle.
  - intros Hnone. apply Hsame. intros [i r] Hin%elem_of_entries Hc.
    simpl in Hc. subst r. apply Hnone. by eapply list_elem_of_lookup_2.
  - intros [i Hi]%list_elem_of_lookup. apply Hfresh. right.
    exists (i, CLOSE). split; [by apply elem_of_entries|done].
Qed.

(** The state [knownEerie] in the store [heapEerie]. *)
Lemma updateKnown_shares_badPositions_witness :
  repKnown heapEerie 4 knownEerie
  ∧ ∃ updated h' old new,
      updateKnownH (w "grape") (makeGuess (w "grape") (w "crane")) 4 heapEerie
      = Some (updated, h')
      ∧ badPositionsOf heapEerie 4 = Some old
      ∧ badPositionsOf h' updated = Some new
      ∧ (CLOSE ∉ makeGuess (w "grape") (w "crane") → new = old)
      ∧ (CLOSE ∈ makeGuess (w "grape") (w "crane") → length heapEerie ≤ new).
Proof.
  split; [exact heapEerie_holds_knownEerie|].
  exact (updateKnown_shares_badPositions heapEerie 4 knownEerie (w "grape")
           (makeGuess (w "grape") (w "crane")) heapEerie_holds_knownEerie).
Defined.

(** X19.  In hard mode, when the program chooses every guess, a run with
    solutions on the command line (one per board, each a word of a
    dictionary of 5-letter words) ends with the score whenever the round
    budget is at least the number of boards times the size of the
    dictionary: every round takes a candidate away from some board. *)
Theorem hard_mode_run_wins (cfg : Config) (allWords : list text) (player : Player)
    (args : list text) :
  forallb isWord5 allWords = true →
  args ≠ [] → length args = threadCount cfg → randomMode cfg = false →
  hardMode cfg = true → freeMode cfg = false →
  (∀ solution, solution ∈ args → solution ∈ allWords) →
  threadCount cfg * length allWords ≤ Z.to_nat (roundCount cfg) →
  (run cfg allWords player args).2 = Score.
Proof.
  intros Hdict Hargs Hlen Hrandom Hhard Hfree Hsols Hbudget. unfold run.
  rewrite (bool_decide_eq_true_2 (args ≠ [])) by done.
  rewrite (bool_decide_eq_false_2 (length args ≠ threadCount cfg)) by (intros ?; done).
  rewrite Hrandom. simpl.
  assert (List.find (λ solution, bool_decide (solution ≠ [] ∧ solution ∉ allWords)) args
          = None) as ->.
  { clear Hlen Hargs. induction args as [|s rest IH]; [done|]. simpl.
    rewrite bool_decide_eq_false_2.
    - apply IH. intros ? ?. apply Hsols. by right.
    - intros [_ Hn]. apply Hn, Hsols. by left. }
  apply (playRounds_hard cfg allWords args player Hdict Hsols Hhard Hfree).
  - rewrite <- Hlen. split_and!; [by rewrite length_replicate..|].
    intros i solution known words Hsol [-> _]%lookup_replicate [-> _]%lookup_replicate.
    assert (solution ∈ allWords) by (apply Hsols; by eapply list_elem_of_lookup_2).
    split_and!; [done| |done|done].
    apply keeps_nothingKnown. by eapply forallb_isWord5_elem.
  - exists 0, nothingKnown. split; [|done]. apply lookup_replicate. split; [done|].
    rewrite <- Hlen. destruct args; [done|simpl; lia].
  - intros i known words [-> _]%lookup_replicate _ Hsolved. done.
  - rewrite candidatesLeft_replicate. unfold range. by rewrite length_seq.
Qed.

(** One board, the solution "spine", six rounds on the
    five words of [dict5]. *)
Lemma hard_mode_run_wins_witness :
  forallb isWord5 dict5 = true
  ∧ threadCount cfgHard * length dict5 ≤ Z.to_nat (roundCount cfgHard)
  ∧ (run cfgHard dict5 nobody [w "spine"]).2 = Score.
Proof.
  assert (H1 : forallb isWord5 dict5 = true) by reflexivity.
  assert (H2 : [w "spine"] ≠ []) by discriminate.
  assert (H3 : ∀ solution, solution ∈ [w "spine"] → solution ∈ dict5).
  { intros solution Hin. apply list_elem_of_singleton in Hin. rewrite Hin.
    apply (bool_decide_eq_true_1 (w "spine" ∈ dict5)). reflexivity. }
  assert (H4 : threadCount cfgHard * length dict5 ≤ Z.to_nat (roundCount cfgHard))
    by (vm_compute; lia).
  split; [exact H1|split; [exact H4|]].
  exact (hard_mode_run_wins cfgHard dict5 nobody [w "spine"]
           H1 H2 eq_refl eq_refl eq_refl eq_refl H3 H4).
Defined.

(** ** Input *)

(** X20.  [requestResult] returns exactly when a line of five digits 0, 1
    or 2 is typed: it returns the results of the first such line, five of
    them and none undefined, with 0 read as WRONG, 1 as CLOSE and 2 as
    PERFECT, whatever was typed before and after; and it is still asking
    exactly when no line typed so far has that form. *)
Theorem requestResult_returns_five (answers : list text) :
  (∀ returned,
     askResult answers = Some returned
     ↔ ∃ rejected results later,
         answers = rejected ++ map digitOf results :: later
         ∧ Forall (λ line, isResultLine line = false) rejected
         ∧ length results = 5
         ∧ returned = map Some results)
  ∧ (askResult answers = None ↔ Forall (λ line, isResultLine line = false) answers).
Proof.
  split; [|apply askResult_None].
  intros returned. split.
  - intros (rejected & response & later & -> & Hrej & Hok & ->)%askResult_Some.
    destruct (isResultLine_decodes response Hok) as (results & -> & Hlen).
    exists rejected, results, later. split_and!; [done..|].
    rewrite <- list_fmap_compose. apply list_fmap_ext. intros i letterResult _.
    apply resultOfDigit_digitOf.
  - intros (rejected & results & later & -> & Hrej & Hlen & ->).
    rewrite askResult_first by (done || by apply isResultLine_digits). f_equal.
    rewrite <- list_fmap_compose. apply list_fmap_ext. intros i letterResult _.
    apply resultOfDigit_digitOf.
Qed.

(** The line "20100" typed after a line of four digits. *)
Example askResult_second_line :
  askResult [w "2010"; w "20100"]
  = Some [Some PERFECT; Some WRONG; Some CLOSE; Some WRONG; Some WRONG].
Proof. reflexivity. Qed.

(** X21.  [requestGuess] returns exactly when a line is typed that is empty
    or a word of the dictionary made of five letters a-z: it returns the
    first such line, whatever was typed before and after; and it is still
    asking exactly when every line typed so far is neither. *)
Theorem requestGuess_returns_word (allWords answers : list text) :
  (∀ guess,
     askGuess allWords answers = Some guess
     ↔ ∃ rejected later,
         answers = rejected ++ guess :: later
         ∧ Forall (λ line, line ≠ [] ∧ (isWord5 line = false ∨ line ∉ allWords)) rejected
         ∧ (guess = [] ∨ (isWord5 guess = true ∧ guess ∈ allWords)))
  ∧ (askGuess allWords answers = None
     ↔ Forall (λ line, line ≠ [] ∧ (isWord5 line = false ∨ line ∉ allWords)) answers).
Proof.
  split; [|apply askGuess_None].
  intros guess. split.
  - apply askGuess_Some.
  - intros (rejected & later & -> & Hrej & Hguess). by apply askGuess_first.
Qed.

(** "spine" typed after a word that is not in [dict5]. *)
Example askGuess_second_line :
  askGuess dict5 [w "zzzzz"; w "spine"] = Some (w "spine").
Proof. vm_compute. reflexivity. Qed.

(** ** The ranker on its edges *)

(** X22.  [chooseWord] throws exactly when the pool is empty and otherwise
    returns a word of the pool; the [chooseWord] of the first single-board
    source returns what the multi-board one returns for that one board. *)
Theorem chooseWord_member_or_throws (threadWords : list (list text))
    (words guessPool : list text) :
  (chooseWord threadWords guessPool = None ↔ guessPool = [])
  ∧ (∀ guess, chooseWord threadWords guessPool = Some guess → guess ∈ guessPool)
  ∧ chooseWordSingle words guessPool = chooseWord [words] guessPool.
Proof.
  split_and!.
  - split.
    + intros Hnone. destruct guessPool as [|first pool]; [done|].
      destruct (chooseWord_is_Some threadWords (first :: pool)) as [? Hsome]; [done|].
      congruence.
    + by intros ->.
  - intros guess. apply chooseWord_elem.
  - apply chooseWordSingle_chooseWord.
Qed.

(** ** What is known is kept *)

(** X23.  An update with a 5-letter guess and its 5 results never loses a
    constraint: a confirmed position of [fixed] stays confirmed (with the
    same letter unless the position is answered PERFECT again), no count of
    [good] decreases, and every position recorded in [badPositions] stays
    recorded. *)
Theorem updateKnown_never_forgets (guess : text) (response : list LetterResult)
    (known : Known) :
  isWord5 guess = true → length response = 5 → length (fixed known) = 5 →
  (∀ i c, fixed known !! i = Some c → c ≠ "."%char →
     ∃ c', fixed (updateKnown guess response known) !! i = Some c'
           ∧ c' ≠ "."%char
           ∧ (response !! i ≠ Some PERFECT → c' = c))
  ∧ (∀ key, default 0 (good known !! key)
            ≤ default 0 (good (updateKnown guess response known) !! key))
  ∧ (∀ key position,
       position ∈ default ∅ (badPositions known !! key) →
       position ∈ default ∅ (badPositions (updateKnown guess response known) !! key)).
Proof.
  intros Hguess Hr Hf. pose proof (isWord5_length _ Hguess) as Hg. split_and!.
  - intros i c Hi Hc. rewrite updateKnown_fixed by done. unfold nextFixed.
    assert (i < 5) as Hlt by (rewrite <- Hf; by eapply lookup_lt_Some).
    destruct (lookup_lt_is_Some_2 response i) as [r Hri]; [lia|].
    destruct (isWord5_lookup guess i Hguess Hlt) as (g & Hgi & Hletter).
    exists (if decide (r = PERFECT) then g else c). split_and!.
    + apply lookup_zip_with_Some. exists r, (g, c). split_and!; [done..|].
      apply lookup_zip_with_Some. by exists g, c.
    + case_decide; [|done]. intros ->. done.
    + intros Hnp. rewrite decide_False; [done|]. intros ->. done.
  - intros key. unfold updateKnown. simpl. apply mergeGood_grows.
  - intros key position Hin. unfold updateKnown. simpl.
    apply foldl_noteResult_badPositions. by left.
Qed.

(** The guess "grape" after "eerie", solution "crane". *)
Lemma updateKnown_never_forgets_witness :
  isWord5 (w "grape") = true ∧ length (makeGuess (w "grape") (w "crane")) = 5
  ∧ length (fixed knownEerie) = 5
  ∧ ∀ key, default 0 (good knownEerie !! key)
           ≤ default 0 (good (updateKnown (w "grape") (makeGuess (w "grape") (w "crane"))
                                knownEerie) !! key).
Proof.
  split; [reflexivity|split; [reflexivity|split; [reflexivity|]]].
  pose proof (updateKnown_never_forgets (w "grape") (makeGuess (w "grape") (w "crane"))
                knownEerie eq_refl eq_refl eq_refl) as Hkept.
  destruct Hkept as (_ & Hgood & _). exact Hgood.
Defined.

(** ** Contradictions *)

(** X24.  A run ends with "Word not known" for a board only in a round whose
    results left that board unsolved with no candidate passing the filter of
    its new state; that round is the last one played. *)
Theorem word_not_known_exit (cfg : Config) (allWords : list text) (player : Player)
    (args : list text) (thread : nat) (known : Known) :
  (run cfg allWords player args).2 = WordNotKnown thread known →
  ∃ round words,
    last (run cfg allWords player args).1 = Some round
    ∧ outcome round = Abort (WordNotKnown thread known)
    ∧ wordsBefore round !! thread = Some words
    ∧ solved known = false
    ∧ filterWords words known = [].
Proof.
  unfold run.
  destruct (_ && _); [done|].
  destruct (randomMode cfg && _); [done|].
  destruct (List.find _ _); [done|].
  intros Hexit. apply playRounds_abort in Hexit; [|done..].
  destruct Hexit as (round & n & before & words & Hlast & Hround & Habort).
  pose proof Habort as Hstuck. rewrite Hround in Hstuck.
  apply playRound_word_not_known in Hstuck as (stuck & Hw & Hun & Hnone).
  exists round, stuck. split_and!; try done. by rewrite Hround.
Qed.

(** The empty solution on the dictionary of "crane". *)
Lemma word_not_known_exit_witness :
  (run cfg1 [w "crane"] nobody [[]]).2 = WordNotKnown 0 knownAllWrong
  ∧ ∃ round words,
      last (run cfg1 [w "crane"] nobody [[]]).1 = Some round
      ∧ outcome round = Abort (WordNotKnown 0 knownAllWrong)
      ∧ wordsBefore round !! 0 = Some words
      ∧ solved knownAllWrong = false
      ∧ filterWords words knownAllWrong = [].
Proof.
  assert (H1 : (run cfg1 [w "crane"] nobody [[]]).2 = WordNotKnown 0 knownAllWrong)
    by (vm_compute; reflexivity).
  split; [exact H1|].
  exact (word_not_known_exit cfg1 [w "crane"] nobody [[]] 0 knownAllWrong H1).
Defined.

(** ** Flags of the single-board sources *)

(** X25.  [defineFlag] reports whether the flag is among the arguments and
    takes its first occurrence out of them, leaving the other arguments in
    their order (a second occurrence stays); and the arguments two calls for
    different flags leave do not depend on the order of the calls. *)
Theorem defineFlag_takes_first (flag other : text) (args : list text) :
  ((defineFlag flag args).1 = true ↔ flag ∈ args)
  ∧ (flag ∉ args → (defineFlag flag args).2 = args)
  ∧ (∀ pre post, args = pre ++ flag :: post → flag ∉ pre →
       (defineFlag flag args).2 = pre ++ post)
  ∧ (flag ≠ other →
       (defineFlag other (defineFlag flag args).2).2
       = (defineFlag flag (defineFlag other args).2).2
       ∧ ((defineFlag other (defineFlag flag args).2).1 = (defineFlag other args).1)).
Proof.
  split_and!.
  - apply defineFlag_enabled.
  - intros Hout. by rewrite defineFlag_absent.
  - intros pre post -> Hpre. by rewrite defineFlag_first.
  - intros Hne. split; [by apply defineFlag_commute|].
    apply eq_true_iff_eq. rewrite !defineFlag_enabled. by apply defineFlag_other.
Qed.

(** X26.  [defineFlagWithArgument] reads the value of a flag from the
    argument after it or from the text after "flag=", and takes what it read
    out of the arguments; a flag that is the last argument ends the process
    with the usage text; without the flag the result is [undefined] and the
    arguments are left as they are. *)
Theorem defineFlagWithArgument_spellings (flag value : text) (pre post : list text) :
  flag ∉ pre →
  defineFlagWithArgument flag (pre ++ flag :: value :: post)
  = FlagValue (Some value) (pre ++ post)
  ∧ defineFlagWithArgument flag (pre ++ [flag]) = FlagUsage
  ∧ (flag ∉ post → Forall (λ arg, ¬ (flag ++ ["="%char]) `prefix_of` arg) pre →
     defineFlagWithArgument flag (pre ++ (flag ++ "="%char :: value) :: post)
     = FlagValue (Some value) (pre ++ post))
  ∧ (flag ∉ post → Forall (λ arg, ¬ (flag ++ ["="%char]) `prefix_of` arg) (pre ++ post) →
     defineFlagWithArgument flag (pre ++ post) = FlagValue None (pre ++ post)).
Proof.
  intros Hpre. unfold defineFlagWithArgument. split_and!.
  - rewrite indexOf_first by done.
    rewrite decide_False by (rewrite length_app; simpl; lia).
    f_equal.
    + rewrite lookup_app_r by lia.
      by replace (length pre + 1 - length pre) with 1 by lia.
    + rewrite take_app_length. f_equal.
      rewrite drop_app_ge by lia.
      by replace (length pre + 2 - length pre) with 2 by lia.
  - rewrite indexOf_first by done.
    rewrite decide_True; [done|]. rewrite length_app. simpl. lia.
  - intros Hpost Hplain. rewrite indexOf_absent.
    + rewrite list_find_first; [|done|].
      * f_equal; [|apply delete_middle]. f_equal.
        change (flag ++ "="%char :: value) with (flag ++ ["="%char] ++ value).
        rewrite app_assoc. apply drop_app_length'. rewrite length_app. simpl. lia.
      * exists value. by rewrite <- app_assoc.
    + rewrite elem_of_app, elem_of_cons. intros [?|[Heq|?]]; [done| |done].
      apply (f_equal length) in Heq. rewrite length_app in Heq. simpl in Heq. lia.
  - intros Hpost Hplain. rewrite indexOf_absent.
    + by rewrite list_find_absent.
    + rewrite elem_of_app. by intros [?|?].
Qed.

(** The arguments "--hard --rounds 7 crane" and "--hard --rounds=7 crane". *)
Lemma defineFlagWithArgument_spellings_witness :
  (w "--rounds" ∉ [w "--hard"])
  ∧ defineFlagWithArgument (w "--rounds") [w "--hard"; w "--rounds"; w "7"; w "crane"]
    = FlagValue (Some (w "7")) [w "--hard"; w "crane"]
  ∧ defineFlagWithArgument (w "--rounds") [w "--hard"; w "--rounds=7"; w "crane"]
    = FlagValue (Some (w "7")) [w "--hard"; w "crane"].
Proof.
  assert (H1 : w "--rounds" ∉ [w "--hard"])
    by (apply (bool_decide_eq_false_1 (w "--rounds" ∈ [w "--hard"])); reflexivity).
  assert (H2 : w "--rounds" ∉ [w "crane"])
    by (apply (bool_decide_eq_false_1 (w "--rounds" ∈ [w "crane"])); reflexivity).
  assert (H3 : Forall (λ arg, ¬ (w "--rounds" ++ ["="%char]) `prefix_of` arg) [w "--hard"]).
  { constructor; [|constructor].
    apply (bool_decide_eq_false_1 ((w "--rounds" ++ ["="%char]) `prefix_of` w "--hard")).
    reflexivity. }
  split; [exact H1|].
  pose proof (defineFlagWithArgument_spellings (w "--rounds") (w "7") [w "--hard"]
                [w "crane"] H1) as Hboth.
  destruct Hboth as (Hspace & _ & Hequals & _).
  split; [exact Hspace|exact (Hequals H2 H3)].
Defined.

(** ** Score mode *)

(** X27.  For 5-letter words the state the score mode prints is read off
    the two words: [fixed] shows the letter of the guess where the solution
    has the same letter and "." elsewhere; [good] counts a letter as often
    as both words have it; [bad] bounds exactly the letters the guess has
    more often than the solution, by one more than the solution has them;
    and [badPositions] records the positions answered CLOSE. *)
Theorem scoreMode_state (scoreGuess solution : text) :
  length scoreGuess = 5 → length solution = 5 →
  (∀ i c, scoreGuess !! i = Some c →
     fixed (scoreMode scoreGuess solution) !! i
     = Some (if decide (solution !! i = Some c) then c else "."%char))
  ∧ (∀ L, default 0 (good (scoreMode scoreGuess solution) !! [L])
          = Nat.min (occurrences L scoreGuess) (occurrences L solution))
  ∧ (∀ L, bad (scoreMode scoreGuess solution) !! [L]
          = if decide (occurrences L solution < occurrences L scoreGuess)
            then Some (occurrences L solution + 1) else None)
  ∧ (∀ L position,
       position ∈ default ∅ (badPositions (scoreMode scoreGuess solution) !! [L])
       ↔ makeGuess scoreGuess solution !! position = Some CLOSE
         ∧ scoreGuess !! position = Some L).
Proof.
  intros Hg Hs. unfold scoreMode.
  pose proof (makeGuess_length scoreGuess solution) as Hr.
  assert (Hgood : ∀ L, default 0 (good (updateKnown scoreGuess
                                         (makeGuess scoreGuess solution) nothingKnown)
                                  !! [L])
                       = Nat.min (occurrences L scoreGuess) (occurrences L solution)).
  { intros L. rewrite updateKnown_good by (rewrite Hr, Hg; lia).
    rewrite makeGuess_credit by done. simpl. rewrite lookup_empty. simpl. lia. }
  split_and!.
  - intros i c Hi. rewrite updateKnown_fixed by done. unfold nextFixed.
    assert (i < 5) as Hlt by (rewrite <- Hg; by eapply lookup_lt_Some).
    destruct (lookup_lt_is_Some_2 (makeGuess scoreGuess solution) i) as [r Hri]; [lia|].
    destruct (lookup_lt_is_Some_2 (fixed nothingKnown) i) as [f Hf]; [simpl; lia|].
    assert (f = "."%char) as ->.
    { do 5 (destruct i as [|i]; [simpl in Hf; congruence|]). simpl in Hlt. lia. }
    apply lookup_zip_with_Some. exists r, (c, "."%char). split_and!; [|done|].
    + simpl.
      destruct (decide (r = PERFECT)) as [Hp|Hp],
        (decide (solution !! i = Some c)) as [Hsame|Hsame]; try done.
      * subst r. apply makeGuess_perfect in Hri as (c' & ? & ?); [|done..]. congruence.
      * exfalso. apply Hp.
        assert (makeGuess scoreGuess solution !! i = Some PERFECT)
          by (apply makeGuess_perfect; eauto).
        congruence.
    + apply lookup_zip_with_Some. by exists c, "."%char.
  - exact Hgood.
  - intros L.
    destruct (updateKnown_bad scoreGuess (makeGuess scoreGuess solution) nothingKnown L)
      as [Hnew Hold].
    pose proof (makeGuess_wrong_iff scoreGuess solution L Hg Hs) as Hwrong.
    case_decide as Hless.
    + rewrite (Hnew (proj2 Hwrong Hless)), Hgood. f_equal. lia.
    + rewrite Hold; [done|]. intros Hex. by apply Hless, Hwrong.
  - intros L position. rewrite updateKnown_badPositions. simpl.
    rewrite lookup_empty. simpl. split; [|by right].
    intros [Hin|Hclose]; [|done]. by apply elem_of_empty in Hin.
Qed.

(** The guess "eerie" against the solution "crane". *)
Lemma scoreMode_state_witness :
  length (w "eerie") = 5 ∧ length (w "crane") = 5
  ∧ ∀ L, bad (scoreMode (w "eerie") (w "crane")) !! [L]
         = if decide (occurrences L (w "crane") < occurrences L (w "eerie"))
           then Some (occurrences L (w "crane") + 1) else None.
Proof.
  split; [reflexivity|split; [reflexivity|]].
  pose proof (scoreMode_state (w "eerie") (w "crane") eq_refl eq_refl) as Hstate.
  destruct Hstate as (_ & _ & Hbad & _). exact Hbad.
Defined.

(** ** Random solutions *)

(** X28.  A run with [--random] and no solutions on the command line, on a
    dictionary of 5-letter words and at least one board, draws its solutions
    from the dictionary (every draw is an index into it) and so neither
    stops on an unknown word nor on a contradiction: every round is
    completed and the process ends with the score or with "You lost". *)
Theorem random_run_completes (cfg : Config) (allWords : list text) (player : Player) :
  forallb isWord5 allWords = true →
  randomMode cfg = true → 0 < threadCount cfg →
  (∀ i, i < threadCount cfg → randomIndex player i < length allWords) →
  (∀ n, requestGuess player n ≠ [] → requestGuess player n ∈ allWords) →
  ((run cfg allWords player []).2 = Score ∨ (run cfg allWords player []).2 = YouLost)
  ∧ Forall roundCompleted (run cfg allWords player []).1.
Proof.
  intros Hdict Hrandom Hboards Hdraws Hplayer. unfold run.
  rewrite Hrandom. simpl.
  set (solutions := map (λ i, default [] (allWords !! randomIndex player i))
                        (range (threadCount cfg))).
  assert (Hsols : ∀ solution, solution ∈ solutions → solution ∈ allWords).
  { intros solution Hin. unfold solutions in Hin.
    apply list_elem_of_fmap in Hin as (i & -> & Hi).
    unfold range in Hi. apply elem_of_seq in Hi.
    destruct (lookup_lt_is_Some_2 allWords (randomIndex player i)) as [word Hword];
      [apply Hdraws; lia|].
    rewrite Hword. simpl. by eapply list_elem_of_lookup_2. }
  assert (length solutions = threadCount cfg) as Hlen
    by (unfold solutions, range; by rewrite length_map, length_seq).
  assert (List.find (λ solution, bool_decide (solution ≠ [] ∧ solution ∉ allWords))
            solutions = None) as ->.
  { clear Hlen. induction solutions as [|s rest IH]; [done|]. simpl.
    rewrite bool_decide_eq_false_2.
    - apply IH. intros ? ?. apply Hsols. by right.
    - intros [_ Hn]. apply Hn, Hsols. by left. }
  apply (playRounds_sim cfg allWords solutions player Hdict Hsols Hplayer).
  - rewrite <- Hlen. split_and!; [by rewrite length_replicate..|].
    intros i solution known words Hsol [-> _]%lookup_replicate [-> _]%lookup_replicate.
    assert (solution ∈ allWords) by (apply Hsols; by eapply list_elem_of_lookup_2).
    split_and!; [done| |done|done].
    apply keeps_nothingKnown. by eapply forallb_isWord5_elem.
  - exists 0, nothingKnown. split; [|done]. apply lookup_replicate. split; [done|lia].
Qed.

(** One board on [dict5], every draw being the first word. *)
Lemma random_run_completes_witness :
  forallb isWord5 dict5 = true ∧ 0 < threadCount cfgRandom
  ∧ ((run cfgRandom dict5 nobody []).2 = Score
     ∨ (run cfgRandom dict5 nobody []).2 = YouLost)
  ∧ Forall roundCompleted (run cfgRandom dict5 nobody []).1.
Proof.
  assert (H1 : forallb isWord5 dict5 = true) by reflexivity.
  assert (H2 : 0 < threadCount cfgRandom) by (simpl; lia).
  assert (H3 : ∀ i, i < threadCount cfgRandom → randomIndex nobody i < length dict5)
    by (intros i _; simpl; lia).
  assert (H4 : ∀ n, requestGuess nobody n ≠ [] → requestGuess nobody n ∈ dict5).
  { intros n Hn. exfalso. apply Hn. reflexivity. }
  split; [exact H1|split; [exact H2|]].
  exact (random_run_completes cfgRandom dict5 nobody H1 eq_refl H2 H3 H4).
Defined.
